(** * Train dispatch simulator: binary heap, weighted A* and the tick engine

    A shallow embedding of the simulation core of the train dispatcher
    (the [MinHeap] class, [findPathAStar], [isPathClear], [dispatchTrain]
    and the body of the tick interval callback) together with the proofs of
    the properties its specification states, and of further properties of
    the code around it: the legacy queue and the legacy search of the
    benchmark, the cell keys as strings, the grid editor, the initial map,
    the route preview and the history panel.

    Conventions of the embedding.
    - A cell key is the string [x-y] that [getCellId] builds from two
      integers.  Different pairs give different keys, so a key is
      represented by the pair it is built from, and [parseCellId] by the
      function on pairs that reading the key back amounts to: the identity
      on the pairs without a negative coordinate, which the keys of the
      board are.  Module [CellKey] has the two functions on the strings,
      module [PairKeyFacts] the proof that the two levels agree.
    - Path costs are JavaScript numbers that are always multiples of 0.5
      (the turn penalty).  They are counted in halves: the number [c] of the
      source is the integer [2 * c] here, which keeps every comparison exact.
    - [progress] is a fraction; it is a rational number here.
    - Loops that the source runs until a condition fails take a fuel
      argument; the theorems show that enough fuel always exists. *)

From Stdlib Require Import ZArith Lia List Permutation Sorted QArith Lqa.
From Stdlib Require Import Ascii String DecimalString DecimalPos DecimalZ.
From stdpp Require Import base gmap sets list strings.

Local Open Scope Z_scope.

(** ** The binary min-heap (class [MinHeap]) *)

(** * Part I: the embedding of the source *)

Module MinHeap.
Section Heap.
Context {T : Type} (f : T → Z).

(** [parent] is only called under the guard [i > 0]. *)
Definition parent (i : nat) : nat := ((i - 1) / 2)%nat.
Definition leftChild (i : nat) : nat := (2 * i + 1)%nat.
Definition rightChild (i : nat) : nat := (2 * i + 2)%nat.

(** [[heap[i], heap[j]] = [heap[j], heap[i]]] on indices of the array. *)
Definition swap (i j : nat) (heap : list T) : list T :=
  match heap !! i, heap !! j with
  | Some a, Some b => <[j:=a]> (<[i:=b]> heap)
  | _, _ => heap
  end.

(** [heap[a].f > heap[b].f] *)
Definition f_gt (heap : list T) (a b : nat) : bool :=
  match heap !! a, heap !! b with
  | Some x, Some y => f y <? f x
  | _, _ => false
  end.

(** [heap[a].f < heap[b].f] *)
Definition f_lt (heap : list T) (a b : nat) : bool := f_gt heap b a.

(** The [while] loop of [siftUp]; the index strictly decreases, so [i]
    rounds are enough. *)
Fixpoint siftUp_loop (fuel i : nat) (heap : list T) : list T :=
  match fuel with
  | O => heap
  | S fuel' =>
      if (0 <? i)%nat && f_gt heap (parent i) i
      then siftUp_loop fuel' (parent i) (swap (parent i) i heap)
      else heap
  end.

Definition siftUp (i : nat) (heap : list T) : list T := siftUp_loop i i heap.

(** The index chosen by the two tests of [siftDown]. *)
Definition minChild (i : nat) (heap : list T) : nat :=
  let left := leftChild i in
  let right := rightChild i in
  let minIndex := i in
  let minIndex :=
    if (left <? length heap)%nat && f_lt heap left minIndex then left else minIndex in
  let minIndex :=
    if (right <? length heap)%nat && f_lt heap right minIndex then right else minIndex in
  minIndex.

(** [siftDown] recurses on a strictly larger index below [heap.length]. *)
Fixpoint siftDown_rec (fuel i : nat) (heap : list T) : list T :=
  match fuel with
  | O => heap
  | S fuel' =>
      let minIndex := minChild i heap in
      if negb (i =? minIndex)%nat
      then siftDown_rec fuel' minIndex (swap i minIndex heap)
      else heap
  end.

Definition siftDown (i : nat) (heap : list T) : list T :=
  siftDown_rec (length heap) i heap.

Definition push (item : T) (heap : list T) : list T :=
  siftUp (length heap) (heap ++ [item]).

(** [pop] returns the removed item (or [None] for [undefined]) and the
    array left behind. *)
Definition pop (heap : list T) : option T * list T :=
  match heap with
  | [] => (None, heap)
  | [x] => (Some x, [])
  | result :: _ =>
      match last heap with
      | Some l => (Some result, siftDown 0 (<[0%nat:=l]> (take (length heap - 1) heap)))
      | None => (None, heap)
      end
  end.

Definition isEmpty (heap : list T) : bool := (length heap =? 0)%nat.
Definition size (heap : list T) : nat := length heap.

(** The heap invariant as the specification words it: the [f] of a parent
    is at most the [f] of each of its children. *)
Definition heap_ordered (heap : list T) : Prop :=
  ∀ i p c, heap !! i = Some p →
    heap !! leftChild i = Some c ∨ heap !! rightChild i = Some c →
    f p ≤ f c.

(** The same invariant read from the child's side. *)
Definition heap_par (heap : list T) : Prop :=
  ∀ j x y, (0 < j)%nat → heap !! j = Some x → heap !! parent j = Some y → f y ≤ f x.

(** Operations of a client, for statements about whole runs. *)
Inductive op : Type :=
| Push (item : T)
| Pop.

Definition apply_op (heap : list T) (o : op) : list T :=
  match o with
  | Push item => push item heap
  | Pop => snd (pop heap)
  end.

Definition run (ops : list op) : list T := fold_left apply_op ops [].

End Heap.
End MinHeap.

(** ** Data model *)

Inductive CellType : Type := empty_cell | track | station.

Record Cell : Type := mkCell {
  cell_x : Z;
  cell_y : Z;
  cell_type : CellType;
  stationName : option string;
  cell_id : Z * Z
}.

Inductive TrainState : Type := moving | waiting | arrived | dwelling.

Inductive DispatchType : Type := manual | schedule | batch.

#[global] Instance CellType_eq_dec : EqDecision CellType.
Proof. solve_decision. Defined.

#[global] Instance TrainState_eq_dec : EqDecision TrainState.
Proof. solve_decision. Defined.

#[global] Instance DispatchType_eq_dec : EqDecision DispatchType.
Proof. solve_decision. Defined.

(** The cosmetic fields [name] and [color] are left out. *)
Record Train : Type := mkTrain {
  train_id : string;
  fromId : Z * Z;
  toId : Z * Z;
  path : list (Z * Z);
  currentPathIndex : Z;
  progress : Q;
  state : TrainState;
  priority : Z;
  train_type : DispatchType;
  waitingTime : Z;
  isCyclic : bool;
  dwellRemaining : Z
}.

Record ScheduleItem : Type := mkScheduleItem {
  sched_id : string;
  sched_time : Z;
  sched_from : string;
  sched_to : string;
  sched_priority : Z;
  dispatched : bool
}.

Record BatchItem : Type := mkBatchItem {
  batch_from : string;
  batch_to : string;
  dispatchAt : Z;
  batch_priority : Z;
  batch_isCyclic : bool
}.

Record HistoryItem : Type := mkHistoryItem {
  hist_id : string;
  hist_time : Z;
  hist_from : string;
  hist_to : string;
  hist_priority : Z;
  hist_type : DispatchType;
  hist_isCyclic : bool
}.

(** The grid object [Record<string, Cell>], in key insertion order (the order
    [Object.values] enumerates). *)
Abbreviation Grid := (list ((Z * Z) * Cell)).

Fixpoint cellAt (grid : Grid) (id : Z * Z) : option Cell :=
  match grid with
  | [] => None
  | (k, c) :: rest => if decide (k = id) then Some c else cellAt rest id
  end.

Definition isTraversable (c : Cell) : bool :=
  match cell_type c with
  | track | station => true
  | empty_cell => false
  end.

(** [arr[i]] for a JavaScript number [i] that is an integer: [undefined]
    outside the array. *)
Definition nthZ {A : Type} (l : list A) (i : Z) : option A :=
  if i <? 0 then None else l !! Z.to_nat i.

(** [arr.slice(a, b)] for the non-negative bounds the source passes. *)
Definition slice {A : Type} (a b : Z) (l : list A) : list A :=
  take (Z.to_nat b - Z.to_nat a) (drop (Z.to_nat a) l).

Definition len {A : Type} (l : list A) : Z := Z.of_nat (length l).

(** The key [`${x}-${y}`], as the pair it is built from. *)
Definition getCellId (x y : Z) : Z * Z := (x, y).

(** [parseCellId] of the key of the pair [id].  [id.split('-')] cuts the
    key [x-y] at every minus sign, the sign of a coordinate included, and
    [Number] reads the empty piece as 0: the key [-3-5] gives the pieces
    [["", "3", "5"]] and the position (0, 3), the key [3--5] the pieces
    [["3", "", "5"]] and the position (3, 0).  Only a key of two
    coordinates that are not negative is read back as it was written. *)
Definition parseCellId (id : Z * Z) : Z * Z :=
  if id.1 <? 0 then (0, - id.1)
  else if id.2 <? 0 then (id.1, 0)
  else id.

(** A cost of the source, counted in halves. *)
Definition halves (c : Z) : Z := 2 * c.

Definition getHeuristic (x1 y1 x2 y2 : Z) : Z := Z.abs (x1 - x2) + Z.abs (y1 - y2).

(** Result of a loop run with fuel. *)
Inductive run_result (A : Type) : Type :=
| OutOfFuel
| Done (a : A).
Arguments OutOfFuel {A}.
Arguments Done {A} a.

(** ** A* search ([findPathAStar]) *)

#[warnings="-register-all"]
Inductive AStarNode : Type := mkNode {
  node_id : Z * Z;
  node_x : Z;
  node_y : Z;
  node_g : Z;
  node_h : Z;
  node_f : Z;
  node_parent : option AStarNode
}.

(** The loop [while (curr) { path.unshift(curr.id); curr = curr.parent; }]. *)
Fixpoint reconstruct (curr : AStarNode) (acc : list (Z * Z)) : list (Z * Z) :=
  match curr with
  | mkNode id _ _ _ _ _ parent =>
      match parent with
      | Some p => reconstruct p (id :: acc)
      | None => id :: acc
      end
  end.

(** Position [t.path[t.currentPathIndex]] of a train. *)
Definition trainCell (t : Train) : option (Z * Z) := nthZ (path t) (currentPathIndex t).

(** Positions of the trains that the first [forEach] of [findPathAStar]
    does not skip. *)
Definition otherPositions (currentTrains : list Train) (ignoreTrainId : option string)
  : list (Z * Z) :=
  omap (λ t, if decide (Some (train_id t) = ignoreTrainId) then None else trainCell t)
       currentTrains.

Definition occupiedCells (currentTrains : list Train) (ignoreTrainId : option string)
  : gset (Z * Z) :=
  list_to_set (otherPositions currentTrains ignoreTrainId).

Definition nearCongestionCells (currentTrains : list Train) (ignoreTrainId : option string)
  : gset (Z * Z) :=
  list_to_set
    (flat_map (λ tPos, let pos := parseCellId tPos in
                       [getCellId (pos.1 + 0) (pos.2 + 1); getCellId (pos.1 + 0) (pos.2 + -1);
                        getCellId (pos.1 + 1) (pos.2 + 0); getCellId (pos.1 + -1) (pos.2 + 0)])
              (otherPositions currentTrains ignoreTrainId)).

Record SearchState : Type := mkSearch {
  openSet : list AStarNode;
  visited : gmap (Z * Z) Z
}.

Section Search.
Context (endId : Z * Z) (currentGrid : Grid).
Context (occupied nearCongestion : gset (Z * Z)).
Context (reservedCells : option (gset (Z * Z))) (strictMode : bool).

(** [reservedCells && reservedCells.has(nid)] *)
Definition reservedHas (nid : Z * Z) : bool :=
  match reservedCells with
  | Some r => bool_decide (nid ∈ r)
  | None => false
  end.

(** The turn penalty: 0.5 when the step leaves the direction of the step
    that reached [current]. *)
Definition turnPenalty (current : AStarNode) (nx ny : Z) : Z :=
  match node_parent current with
  | Some parent =>
      let dx := nx - node_x current in
      let dy := ny - node_y current in
      let pdx := node_x current - node_x parent in
      let pdy := node_y current - node_y parent in
      if negb (dx =? pdx) || negb (dy =? pdy) then 1 else 0
  | None => 0
  end.

Definition moveCost (current : AStarNode) (nx ny : Z) : Z :=
  let nid := getCellId nx ny in
  let moveCost := halves 1 in
  let moveCost :=
    if bool_decide (nid ∈ occupied) && negb (bool_decide (nid = endId))
    then moveCost + halves 20 else moveCost in
  let moveCost :=
    if negb strictMode && reservedHas nid && negb (bool_decide (nid = endId))
    then moveCost + halves 1000 else moveCost in
  let moveCost :=
    if bool_decide (nid ∈ nearCongestion) then moveCost + halves 2 else moveCost in
  moveCost + turnPenalty current nx ny.

(** One round of the [for] loop over the neighbours of [current]. *)
Definition relax (current : AStarNode) (st : SearchState) (n : Z * Z) : SearchState :=
  let '(nx, ny) := n in
  let nid := getCellId nx ny in
  match cellAt currentGrid nid with
  | Some neighborCell =>
      if isTraversable neighborCell then
        if strictMode && reservedHas nid && negb (bool_decide (nid = endId)) then st
        else
          let newG := node_g current + moveCost current nx ny in
          if match visited st !! nid with
             | None => true
             | Some best => newG <? best
             end
          then
            let endNode := parseCellId endId in
            let h := halves (getHeuristic nx ny endNode.1 endNode.2) in
            let neighborNode :=
              {| node_id := nid; node_x := nx; node_y := ny;
                 node_g := newG; node_h := h; node_f := newG + h;
                 node_parent := Some current |} in
            {| openSet := MinHeap.push node_f neighborNode (openSet st);
               visited := <[nid := newG]> (visited st) |}
          else st
      else st
  | None => st
  end.

Definition neighbors (current : AStarNode) : list (Z * Z) :=
  [ (node_x current, node_y current - 1);
    (node_x current, node_y current + 1);
    (node_x current - 1, node_y current);
    (node_x current + 1, node_y current) ].

(** [visited.has(current.id) && visited.get(current.id)! < current.g] *)
Definition isStale (current : AStarNode) (st : SearchState) : bool :=
  match visited st !! node_id current with
  | Some best => best <? node_g current
  | None => false
  end.

(** One round of [while (!openSet.isEmpty())]: either the value returned, or
    the state the next round starts from. *)
Definition searchStep (st : SearchState) : option (list (Z * Z)) + SearchState :=
  if MinHeap.isEmpty (openSet st) then inl None
  else
    match MinHeap.pop node_f (openSet st) with
    | (Some current, rest) =>
        if bool_decide (node_id current = endId) then inl (Some (reconstruct current []))
        else if isStale current st then inr {| openSet := rest; visited := visited st |}
        else inr (fold_left (relax current) (neighbors current)
                            {| openSet := rest; visited := visited st |})
    | (None, _) => inl None
    end.

Fixpoint searchLoop (fuel : nat) (st : SearchState) : run_result (option (list (Z * Z))) :=
  match fuel with
  | O => OutOfFuel
  | S fuel' =>
      match searchStep st with
      | inl r => Done r
      | inr st' => searchLoop fuel' st'
      end
  end.

End Search.

Definition findPathAStar (fuel : nat) (startId endId : Z * Z) (currentGrid : Grid)
    (currentTrains : list Train) (ignoreTrainId : option string)
    (reservedCells : option (gset (Z * Z))) (strictMode : bool)
  : run_result (option (list (Z * Z))) :=
  match cellAt currentGrid startId, cellAt currentGrid endId with
  | Some _, Some _ =>
      let occupied := occupiedCells currentTrains ignoreTrainId in
      let nearCongestion := nearCongestionCells currentTrains ignoreTrainId in
      let startNode := parseCellId startId in
      let endNode := parseCellId endId in
      let startH := halves (getHeuristic startNode.1 startNode.2 endNode.1 endNode.2) in
      let openSet :=
        MinHeap.push node_f
          {| node_id := startId; node_x := startNode.1; node_y := startNode.2;
             node_g := 0; node_h := startH; node_f := startH; node_parent := None |} [] in
      let visited := <[startId := 0]> (∅ : gmap (Z * Z) Z) in
      searchLoop endId currentGrid occupied nearCongestion reservedCells strictMode
                 fuel {| openSet := openSet; visited := visited |}
  | _, _ => Done None
  end.

Definition bindR {A B : Type} (m : run_result A) (k : A → run_result B) : run_result B :=
  match m with
  | OutOfFuel => OutOfFuel
  | Done a => k a
  end.

(** ** [isPathClear] *)

(** The predicate handed to [allTrains.find]. *)
Definition occupies (myTrainId : string) (cellId : Z * Z) (t : Train) : bool :=
  if bool_decide (train_id t = myTrainId) then false
  else if bool_decide (trainCell t = Some cellId) then true
  else if bool_decide (state t = moving) && (currentPathIndex t + 1 <? len (path t))
       then bool_decide (nthZ (path t) (currentPathIndex t + 1) = Some cellId)
       else false.

Definition isPathClear (pathSegment : list (Z * Z)) (myTrainId : string)
    (allTrains : list Train) (reservedCells : gset (Z * Z)) : bool :=
  forallb (λ cellId, negb (bool_decide (cellId ∈ reservedCells)) &&
                     negb (existsb (occupies myTrainId cellId) allTrains))
          pathSegment.

(** ** [dispatchTrain] *)

(** What a call leaves behind: the queued state updates and the dialogs. *)
Inductive Effect : Type :=
| AppendTrain (t : Train)
| PrependHistory (h : HistoryItem)
| Alert (msg : string).

Definition stationNamed (name : string) (c : Cell) : bool :=
  bool_decide (stationName c = Some name).

(** [trainId] and [histId] stand for the identifiers the source draws from
    the clock and the random generator. *)
Definition dispatchTrain (fuel : nat) (grid : Grid) (trainsRef : list Train) (time : Z)
    (trainId histId : string)
    (fromName toName : string) (priority : Z) (dispatchType : DispatchType) (isCyclic : bool)
  : run_result (list Effect) :=
  if bool_decide (fromName = toName) then Done []
  else
    let stationsList :=
      filter (λ c, cell_type c = station) (map snd grid) in
    match find (stationNamed fromName) stationsList, find (stationNamed toName) stationsList with
    | Some from, Some to =>
        bindR (findPathAStar fuel (cell_id from) (cell_id to) grid trainsRef None None false)
          (λ found,
            match found with
            | Some path =>
                let newTrain :=
                  {| train_id := trainId; fromId := cell_id from; toId := cell_id to;
                     path := path; currentPathIndex := 0; progress := 0;
                     state := waiting; priority := priority; train_type := dispatchType;
                     waitingTime := 0; isCyclic := isCyclic; dwellRemaining := 0 |} in
                Done [ AppendTrain newTrain;
                       PrependHistory
                         {| hist_id := histId; hist_time := time; hist_from := fromName;
                            hist_to := toName; hist_priority := priority;
                            hist_type := dispatchType; hist_isCyclic := isCyclic |} ]
            | None => Done []
            end)
    | _, _ => Done []
    end.

(** ** The tick *)

Definition MOVEMENT_SPEED : Q := 15 # 100.
Definition RESERVATION_LOOKAHEAD : Z := 6.

(** The dispatch part of a tick.  [ids k] gives the identifiers of the
    [k]-th call of [dispatchTrain] in the tick. *)
Section TickDispatch.
Context (fuel : nat) (grid : Grid) (trainsRef : list Train) (time : Z).
Context (ids : nat → string * string).

Definition currentTime : Z := time + 1.

Fixpoint dispatchBatch (k : nat) (toDispatch : list BatchItem) : run_result (list Effect) :=
  match toDispatch with
  | [] => Done []
  | item :: rest =>
      bindR (dispatchTrain fuel grid trainsRef time (ids k).1 (ids k).2
               (batch_from item) (batch_to item) (batch_priority item) batch (batch_isCyclic item))
        (λ e, bindR (dispatchBatch (S k) rest) (λ es, Done (e ++ es)))
  end.

(** The [map] over the schedule; the calls of [dispatchTrain] are its side
    effect, the new array its value. *)
Fixpoint dispatchSchedule (k : nat) (currentSched : list ScheduleItem)
  : run_result (list Effect * list ScheduleItem) :=
  match currentSched with
  | [] => Done ([], [])
  | item :: rest =>
      if negb (dispatched item) && (sched_time item <=? currentTime) then
        bindR (dispatchTrain fuel grid trainsRef time (ids k).1 (ids k).2
                 (sched_from item) (sched_to item) (sched_priority item) schedule false)
          (λ e, bindR (dispatchSchedule (S k) rest)
             (λ r, Done (e ++ r.1,
                         {| sched_id := sched_id item; sched_time := sched_time item;
                            sched_from := sched_from item; sched_to := sched_to item;
                            sched_priority := sched_priority item; dispatched := true |}
                         :: r.2)))
      else
        bindR (dispatchSchedule k rest) (λ r, Done (r.1, item :: r.2))
  end.

(** Effects of the dispatch part, the schedule and the batch queue after it. *)
Definition tickDispatch (batchQueue : list BatchItem) (currentSched : list ScheduleItem)
  : run_result (list Effect * list ScheduleItem * list BatchItem) :=
  let toDispatch := filter (λ item, dispatchAt item ≤ currentTime) batchQueue in
  bindR (dispatchBatch 0 toDispatch)
    (λ e1,
      let batchQueue' :=
        if (0 <? len toDispatch) then filter (λ item, dispatchAt item > currentTime) batchQueue
        else batchQueue in
      bindR (dispatchSchedule (length toDispatch) currentSched)
        (λ r, Done (e1 ++ r.1, r.2, batchQueue'))).

End TickDispatch.

(** The train part of a tick. *)

(** [activeTrains.sort((a, b) => b.priority - a.priority)]: descending and
    stable. *)
Fixpoint insertByPriority (t : Train) (l : list Train) : list Train :=
  match l with
  | [] => [t]
  | u :: rest =>
      if priority u <=? priority t then t :: u :: rest
      else u :: insertByPriority t rest
  end.

Definition sortByPriority (l : list Train) : list Train := foldr insertByPriority [] l.

(** The local variables that the callback of [activeTrains.map] rebinds. *)
Record Locals : Type := mkLocals {
  l_currentPathIndex : Z;
  l_progress : Q;
  l_state : TrainState;
  l_path : list (Z * Z);
  l_waitingTime : Z
}.

(** [{ ...train, dwellRemaining }] *)
Definition with_dwellRemaining (train : Train) (d : Z) : Train :=
  {| train_id := train_id train; fromId := fromId train; toId := toId train;
     path := path train; currentPathIndex := currentPathIndex train;
     progress := progress train; state := state train; priority := priority train;
     train_type := train_type train; waitingTime := waitingTime train;
     isCyclic := isCyclic train; dwellRemaining := d |}.

(** [{ ...train, state }] *)
Definition with_state (train : Train) (s : TrainState) : Train :=
  {| train_id := train_id train; fromId := fromId train; toId := toId train;
     path := path train; currentPathIndex := currentPathIndex train;
     progress := progress train; state := s; priority := priority train;
     train_type := train_type train; waitingTime := waitingTime train;
     isCyclic := isCyclic train; dwellRemaining := dwellRemaining train |}.

(** The train that leaves on its return trip. *)
Definition returnTrip (train : Train) (newFrom newTo : Z * Z) (returnPath : list (Z * Z))
  : Train :=
  {| train_id := train_id train; fromId := newFrom; toId := newTo;
     path := returnPath; currentPathIndex := 0;
     progress := 0; state := waiting; priority := priority train;
     train_type := train_type train; waitingTime := 0;
     isCyclic := isCyclic train; dwellRemaining := 0 |}.

(** [{ ...train, state: 'arrived', progress: 0, currentPathIndex, waitingTime: 0 }] *)
Definition arrive (train : Train) (currentPathIndex : Z) : Train :=
  {| train_id := train_id train; fromId := fromId train; toId := toId train;
     path := path train; currentPathIndex := currentPathIndex;
     progress := 0; state := arrived; priority := priority train;
     train_type := train_type train; waitingTime := 0;
     isCyclic := isCyclic train; dwellRemaining := dwellRemaining train |}.

(** [{ ...train, currentPathIndex, progress, state, path, waitingTime }] *)
Definition commit (train : Train) (l : Locals) : Train :=
  {| train_id := train_id train; fromId := fromId train; toId := toId train;
     path := l_path l; currentPathIndex := l_currentPathIndex l;
     progress := l_progress l; state := l_state l; priority := priority train;
     train_type := train_type train; waitingTime := l_waitingTime l;
     isCyclic := isCyclic train; dwellRemaining := dwellRemaining train |}.

Definition addAll (cells : list (Z * Z)) (reservations : gset (Z * Z)) : gset (Z * Z) :=
  fold_left (λ r cid, {[cid]} ∪ r) cells reservations.

(** [path.slice(currentPathIndex + 1, Math.min(path.length, currentPathIndex + RESERVATION_LOOKAHEAD))] *)
Definition lookahead (path : list (Z * Z)) (currentPathIndex : Z) : list (Z * Z) :=
  let segmentEndIdx := Z.min (len path) (currentPathIndex + RESERVATION_LOOKAHEAD) in
  slice (currentPathIndex + 1) segmentEndIdx path.

(** [[...path.slice(0, currentPathIndex + 1), ...reroute.slice(1)]] *)
Definition splice (path : list (Z * Z)) (currentPathIndex : Z) (reroute : list (Z * Z))
  : list (Z * Z) :=
  slice 0 (currentPathIndex + 1) path ++ drop 1 reroute.

Section TickTrains.
Context (fuel : nat) (grid : Grid) (trainsRef : list Train) (simulationSpeed : Q).

(** The block [if (state === 'moving') { ... }] that may turn the train to
    [waiting]. *)
Definition advance (l : Locals) : Locals :=
  match l_state l with
  | moving =>
      let progress := (l_progress l + MOVEMENT_SPEED * simulationSpeed)%Q in
      if Qle_bool 1 progress
      then {| l_currentPathIndex := l_currentPathIndex l + 1; l_progress := 0;
              l_state := waiting; l_path := l_path l; l_waitingTime := 0 |}
      else {| l_currentPathIndex := l_currentPathIndex l; l_progress := progress;
              l_state := moving; l_path := l_path l; l_waitingTime := 0 |}
  | _ => l
  end.

(** A reroute result that passes the test [p && p.length > 0]. *)
Definition usable (p : option (list (Z * Z))) : option (list (Z * Z)) :=
  match p with
  | Some r => if 0 <? len r then Some r else None
  | None => None
  end.

(** The block [if (blocked) { ... }]: the path and the lookahead segment
    after the reroute attempts. *)
Definition reroute (train : Train) (l : Locals) (segmentToReserve : list (Z * Z))
    (globalReservations : gset (Z * Z))
  : run_result (list (Z * Z) * list (Z * Z)) :=
  let path := l_path l in
  let currentPathIndex := l_currentPathIndex l in
  match nthZ path currentPathIndex with
  | None => Done (path, segmentToReserve)
  | Some here =>
      bindR (findPathAStar fuel here (toId train) grid trainsRef (Some (train_id train))
               (Some globalReservations) true)
        (λ strictReroutePath,
          match usable strictReroutePath with
          | Some strictPath =>
              let path := splice path currentPathIndex strictPath in
              Done (path, lookahead path currentPathIndex)
          | None =>
              if Z.rem (l_waitingTime l) 10 =? 0 then
                bindR (findPathAStar fuel here (toId train) grid trainsRef
                         (Some (train_id train)) (Some globalReservations) false)
                  (λ softReroutePath,
                    match usable softReroutePath with
                    | Some softPath =>
                        Done (splice path currentPathIndex softPath, segmentToReserve)
                    | None => Done (path, segmentToReserve)
                    end)
              else Done (path, segmentToReserve)
          end)
  end.

(** The block [if (state === 'waiting') { ... }]. *)
Definition waitingBranch (train : Train) (currentCellId : Z * Z) (l : Locals)
    (globalReservations : gset (Z * Z)) : run_result (Train * gset (Z * Z)) :=
  let currentPathIndex := l_currentPathIndex l in
  if len (l_path l) - 1 <=? currentPathIndex
  then Done (arrive train currentPathIndex, globalReservations)
  else
    let segmentToReserve := lookahead (l_path l) currentPathIndex in
    let blocked :=
      negb (isPathClear segmentToReserve (train_id train) trainsRef globalReservations) in
    bindR (if blocked then reroute train l segmentToReserve globalReservations
           else Done (l_path l, segmentToReserve))
      (λ '(path, segmentToReserve),
        if isPathClear segmentToReserve (train_id train) trainsRef globalReservations
        then Done (commit train {| l_currentPathIndex := currentPathIndex;
                                   l_progress := l_progress l; l_state := moving;
                                   l_path := path; l_waitingTime := 0 |},
                   addAll segmentToReserve globalReservations)
        else Done (commit train {| l_currentPathIndex := currentPathIndex;
                                   l_progress := l_progress l; l_state := waiting;
                                   l_path := path; l_waitingTime := l_waitingTime l + 1 |},
                   {[currentCellId]} ∪ globalReservations)).

(** The callback of [activeTrains.map], with the reservation set it
    mutates passed in and out. *)
Definition updateTrain (train : Train) (globalReservations : gset (Z * Z))
  : run_result (Train * gset (Z * Z)) :=
  match state train with
  | dwelling =>
      if 0 <? dwellRemaining train
      then Done (with_dwellRemaining train (dwellRemaining train - 1), globalReservations)
      else
        let newFrom := toId train in
        let newTo := fromId train in
        bindR (findPathAStar fuel newFrom newTo grid trainsRef (Some (train_id train)) None false)
          (λ returnPath,
            match usable returnPath with
            | Some returnPath => Done (returnTrip train newFrom newTo returnPath, globalReservations)
            | None => Done (with_dwellRemaining train 10, globalReservations)
            end)
  | arrived =>
      if isCyclic train
      then Done (with_dwellRemaining (with_state train dwelling) 30, globalReservations)
      else Done (train, globalReservations)
  | _ =>
      match nthZ (path train) (currentPathIndex train) with
      | None => Done (with_state train arrived, globalReservations)
      | Some currentCellId =>
          let l := advance {| l_currentPathIndex := currentPathIndex train;
                              l_progress := progress train; l_state := state train;
                              l_path := path train; l_waitingTime := waitingTime train |} in
          match l_state l with
          | waiting => waitingBranch train currentCellId l globalReservations
          | moving =>
              let segmentToKeep := lookahead (l_path l) (l_currentPathIndex l) in
              Done (commit train l, addAll segmentToKeep globalReservations)
          | _ => Done (commit train l, globalReservations)
          end
      end
  end.

Fixpoint updateAll (activeTrains : list Train) (globalReservations : gset (Z * Z))
  : run_result (list Train) :=
  match activeTrains with
  | [] => Done []
  | train :: rest =>
      bindR (updateTrain train globalReservations)
        (λ '(train', globalReservations'),
          bindR (updateAll rest globalReservations') (λ rest', Done (train' :: rest')))
  end.

(** [t.state !== 'arrived' || t.isCyclic] *)
Definition keepsRunning (t : Train) : bool :=
  negb (bool_decide (state t = arrived)) || isCyclic t.

(** The test that decides [setGlobalDeadlockWarning]. *)
Definition deadlockWarning (runningTrains : list Train) : bool :=
  (1 <? len runningTrains) &&
  forallb (λ t, bool_decide (state t = waiting) && (20 <? waitingTime t)) runningTrains.

(** The new [trains] state and the deadlock flag a tick sets. *)
Definition tickTrains : run_result (list Train * bool) :=
  bindR (updateAll (sortByPriority trainsRef) ∅)
    (λ nextTrainsState,
      let runningTrains := List.filter keepsRunning nextTrainsState in
      Done (runningTrains, deadlockWarning runningTrains)).

End TickTrains.

(** The two pieces of component state the train part of a tick writes, by
    [setTrains(runningTrains)] and [setGlobalDeadlockWarning(...)].  The
    tick reads [trainsRef.current], the [trains] of the last render. *)
Record SimState : Type := mkSimState {
  trains : list Train;
  globalDeadlockWarning : bool
}.

Definition tickState (fuel : nat) (grid : Grid) (simulationSpeed : Q) (s : SimState)
  : run_result SimState :=
  bindR (tickTrains fuel grid (trains s) simulationSpeed)
    (λ '(runningTrains, warning),
      Done {| trains := runningTrains; globalDeadlockWarning := warning |}).

(** ** The array-sorting queue (class [PriorityQueueLegacy]) *)

Module PriorityQueueLegacy.
Section Queue.
Context {T : Type} (f : T → Z).

(** [items.sort((a, b) => a.f - b.f)]: ascending in [f] and stable, so an
    item stays behind the items of the same [f] that precede it. *)
Fixpoint insertByF (x : T) (l : list T) : list T :=
  match l with
  | [] => [x]
  | y :: rest => if f x <=? f y then x :: y :: rest else y :: insertByF x rest
  end.

Definition sortByF (l : list T) : list T := foldr insertByF [] l.

Definition push (item : T) (items : list T) : list T := sortByF (items ++ [item]).

(** [items.shift()] *)
Definition pop (items : list T) : option T * list T :=
  match items with
  | [] => (None, [])
  | x :: rest => (Some x, rest)
  end.

Definition isEmpty (items : list T) : bool := (length items =? 0)%nat.

Definition apply_op (items : list T) (o : MinHeap.op) : list T :=
  match o with
  | MinHeap.Push item => push item items
  | MinHeap.Pop => snd (pop items)
  end.

Definition run (ops : list MinHeap.op) : list T := fold_left apply_op ops [].

End Queue.
End PriorityQueueLegacy.

(** A run of the calls [ops] against a queue that is given by its [push] and
    its [pop], from the contents [q]: what the calls of [pop] return, in
    order, and the contents afterwards.  It is the means to compare the two
    queue classes call by call. *)
Fixpoint serve {T : Type} (push : T → list T → list T) (pop : list T → option T * list T)
    (ops : list (MinHeap.op (T:=T))) (q : list T) : list (option T) * list T :=
  match ops with
  | [] => ([], q)
  | MinHeap.Push item :: ops' => serve push pop ops' (push item q)
  | MinHeap.Pop :: ops' =>
      let '(r, q') := pop q in
      let '(rs, q'') := serve push pop ops' q' in
      (r :: rs, q'')
  end.

(** Calling [pop] until [isEmpty] answers [true], at most [fuel] times: the
    items in the order they leave the heap. *)
Fixpoint popAll {T : Type} (f : T → Z) (fuel : nat) (heap : list T) : list T :=
  match fuel with
  | O => []
  | S fuel' =>
      if MinHeap.isEmpty heap then []
      else match MinHeap.pop f heap with
           | (Some x, rest) => x :: popAll f fuel' rest
           | (None, _) => []
           end
  end.

(** ** Cell keys as strings

    The embedding above lets the pair a key is built from stand for the
    key.  Here are the two helper functions on the strings themselves. *)

Module CellKey.

(** What a template literal prints for a number that is an integer (below
    [10^21] in absolute value, where the exponent notation begins). *)
Definition numeral (z : Z) : string := NilZero.string_of_int (Z.to_int z).

(** [`${x}-${y}`] *)
Definition getCellId (x y : Z) : string := numeral x +:+ "-" +:+ numeral y.

(** [id.split('-')] *)
Fixpoint split_dash (s : string) : list string :=
  match s with
  | EmptyString => [EmptyString]
  | String c rest =>
      if Ascii.eqb c "-"%char then EmptyString :: split_dash rest
      else match split_dash rest with
           | piece :: pieces => String c piece :: pieces
           | [] => [String c EmptyString]
           end
  end.

(** A coordinate that [parseCellId] returns. *)
Inductive Coordinate : Type :=
| digits (z : Z)   (* the number written by a string of decimal digits *)
| other            (* [Number] of a string that is not made of digits *)
| missing.         (* [undefined]: the array has no such element *)

(** [Number(piece)] for a piece made of decimal digits, where it is the
    number they write, and 0 for the empty piece.  The values of the other
    numerals that [Number] reads (signs, blanks, exponents, hexadecimal) and
    [NaN] are not told apart: no key built by [getCellId] splits into such a
    piece. *)
Definition Number (piece : string) : Coordinate :=
  match NilEmpty.uint_of_string piece with
  | Some d => digits (Z.of_uint d)
  | None => other
  end.

(** [parseCellId]; [None] is [undefined]. *)
Definition parseCellId (id : option string) : Coordinate * Coordinate :=
  match id with
  | None | Some EmptyString => (digits 0, digits 0)
  | Some id =>
      let pieces := map Number (split_dash id) in
      (default missing (pieces !! 0%nat), default missing (pieces !! 1%nat))
  end.

End CellKey.

(** ** Editing the grid *)

(** [{ ...prev, [id]: cell }] and [next[id] = cell]: the value of a key the
    object has is replaced where it stands, a new key goes last. *)
Fixpoint gridSet (grid : Grid) (id : Z * Z) (cell : Cell) : Grid :=
  match grid with
  | [] => [(id, cell)]
  | (k, c) :: rest =>
      if decide (k = id) then (k, cell) :: rest else (k, c) :: gridSet rest id cell
  end.

(** [{ ...cell, type, stationName }] *)
Definition retype (cell : Cell) (type : CellType) (name : option string) : Cell :=
  {| cell_x := cell_x cell; cell_y := cell_y cell; cell_type := type;
     stationName := name; cell_id := cell_id cell |}.

(** [clearTracks]: the callback of [forEach] runs over the values the copy
    has when the loop starts. *)
Definition clearTracks (prev : Grid) : Grid :=
  fold_left (λ next cell,
               if decide (cell_type cell = track)
               then gridSet next (cell_id cell) (retype cell empty_cell (stationName cell))
               else next)
            (map snd prev) prev.

Inductive EditAction : Type := act_track | act_station | act_erase.

(** The cell type an action asks for. *)
Definition targetType (action : EditAction) : CellType :=
  match action with
  | act_track => track
  | act_station => station
  | act_erase => empty_cell
  end.

(** The name [`站${x}-${y}`] of a new station. *)
Definition stationLabel (x y : Z) : string := "站" +:+ CellKey.getCellId x y.

(** The callback that [modifyCell] hands to [setGrid]. *)
Definition modifyCell (x y : Z) (action : EditAction) (prev : Grid) : Grid :=
  let id := getCellId x y in
  match cellAt prev id with
  | None => prev
  | Some cell =>
      match action with
      | act_erase =>
          if decide (cell_type cell = empty_cell) then prev
          else gridSet prev id (retype cell empty_cell None)
      | act_track =>
          if decide (cell_type cell = track) then prev
          else gridSet prev id (retype cell track None)
      | act_station =>
          if decide (cell_type cell = station) then prev
          else gridSet prev id (retype cell station (Some (stationLabel x y)))
      end
  end.

(** *** The mouse handlers *)

Inductive EditMode : Type := mode_track | mode_station.

(** The value of the ref [dragAction] when it is not [null]. *)
Inductive DragAction : Type := drag_track | drag_erase.

Definition dragEdit (a : DragAction) : EditAction :=
  match a with
  | drag_track => act_track
  | drag_erase => act_erase
  end.

(** The refs [isMouseDown] and [dragAction], and the grid. *)
Record Editor : Type := mkEditor {
  isMouseDown : bool;
  dragAction : option DragAction;
  ed_grid : Grid
}.

(** [button] is [e.button]. *)
Definition handleCellMouseDown (isRunning : bool) (editMode : EditMode) (x y : Z) (button : Z)
    (ed : Editor) : Editor :=
  if isRunning then ed
  else
    let isRight := button =? 2 in
    if isRight then
      {| isMouseDown := true; dragAction := Some drag_erase;
         ed_grid := modifyCell x y act_erase (ed_grid ed) |}
    else
      match editMode with
      | mode_track =>
          {| isMouseDown := true; dragAction := Some drag_track;
             ed_grid := modifyCell x y act_track (ed_grid ed) |}
      | mode_station =>
          {| isMouseDown := true; dragAction := None;
             ed_grid := modifyCell x y act_station (ed_grid ed) |}
      end.

Definition handleCellMouseEnter (isRunning : bool) (x y : Z) (ed : Editor) : Editor :=
  if isRunning || negb (isMouseDown ed) then ed
  else
    match dragAction ed with
    | None => ed
    | Some a =>
        {| isMouseDown := isMouseDown ed; dragAction := dragAction ed;
           ed_grid := modifyCell x y (dragEdit a) (ed_grid ed) |}
    end.

Definition handleGlobalMouseUp (ed : Editor) : Editor :=
  {| isMouseDown := false; dragAction := None; ed_grid := ed_grid ed |}.

(** ** The initial map *)

Definition GRID_W : Z := 60.
Definition GRID_H : Z := 30.

(** The two nested [for] loops that fill [initialGrid]. *)
Definition blankGrid (W H : Z) : Grid :=
  flat_map (λ y, map (λ x, (getCellId x y, mkCell x y track None (getCellId x y)))
                     (seqZ 0 W))
           (seqZ 0 H).

(** [addStation].  Its eight calls name cells of the board; for a key the
    object does not have, the source would store a cell without
    coordinates, which is not a [Cell], and the grid is left as it is. *)
Definition addStation (x y : Z) (name : string) (grid : Grid) : Grid :=
  let id := getCellId x y in
  match cellAt grid id with
  | Some cell => gridSet grid id (retype cell station (Some name))
  | None => grid
  end.

Definition initialGrid : Grid :=
  addStation 45 20 "东南站"
    (addStation 15 20 "西南站"
      (addStation 45 10 "东北站"
        (addStation 15 10 "西北站"
          (addStation 30 25 "南站"
            (addStation 30 5 "北站"
              (addStation 55 15 "东站"
                (addStation 5 15 "西站" (blankGrid GRID_W GRID_H)))))))).

(** ** The route preview and the dispatch button *)

(** The effect that fills [previewPath]. *)
Definition previewPath (fuel : nat) (grid : Grid) (trains : list Train)
    (dispatchFrom dispatchTo : string) : run_result (list (Z * Z)) :=
  if bool_decide (dispatchFrom = "") || bool_decide (dispatchTo = "")
     || bool_decide (dispatchFrom = dispatchTo)
  then Done []
  else
    let stations := filter (λ c, cell_type c = station) (map snd grid) in
    match find (stationNamed dispatchFrom) stations, find (stationNamed dispatchTo) stations with
    | Some s1, Some s2 =>
        bindR (findPathAStar fuel (cell_id s1) (cell_id s2) grid trains None None false)
          (λ path, Done (default [] path))
    | _, _ => Done []
    end.

(** The [disabled] attribute of the dispatch button. *)
Definition dispatchDisabled (previewPath : list (Z * Z)) (dispatchFrom dispatchTo : string)
  : bool :=
  (len previewPath =? 0) || bool_decide (dispatchFrom = dispatchTo).

(** [handleManualDispatch] *)
Definition handleManualDispatch (fuel : nat) (grid : Grid) (trainsRef : list Train) (time : Z)
    (trainId histId : string) (dispatchFrom dispatchTo : string) (dispatchPriority : Z)
    (dispatchIsCyclic : bool) : run_result (list Effect) :=
  dispatchTrain fuel grid trainsRef time trainId histId
                dispatchFrom dispatchTo dispatchPriority manual dispatchIsCyclic.

(** ** The history panel *)

(** The key [`${item.from}->${item.to}`]. *)
Definition routeKey (item : HistoryItem) : string :=
  hist_from item +:+ "->" +:+ hist_to item.

(** The callback of [history.filter], with the set [seen] it fills. *)
Fixpoint uniqueHistory_from (historyFilterFrom historyFilterTo : string)
    (seen : gset string) (history : list HistoryItem) : list HistoryItem :=
  match history with
  | [] => []
  | item :: rest =>
      if negb (bool_decide (historyFilterFrom = "")) &&
         negb (bool_decide (hist_from item = historyFilterFrom))
      then uniqueHistory_from historyFilterFrom historyFilterTo seen rest
      else if negb (bool_decide (historyFilterTo = "")) &&
              negb (bool_decide (hist_to item = historyFilterTo))
      then uniqueHistory_from historyFilterFrom historyFilterTo seen rest
      else
        let key := routeKey item in
        if bool_decide (key ∈ seen)
        then uniqueHistory_from historyFilterFrom historyFilterTo seen rest
        else item :: uniqueHistory_from historyFilterFrom historyFilterTo ({[key]} ∪ seen) rest
  end.

Definition uniqueHistory (history : list HistoryItem)
    (historyFilterFrom historyFilterTo : string) : list HistoryItem :=
  uniqueHistory_from historyFilterFrom historyFilterTo ∅ history.

(** ** The search of the benchmark ([findPathAStarLegacy])

    Its costs are whole numbers, so they are not counted in halves. *)

Section LegacySearch.
Context (endId : Z * Z) (currentGrid : Grid).

(** One round of the [for] loop over the neighbours of [current]. *)
Definition relaxLegacy (current : AStarNode) (st : SearchState) (n : Z * Z) : SearchState :=
  let '(nx, ny) := n in
  let nid := getCellId nx ny in
  match cellAt currentGrid nid with
  | Some neighborCell =>
      if isTraversable neighborCell then
        let newG := node_g current + 1 in
        if match visited st !! nid with
           | None => true
           | Some best => newG <? best
           end
        then
          let endNode := parseCellId endId in
          let h := getHeuristic nx ny endNode.1 endNode.2 in
          {| openSet :=
               PriorityQueueLegacy.push node_f
                 {| node_id := nid; node_x := nx; node_y := ny;
                    node_g := newG; node_h := h; node_f := newG + h;
                    node_parent := Some current |} (openSet st);
             visited := <[nid := newG]> (visited st) |}
        else st
      else st
  | None => st
  end.

(** One round of [while (!openSet.isEmpty())]. *)
Definition legacyStep (st : SearchState) : option (list (Z * Z)) + SearchState :=
  if PriorityQueueLegacy.isEmpty (openSet st) then inl None
  else
    match PriorityQueueLegacy.pop (openSet st) with
    | (Some current, rest) =>
        if bool_decide (node_id current = endId) then inl (Some (reconstruct current []))
        else inr (fold_left (relaxLegacy current) (neighbors current)
                            {| openSet := rest; visited := visited st |})
    | (None, _) => inl None
    end.

Fixpoint legacyLoop (fuel : nat) (st : SearchState) : run_result (option (list (Z * Z))) :=
  match fuel with
  | O => OutOfFuel
  | S fuel' =>
      match legacyStep st with
      | inl r => Done r
      | inr st' => legacyLoop fuel' st'
      end
  end.

End LegacySearch.

(** [currentTrains] is a parameter the body does not read. *)
Definition findPathAStarLegacy (fuel : nat) (startId endId : Z * Z) (currentGrid : Grid)
    (currentTrains : list Train) : run_result (option (list (Z * Z))) :=
  match cellAt currentGrid startId, cellAt currentGrid endId with
  | Some _, Some _ =>
      let startNode := parseCellId startId in
      let endNode := parseCellId endId in
      let startH := getHeuristic startNode.1 startNode.2 endNode.1 endNode.2 in
      let openSet :=
        PriorityQueueLegacy.push node_f
          {| node_id := startId; node_x := startNode.1; node_y := startNode.2;
             node_g := 0; node_h := startH; node_f := startH; node_parent := None |} [] in
      let visited := <[startId := 0]> (∅ : gmap (Z * Z) Z) in
      legacyLoop endId currentGrid fuel {| openSet := openSet; visited := visited |}
  | _, _ => Done None
  end.

(** * Part II: properties

    ** The binary heap keeps its order and gives back a minimum *)

Module MinHeapFacts.
Import MinHeap.
Section HeapFacts.
Context {T : Type} (f : T → Z).

Local Abbreviation swap := (@MinHeap.swap T).
Local Abbreviation f_gt := (MinHeap.f_gt f).
Local Abbreviation f_lt := (MinHeap.f_lt f).
Local Abbreviation siftUp_loop := (MinHeap.siftUp_loop f).
Local Abbreviation siftUp := (MinHeap.siftUp f).
Local Abbreviation minChild := (MinHeap.minChild f).
Local Abbreviation siftDown_rec := (MinHeap.siftDown_rec f).
Local Abbreviation siftDown := (MinHeap.siftDown f).
Local Abbreviation push := (MinHeap.push f).
Local Abbreviation pop := (MinHeap.pop f).
Local Abbreviation heap_ordered := (MinHeap.heap_ordered f).
Local Abbreviation heap_par := (MinHeap.heap_par f).
Local Abbreviation apply_op := (MinHeap.apply_op f).
Local Abbreviation run := (MinHeap.run f).

(** *** Index arithmetic *)

Lemma parent_cases (j : nat) :
  (0 < j)%nat → j = leftChild (parent j) ∨ j = rightChild (parent j).
Proof.
  unfold parent, leftChild, rightChild. intros Hj.
  pose proof (Nat.div_mod_eq (j - 1) 2).
  pose proof (Nat.mod_upper_bound (j - 1) 2). lia.
Qed.

Lemma parent_lt (j : nat) : (0 < j)%nat → (parent j < j)%nat.
Proof. intros Hj. destruct (parent_cases j Hj) as [H|H]; unfold leftChild, rightChild in H; lia. Qed.

Lemma parent_leftChild (i : nat) : parent (leftChild i) = i.
Proof.
  unfold parent, leftChild.
  pose proof (Nat.div_mod_eq (2 * i + 1 - 1) 2).
  pose proof (Nat.mod_upper_bound (2 * i + 1 - 1) 2). lia.
Qed.

Lemma parent_rightChild (i : nat) : parent (rightChild i) = i.
Proof.
  unfold parent, rightChild.
  pose proof (Nat.div_mod_eq (2 * i + 2 - 1) 2).
  pose proof (Nat.mod_upper_bound (2 * i + 2 - 1) 2). lia.
Qed.

Lemma parent_eq_cases (c i : nat) :
  (0 < c)%nat → parent c = i → c = leftChild i ∨ c = rightChild i.
Proof. intros Hc <-. by apply parent_cases. Qed.

Lemma heap_ordered_par (heap : list T) : heap_ordered heap ↔ heap_par heap.
Proof.
  split.
  - intros H j x y Hj Hx Hy.
    destruct (parent_cases j Hj) as [E|E]; apply (H (parent j) y x Hy); rewrite <- E; auto.
  - intros H i p c Hp [Hc|Hc].
    + apply (H (leftChild i) c p); rewrite ?parent_leftChild; auto. unfold leftChild; lia.
    + apply (H (rightChild i) c p); rewrite ?parent_rightChild; auto. unfold rightChild; lia.
Qed.

(** *** [swap] *)

Lemma swap_length i j heap : length (swap i j heap) = length heap.
Proof.
  unfold swap. destruct (heap !! i), (heap !! j); auto.
  by rewrite !length_insert.
Qed.

Lemma swap_lookup i j heap a b k :
  heap !! i = Some a → heap !! j = Some b →
  swap i j heap !! k =
    if decide (k = j) then Some a else if decide (k = i) then Some b else heap !! k.
Proof.
  intros Ha Hb. unfold swap. rewrite Ha, Hb.
  pose proof (lookup_lt_Some _ _ _ Ha). pose proof (lookup_lt_Some _ _ _ Hb).
  destruct (decide (k = j)) as [->|Hkj].
  - rewrite list_lookup_insert_eq; auto. by rewrite length_insert.
  - rewrite list_lookup_insert_ne by auto.
    destruct (decide (k = i)) as [->|Hki].
    + by rewrite list_lookup_insert_eq.
    + by rewrite list_lookup_insert_ne.
Qed.

Lemma insert_cons_perm (l : list T) i x y :
  l !! i = Some x → y :: l ≡ₚ x :: <[i:=y]> l.
Proof.
  revert i. induction l as [|z l IH]; intros [|i] Hl; simpl in *; try done.
  - injection Hl as ->. apply perm_swap.
  - rewrite (perm_swap z y l), (IH i Hl). apply perm_swap.
Qed.

Lemma swap_perm i j heap : swap i j heap ≡ₚ heap.
Proof.
  unfold swap. destruct (heap !! i) as [a|] eqn:Ha; [|done].
  destruct (heap !! j) as [b|] eqn:Hb; [|done].
  destruct (decide (i = j)) as [->|Hij].
  - assert (a = b) as -> by congruence.
    rewrite list_insert_insert_eq. by rewrite list_insert_id.
  - apply (Permutation_cons_inv (a:=b)).
    assert (<[i:=b]> heap !! j = Some b) as Hj by by rewrite list_lookup_insert_ne.
    rewrite (insert_cons_perm heap i a b Ha).
    by rewrite <- (insert_cons_perm _ j b a Hj).
Qed.

(** *** Sifting up *)

(** The order may only fail on the edge above index [i]; the children of
    [i] already respect the parent of [i]. *)
Definition up_ok (heap : list T) (i : nat) : Prop :=
  (∀ j x y, (0 < j)%nat → j ≠ i →
     heap !! j = Some x → heap !! parent j = Some y → f y ≤ f x) ∧
  (∀ c x y, (0 < i)%nat → (0 < c)%nat → parent c = i →
     heap !! c = Some x → heap !! parent i = Some y → f y ≤ f x).

Lemma f_gt_spec heap a b x y :
  heap !! a = Some x → heap !! b = Some y → f_gt heap a b = bool_decide (f y < f x).
Proof.
  intros Ha Hb. unfold f_gt. rewrite Ha, Hb.
  destruct (Z.ltb_spec (f y) (f x)); symmetry;
    [apply bool_decide_eq_true_2 | apply bool_decide_eq_false_2]; lia.
Qed.

Lemma siftUp_loop_length fuel i heap : length (siftUp_loop fuel i heap) = length heap.
Proof.
  revert i heap. induction fuel as [|fuel IH]; intros i heap; simpl; [done|].
  destruct (_ && _); [|done]. by rewrite IH, swap_length.
Qed.

Lemma siftUp_loop_perm fuel i heap : siftUp_loop fuel i heap ≡ₚ heap.
Proof.
  revert i heap. induction fuel as [|fuel IH]; intros i heap; simpl; [done|].
  destruct (_ && _); [|done]. by rewrite IH, swap_perm.
Qed.

Lemma up_ok_root heap : up_ok heap 0 → heap_par heap.
Proof. intros [H1 _] j x y Hj. apply H1; lia. Qed.

(** Collect every instance of the order hypotheses [H1] (an edge) and
    [H2] (a grandparent) that the lookups in the context name. *)
Ltac learn_le H j x y :=
  lazymatch goal with
  | _ : f y ≤ f x |- _ => fail
  | _ => assert (f y ≤ f x)
           by (apply (H j x y); first [assumption | lia | congruence])
  end.

Ltac heap_sat H1 H2 :=
  repeat match goal with
  | Hx : ?h !! ?j = Some ?x, Hy : ?h !! _ = Some ?y |- _ =>
      first [learn_le H1 j x y | learn_le H2 j x y]
  end.

Lemma siftUp_loop_ok fuel i heap :
  (i ≤ fuel)%nat → (i < length heap)%nat → up_ok heap i →
  heap_par (siftUp_loop fuel i heap).
Proof.
  revert i heap. induction fuel as [|fuel IH]; intros i heap Hfuel Hlen Hok; simpl.
  { assert (i = 0%nat) as -> by lia. by apply up_ok_root. }
  destruct (Nat.ltb_spec 0 i) as [Hi|Hi]; simpl.
  2:{ assert (i = 0%nat) as -> by lia. by apply up_ok_root. }
  pose proof (parent_lt i Hi) as Hp.
  destruct (lookup_lt_is_Some_2 heap i Hlen) as [xi Hxi].
  destruct (lookup_lt_is_Some_2 heap (parent i) ltac:(lia)) as [xp Hxp].
  rewrite (f_gt_spec _ _ _ _ _ Hxp Hxi).
  destruct Hok as [Hok1 Hok2].
  case_bool_decide as Hcmp.
  - apply IH; [lia | rewrite swap_length; lia |].
    split.
    + intros j x y Hj Hjp.
      pose proof (parent_lt j Hj).
      rewrite !(swap_lookup _ _ _ _ _ _ Hxp Hxi).
      repeat case_decide; subst; intros Hx Hy; simplify_eq; try lia;
        heap_sat Hok1 Hok2; lia.
    + intros c x y Hpi Hc Hcp.
      pose proof (parent_lt _ Hpi) as Hpp. pose proof (parent_lt c Hc).
      rewrite !(swap_lookup _ _ _ _ _ _ Hxp Hxi).
      repeat case_decide; subst; intros Hx Hy; simplify_eq; try lia;
        heap_sat Hok1 Hok2; lia.
  - intros j x y Hj Hx Hy.
    destruct (decide (j = i)) as [->|Hji]; [simplify_eq; lia|].
    by apply (Hok1 j x y).
Qed.

Lemma up_ok_snoc heap item :
  heap_par heap → up_ok (heap ++ [item]) (length heap).
Proof.
  intros H. split.
  - intros j x y Hj Hne Hx Hy.
    assert (j < length heap)%nat as Hlt.
    { apply lookup_lt_Some in Hx. rewrite length_app in Hx. simpl in Hx. lia. }
    pose proof (parent_lt j Hj).
    rewrite lookup_app_l in Hx by done. rewrite lookup_app_l in Hy by lia.
    by apply (H j x y).
  - intros c x y _ Hc Hcp Hx _.
    apply lookup_lt_Some in Hx. rewrite length_app in Hx. simpl in Hx.
    pose proof (parent_lt c Hc). lia.
Qed.

Lemma push_length item heap : length (push item heap) = S (length heap).
Proof. unfold push, siftUp. rewrite siftUp_loop_length, length_app. simpl. lia. Qed.

Lemma push_perm item heap : push item heap ≡ₚ item :: heap.
Proof.
  unfold push, siftUp. rewrite siftUp_loop_perm.
  by rewrite Permutation_app_comm.
Qed.

Lemma push_heap_par item heap : heap_par heap → heap_par (push item heap).
Proof.
  intros H. unfold push, siftUp. apply siftUp_loop_ok; [done| |by apply up_ok_snoc].
  rewrite length_app. simpl. lia.
Qed.

(** *** Sifting down *)

(** The order may only fail on the edges below index [i]; the children of
    [i] already respect the parent of [i]. *)
Definition down_ok (heap : list T) (i : nat) : Prop :=
  (∀ j x y, (0 < j)%nat → parent j ≠ i →
     heap !! j = Some x → heap !! parent j = Some y → f y ≤ f x) ∧
  (∀ c x y, (0 < i)%nat → (0 < c)%nat → parent c = i →
     heap !! c = Some x → heap !! parent i = Some y → f y ≤ f x).

Lemma minChild_spec i heap :
  (minChild i heap = i ∨
   ((minChild i heap = leftChild i ∨ minChild i heap = rightChild i) ∧
    (minChild i heap < length heap)%nat)) ∧
  ∀ xm, heap !! minChild i heap = Some xm →
    (∀ c xc, c = i ∨ c = leftChild i ∨ c = rightChild i →
       heap !! c = Some xc → f xm ≤ f xc) ∧
    (minChild i heap ≠ i → ∀ xi, heap !! i = Some xi → f xm < f xi).
Proof.
  unfold minChild, f_lt.
  assert (i < leftChild i < rightChild i)%nat as Hidx by (unfold leftChild, rightChild; lia).
  set (L := leftChild i) in *. set (R := rightChild i) in *.
  destruct (Nat.ltb_spec L (length heap)) as [Hl|Hl]; simpl.
  - destruct (lookup_lt_is_Some_2 heap L Hl) as [xl Hxl].
    destruct (lookup_lt_is_Some_2 heap i ltac:(lia)) as [xi Hxi].
    rewrite (f_gt_spec heap i L xi xl Hxi Hxl).
    case_bool_decide as H1;
      (destruct (Nat.ltb_spec R (length heap)) as [Hr|Hr]; simpl;
       [destruct (lookup_lt_is_Some_2 heap R Hr) as [xr Hxr];
        first [rewrite (f_gt_spec heap L R xl xr Hxl Hxr)
              |rewrite (f_gt_spec heap i R xi xr Hxi Hxr)];
        case_bool_decide as H2|]);
      (split; [auto|]); intros xm Hxm; simplify_eq;
      (split; [intros c xc [-> | [-> | ->]] Hxc; simplify_eq; try lia;
               apply lookup_lt_Some in Hxc; lia
              |intros Hne xi' Hxi'; simplify_eq; lia]).
  - rewrite (proj2 (Nat.ltb_ge R (length heap))) by lia. simpl.
    split; [auto|]. intros xm Hxm. split; [|done].
    intros c xc [-> | [-> | ->]] Hxc; simplify_eq; try lia;
      apply lookup_lt_Some in Hxc; lia.
Qed.

Lemma minChild_cases i heap :
  minChild i heap = i ∨
  ((minChild i heap = leftChild i ∨ minChild i heap = rightChild i) ∧
   (minChild i heap < length heap)%nat).
Proof. apply minChild_spec. Qed.

Lemma minChild_least i heap c xc xm :
  c = i ∨ c = leftChild i ∨ c = rightChild i →
  heap !! c = Some xc → heap !! minChild i heap = Some xm → f xm ≤ f xc.
Proof.
  intros Hc Hxc Hxm.
  destruct (proj2 (minChild_spec i heap) xm Hxm) as [H _]. by apply (H c).
Qed.

Lemma minChild_strict i heap xi xm :
  minChild i heap ≠ i →
  heap !! i = Some xi → heap !! minChild i heap = Some xm → f xm < f xi.
Proof.
  intros Hne Hxi Hxm.
  destruct (proj2 (minChild_spec i heap) xm Hxm) as [_ H]. by apply H.
Qed.

Lemma siftDown_rec_length fuel i heap : length (siftDown_rec fuel i heap) = length heap.
Proof.
  revert i heap. induction fuel as [|fuel IH]; intros i heap; simpl; [done|].
  destruct (negb _); [|done]. by rewrite IH, swap_length.
Qed.

Lemma siftDown_rec_perm fuel i heap : siftDown_rec fuel i heap ≡ₚ heap.
Proof.
  revert i heap. induction fuel as [|fuel IH]; intros i heap; simpl; [done|].
  destruct (negb _); [|done]. by rewrite IH, swap_perm.
Qed.

Lemma down_ok_leaf heap i : (length heap ≤ i)%nat → down_ok heap i → heap_par heap.
Proof.
  intros Hlen [H1 _] j x y Hj Hx Hy.
  destruct (decide (parent j = i)) as [E|E]; [|by apply (H1 j x y)].
  apply lookup_lt_Some in Hx. pose proof (parent_lt j Hj). lia.
Qed.

Lemma siftDown_rec_ok fuel i heap :
  (length heap ≤ fuel + i)%nat → down_ok heap i →
  heap_par (siftDown_rec fuel i heap).
Proof.
  revert i heap. induction fuel as [|fuel IH]; intros i heap Hfuel Hok; simpl.
  { apply (down_ok_leaf heap i); [lia|done]. }
  destruct (Nat.eqb_spec i (minChild i heap)) as [Hm|Hm]; simpl.
  - destruct Hok as [Hok1 _]. intros j x y Hj Hx Hy.
    destruct (decide (parent j = i)) as [E|E]; [|by apply (Hok1 j x y)].
    apply (minChild_least i heap j x y).
    + right. by apply parent_eq_cases.
    + done.
    + congruence.
  - destruct (minChild_cases i heap) as [?|[Hcase Hlt]]; [congruence|].
    set (m := minChild i heap) in *.
    assert (i < m)%nat as Him by (unfold leftChild, rightChild in Hcase; lia).
    assert (parent m = i) as Hpm
      by (destruct Hcase as [E|E]; rewrite E; [apply parent_leftChild|apply parent_rightChild]).
    destruct (lookup_lt_is_Some_2 heap m Hlt) as [xm Hxm].
    destruct (lookup_lt_is_Some_2 heap i ltac:(lia)) as [xi Hxi].
    assert (f xm < f xi) as Hcmp by (apply (minChild_strict i heap); auto).
    assert (∀ c xc, (0 < c)%nat → parent c = i → heap !! c = Some xc → f xm ≤ f xc) as Hmin.
    { intros c xc Hc Hpc Hxc. apply (minChild_least i heap c xc xm); auto.
      right. by apply parent_eq_cases. }
    destruct Hok as [Hok1 Hok2]. clearbody m.
    apply IH; [rewrite swap_length; lia|].
    split.
    + intros j x y Hj Hjp.
      pose proof (parent_lt j Hj).
      rewrite !(swap_lookup _ _ _ _ _ _ Hxi Hxm).
      repeat case_decide; subst; intros Hx Hy; simplify_eq; try lia.
      * apply (Hok2 m x y); auto; lia.
      * apply (Hmin j x); auto.
      * by apply (Hok1 j x y).
    + intros c x y Hm0 Hc Hcp.
      pose proof (parent_lt c Hc).
      rewrite !(swap_lookup _ _ _ _ _ _ Hxi Hxm).
      repeat case_decide; subst; intros Hx Hy; simplify_eq; try lia.
      apply (Hok1 c x y); auto; lia.
Qed.

(** *** The root is a minimum *)

Lemma root_min heap x :
  heap_par heap → heap !! 0%nat = Some x → ∀ i y, heap !! i = Some y → f x ≤ f y.
Proof.
  intros H Hx i. induction i as [i IH] using lt_wf_ind. intros y Hy.
  destruct (decide (i = 0%nat)) as [->|Hi]; [simplify_eq; lia|].
  assert (0 < i)%nat as Hpos by lia.
  pose proof (parent_lt i Hpos) as Hp.
  destruct (lookup_lt_is_Some_2 heap (parent i)) as [z Hz].
  { apply lookup_lt_Some in Hy. lia. }
  pose proof (IH _ Hp z Hz). pose proof (H i y z Hpos Hy Hz). lia.
Qed.

(** *** [pop] *)

Lemma pop_nil : pop [] = (None, []).
Proof. done. Qed.

Lemma pop_cons x heap :
  heap_par (x :: heap) →
  ∃ heap', pop (x :: heap) = (Some x, heap') ∧
           x :: heap ≡ₚ x :: heap' ∧ heap_par heap' ∧
           (∀ y, y ∈ x :: heap → f x ≤ f y).
Proof.
  intros H.
  assert (∀ y, y ∈ x :: heap → f x ≤ f y) as Hmin.
  { intros y [i Hy]%list_elem_of_lookup. by apply (root_min (x :: heap) x H eq_refl i). }
  destruct heap as [|z heap].
  { exists []. repeat split; auto. intros j ? ? ? Hj. by rewrite lookup_nil in Hj. }
  unfold pop.
  destruct (last (x :: z :: heap)) as [l|] eqn:Hl.
  2:{ exfalso. by apply last_None in Hl. }
  apply last_Some in Hl as [body Hbody].
  assert (take (length (x :: z :: heap) - 1) (x :: z :: heap) = body) as ->.
  { rewrite Hbody, length_app. simpl.
    replace (length body + 1 - 1)%nat with (length body) by lia.
    by rewrite take_app_length. }
  destruct body as [|x' body]; [by destruct heap|].
  injection Hbody as <- Hbody. simpl.
  eexists. split; [reflexivity|]. repeat split; auto.
  - unfold siftDown. rewrite siftDown_rec_perm, Hbody.
    apply perm_skip. by rewrite Permutation_app_comm.
  - unfold siftDown. apply siftDown_rec_ok; [lia|]. split; [|lia].
    intros j a b Hj Hpj Ha Hb.
    pose proof (parent_lt j Hj).
    destruct j as [|j]; [lia|]. simpl in Ha.
    destruct (parent (S j)) as [|pj] eqn:Hp; [done|]. simpl in Hb.
    apply (H (S j) a b Hj).
    + rewrite Hbody. simpl. apply lookup_app_l_Some. done.
    + rewrite Hp, Hbody. simpl. by apply lookup_app_l_Some.
Qed.

Lemma pop_heap_par heap : heap_par heap → heap_par (snd (pop heap)).
Proof.
  intros H. destruct heap as [|x heap]; [done|].
  destruct (pop_cons x heap H) as (heap' & -> & _ & H' & _). done.
Qed.

Lemma heap_par_nil : heap_par [].
Proof. intros j x y _ Hx. by rewrite lookup_nil in Hx. Qed.

Lemma pop_perm heap x rest : pop heap = (Some x, rest) → heap ≡ₚ x :: rest.
Proof.
  destruct heap as [|y [|z heap]]; [done|by intros [= -> <-]|].
  unfold MinHeap.pop. cbv iota.
  destruct (last (y :: z :: heap)) as [l|] eqn:Hl; [|done].
  intros [= -> <-].
  apply last_Some in Hl as [body Hbody].
  destruct body as [|x' body]; [by destruct heap|].
  injection Hbody as <- Hbody.
  unfold MinHeap.siftDown. rewrite siftDown_rec_perm. apply perm_skip.
  assert (length heap = length body) as Hlen.
  { apply (f_equal length) in Hbody. rewrite length_app in Hbody. simpl in Hbody. lia. }
  rewrite Hlen, Hbody, take_app_length. by rewrite Permutation_app_comm.
Qed.

Lemma pop_None heap rest : pop heap = (None, rest) → heap = [].
Proof.
  destruct heap as [|y [|z heap]]; [done|done|].
  unfold MinHeap.pop. cbv iota.
  destruct (last (y :: z :: heap)) as [l|] eqn:Hl; [done|].
  by apply last_None in Hl.
Qed.

Lemma pop_min heap x rest :
  heap_par heap → pop heap = (Some x, rest) →
  heap_par rest ∧ Forall (λ y, f x ≤ f y) heap.
Proof.
  intros H Hpop. destruct heap as [|y heap]; [done|].
  destruct (pop_cons y heap H) as (heap' & Hpop' & _ & H' & Hmin).
  rewrite Hpop' in Hpop. injection Hpop as -> ->.
  split; [done|]. by apply Forall_forall.
Qed.

Lemma isEmpty_nil (heap : list T) : MinHeap.isEmpty heap = true ↔ heap = [].
Proof. unfold MinHeap.isEmpty. destruct heap; simpl; split; done. Qed.

Lemma run_snoc ops o : run (ops ++ [o]) = apply_op (run ops) o.
Proof. unfold run. by rewrite fold_left_app. Qed.

Lemma run_heap_par ops : heap_par (run ops).
Proof.
  induction ops as [|o ops IH] using rev_ind; [apply heap_par_nil|].
  rewrite run_snoc. destruct o; simpl; [by apply push_heap_par|by apply pop_heap_par].
Qed.

(** C6.  Whatever pushes and pops are run from the empty heap, the array
    they leave satisfies the heap invariant (the [f] of every parent is at
    most the [f] of each of its children), and a [pop] on that array, when
    it is not empty, removes one occurrence of an item and returns it, and
    the [f] of that item is least among all the items that were in the heap;
    on the empty array it returns [undefined]. *)
Theorem heap_run_ordered_pop_min (ops : list (MinHeap.op (T:=T))) :
  heap_ordered (run ops) ∧
  match run ops with
  | [] => pop (run ops) = (None, [])
  | _ :: _ =>
      ∃ item rest, pop (run ops) = (Some item, rest) ∧
                   run ops ≡ₚ item :: rest ∧
                   Forall (λ y, f item ≤ f y) (run ops)
  end.
Proof.
  pose proof (run_heap_par ops) as H. split; [by apply heap_ordered_par|].
  destruct (run ops) as [|x heap] eqn:E; [done|].
  destruct (pop_cons x heap H) as (heap' & Hpop & Hperm & _ & Hmin).
  exists x, heap'. repeat split; auto.
  by apply Forall_forall.
Qed.

End HeapFacts.
End MinHeapFacts.

(** ** The search loop: one round, and why it stops *)

Module SearchFacts.
Import MinHeapFacts.
Section Facts.
Context (endId : Z * Z) (currentGrid : Grid).
Context (occupied nearCongestion : gset (Z * Z)).
Context (reservedCells : option (gset (Z * Z))) (strictMode : bool).

Local Abbreviation relaxC :=
  (relax endId currentGrid occupied nearCongestion reservedCells strictMode).
Local Abbreviation moveCostC :=
  (moveCost endId occupied nearCongestion reservedCells strictMode).
Local Abbreviation searchStepC :=
  (searchStep endId currentGrid occupied nearCongestion reservedCells strictMode).
Local Abbreviation searchLoopC :=
  (searchLoop endId currentGrid occupied nearCongestion reservedCells strictMode).

(** The strict-mode test that makes the [for] loop [continue]. *)
Definition excluded (nid : Z * Z) : bool :=
  strictMode && reservedHas reservedCells nid && negb (bool_decide (nid = endId)).

(** A cell the loop may step into. *)
Definition enterable (nid : Z * Z) : bool :=
  match cellAt currentGrid nid with
  | Some c => isTraversable c && negb (excluded nid)
  | None => false
  end.

Definition newG (current : AStarNode) (n : Z * Z) : Z :=
  node_g current + moveCostC current n.1 n.2.

(** The node pushed for the neighbour [n] of [current]. *)
Definition neighborNode (current : AStarNode) (n : Z * Z) : AStarNode :=
  {| node_id := n; node_x := n.1; node_y := n.2;
     node_g := newG current n;
     node_h := halves (getHeuristic n.1 n.2 (parseCellId endId).1 (parseCellId endId).2);
     node_f := newG current n
               + halves (getHeuristic n.1 n.2 (parseCellId endId).1 (parseCellId endId).2);
     node_parent := Some current |}.

(** [!visited.has(nid) || newG < visited.get(nid)] *)
Definition improves (st : SearchState) (current : AStarNode) (n : Z * Z) : bool :=
  match visited st !! n with
  | None => true
  | Some best => newG current n <? best
  end.

Definition pushed (st : SearchState) (current : AStarNode) (n : Z * Z) : SearchState :=
  {| openSet := MinHeap.push node_f (neighborNode current n) (openSet st);
     visited := <[n := newG current n]> (visited st) |}.

Lemma relax_eq current st n :
  relaxC current st n =
    if enterable n && improves st current n then pushed st current n else st.
Proof.
  destruct n as [nx ny].
  unfold relax, enterable, excluded, improves, pushed, neighborNode, newG,
    getCellId. simpl.
  destruct (cellAt currentGrid (nx, ny)) as [c|]; [|done].
  destruct (isTraversable c); [|done]. simpl.
  destruct (strictMode && reservedHas reservedCells (nx, ny) &&
            negb (bool_decide ((nx, ny) = endId))); [done|]. simpl.
  by destruct (visited st !! (nx, ny)) as [best|]; [destruct (_ <? best)|].
Qed.

Lemma moveCost_pos current nx ny : 2 ≤ moveCostC current nx ny.
Proof.
  unfold moveCost, turnPenalty, halves.
  repeat match goal with |- context [if ?b then _ else _] => destruct b end;
    destruct (node_parent current);
    repeat match goal with |- context [if ?b then _ else _] => destruct b end; lia.
Qed.

Lemma searchStep_inl st r :
  searchStepC st = inl r →
  (r = None ∧ openSet st = []) ∨
  (∃ current rest, MinHeap.pop node_f (openSet st) = (Some current, rest) ∧
                   node_id current = endId ∧ r = Some (reconstruct current [])).
Proof.
  unfold searchStep.
  destruct (MinHeap.isEmpty (openSet st)) eqn:He.
  { intros [= <-]. left. split; [done|]. by apply isEmpty_nil. }
  destruct (MinHeap.pop node_f (openSet st)) as [[current|] rest] eqn:Hpop.
  - case_bool_decide as Hid.
    + intros [= <-]. right. by exists current, rest.
    + by destruct (isStale current st).
  - apply pop_None in Hpop. apply isEmpty_nil in Hpop. congruence.
Qed.

Lemma searchStep_inr st st' :
  searchStepC st = inr st' →
  ∃ current rest,
    MinHeap.pop node_f (openSet st) = (Some current, rest) ∧
    node_id current ≠ endId ∧
    st' = if isStale current st then {| openSet := rest; visited := visited st |}
          else fold_left (relaxC current) (neighbors current)
                         {| openSet := rest; visited := visited st |}.
Proof.
  unfold searchStep.
  destruct (MinHeap.isEmpty (openSet st)) eqn:He; [done|].
  destruct (MinHeap.pop node_f (openSet st)) as [[current|] rest] eqn:Hpop; [|done].
  case_bool_decide as Hid; [done|].
  intros Hst. exists current, rest. repeat split; [done|].
  destruct (isStale current st); congruence.
Qed.

Lemma searchLoop_mono fuel fuel' st r :
  searchLoopC fuel st = Done r → (fuel ≤ fuel')%nat → searchLoopC fuel' st = Done r.
Proof.
  revert fuel' st. induction fuel as [|fuel IH]; intros fuel' st; simpl; [done|].
  intros H Hle. destruct fuel' as [|fuel']; [lia|]. simpl.
  destruct (searchStepC st) as [r'|st']; [done|]. apply IH; [done|lia].
Qed.

(** *** Items of the open set *)

Lemma push_Forall (P : AStarNode → Prop) item heap :
  P item → Forall P heap → Forall P (MinHeap.push node_f item heap).
Proof. intros Hi Hh. rewrite (push_perm node_f item heap). by constructor. Qed.

Lemma pop_Forall (P : AStarNode → Prop) heap x rest :
  MinHeap.pop node_f heap = (Some x, rest) → Forall P heap → P x ∧ Forall P rest.
Proof.
  intros Hpop Hh. rewrite (pop_perm node_f heap x rest Hpop) in Hh.
  by apply Forall_cons in Hh.
Qed.

(** An invariant of the open set alone, kept by every pushed node, is kept
    by a round of the loop. *)
Lemma fold_relax_Forall (P : AStarNode → Prop) current ns st :
  (∀ n, n ∈ ns → enterable n = true → P (neighborNode current n)) →
  Forall P (openSet st) →
  Forall P (openSet (fold_left (relaxC current) ns st)).
Proof.
  revert st. induction ns as [|n ns IH]; intros st Hn Hst; simpl; [done|].
  apply IH; [intros m Hm; apply Hn; by right|].
  rewrite relax_eq. destruct (enterable n) eqn:He; simpl; [|done].
  destruct (improves st current n); [|done]. simpl.
  apply push_Forall; [|done]. apply Hn; [by left|done].
Qed.

Lemma searchStep_Forall (P : AStarNode → Prop) st st' :
  (∀ current n, P current → node_id current ≠ endId → n ∈ neighbors current →
                enterable n = true → P (neighborNode current n)) →
  Forall P (openSet st) → searchStepC st = inr st' → Forall P (openSet st').
Proof.
  intros Hstep Hst (current & rest & Hpop & Hid & ->)%searchStep_inr.
  destruct (pop_Forall P _ _ _ Hpop Hst) as [Hc Hrest].
  destruct (isStale current st); [done|].
  apply fold_relax_Forall; [|done]. intros n Hn He. by apply Hstep.
Qed.

Lemma searchStep_found (P : AStarNode → Prop) st p :
  Forall P (openSet st) → searchStepC st = inl (Some p) →
  ∃ current, P current ∧ node_id current = endId ∧ p = reconstruct current [].
Proof.
  intros Hst [[? _]|(current & rest & Hpop & Hid & Hr)]%searchStep_inl; [done|].
  destruct (pop_Forall P _ _ _ Hpop Hst) as [Hc _].
  exists current. repeat split; auto. congruence.
Qed.

(** The same along a whole run. *)
Lemma searchLoop_found (P : AStarNode → Prop) fuel st p :
  (∀ current n, P current → node_id current ≠ endId → n ∈ neighbors current →
                enterable n = true → P (neighborNode current n)) →
  Forall P (openSet st) → searchLoopC fuel st = Done (Some p) →
  ∃ current, P current ∧ node_id current = endId ∧ p = reconstruct current [].
Proof.
  intros Hstep. revert st. induction fuel as [|fuel IH]; intros st Hst; simpl; [done|].
  destruct (searchStepC st) as [r|st'] eqn:Hs.
  - intros [= ->]. by apply (searchStep_found P st).
  - apply IH. by apply (searchStep_Forall P st).
Qed.

(** *** Termination

    A push either gives a cell of the grid its first [visited] entry or
    strictly lowers the entry it has; a round without a push shortens the
    open set. *)

Definition cells : list (Z * Z) := map fst currentGrid.

Definition unvisited (v : gmap (Z * Z) Z) : nat :=
  length (List.filter (λ c, bool_decide (v !! c = None)) cells).

Definition weight (v : gmap (Z * Z) Z) (c : Z * Z) : nat :=
  match v !! c with
  | Some g => Z.to_nat g
  | None => 0
  end.

Definition total (v : gmap (Z * Z) Z) : nat := sum_list (map (weight v) cells).

Definition lt2 (a b : nat * nat) : Prop :=
  (a.1 < b.1)%nat ∨ (a.1 = b.1 ∧ a.2 < b.2)%nat.

Definition measure2 (st : SearchState) : nat * nat :=
  (unvisited (visited st), total (visited st)).

Definition nonneg (st : SearchState) : Prop :=
  Forall (λ n, 0 ≤ node_g n) (openSet st) ∧
  ∀ c g, visited st !! c = Some g → 0 ≤ g.

Lemma cellAt_cells c x : cellAt currentGrid c = Some x → c ∈ cells.
Proof.
  unfold cells. induction currentGrid as [|[k y] grid IH]; simpl; [done|].
  case_decide as Hk; [intros _; subst; by left|]. intros H. right. by apply IH.
Qed.

Lemma enterable_cells n : enterable n = true → n ∈ cells.
Proof.
  unfold enterable. destruct (cellAt currentGrid n) eqn:E; [|done].
  intros _. by apply (cellAt_cells n c).
Qed.

Lemma filter_length_lt (p q : Z * Z → bool) (l : list (Z * Z)) n :
  (∀ c, q c = true → p c = true) → n ∈ l → p n = true → q n = false →
  (length (List.filter q l) < length (List.filter p l))%nat.
Proof.
  intros Hqp. assert (∀ l', length (List.filter q l') ≤ length (List.filter p l'))%nat as Hle.
  { induction l' as [|c l' IH]; simpl; [done|].
    destruct (q c) eqn:Eq; [rewrite (Hqp c Eq); simpl; lia|].
    destruct (p c); simpl; lia. }
  induction l as [|c l IH]; [by intros ?%elem_of_nil|].
  intros [->|Hn]%elem_of_cons Hp Hq; simpl.
  - rewrite Hp, Hq. simpl. specialize (Hle l). lia.
  - specialize (IH Hn Hp Hq).
    destruct (q c) eqn:Eq; [rewrite (Hqp c Eq); simpl; lia|].
    destruct (p c); simpl; lia.
Qed.

Lemma filter_length_ext (p q : Z * Z → bool) (l : list (Z * Z)) :
  (∀ c, q c = p c) → length (List.filter q l) = length (List.filter p l).
Proof.
  intros H. induction l as [|c l IH]; simpl; [done|]. rewrite (H c).
  destruct (p c); simpl; lia.
Qed.

Lemma sum_weight_lt (w w' : Z * Z → nat) (l : list (Z * Z)) n :
  (∀ c, w' c ≤ w c)%nat → n ∈ l → (w' n < w n)%nat →
  (sum_list (map w' l) < sum_list (map w l))%nat.
Proof.
  intros Hle. assert (∀ l', sum_list (map w' l') ≤ sum_list (map w l'))%nat as Hall.
  { induction l' as [|c l' IH]; simpl; [done|]. specialize (Hle c). lia. }
  induction l as [|c l IH]; [by intros ?%elem_of_nil|].
  intros [->|Hn]%elem_of_cons Hlt; simpl.
  - specialize (Hall l). lia.
  - specialize (IH Hn Hlt). specialize (Hle c). lia.
Qed.

Lemma pushed_measure st current n :
  nonneg st → 0 ≤ node_g current →
  enterable n = true → improves st current n = true →
  lt2 (measure2 (pushed st current n)) (measure2 st) ∧ nonneg (pushed st current n).
Proof.
  intros [Hopen Hvis] Hg He Hi.
  pose proof (enterable_cells n He) as Hn.
  pose proof (moveCost_pos current n.1 n.2) as Hcost.
  assert (0 ≤ newG current n) as HnewG by (unfold newG; lia).
  split.
  - unfold lt2, measure2, pushed, improves in *. simpl.
    destruct (visited st !! n) as [best|] eqn:Hv.
    + right. apply Z.ltb_lt in Hi. split.
      * apply filter_length_ext. intros c.
        destruct (decide (c = n)) as [->|Hc].
        -- rewrite lookup_insert_eq, Hv. done.
        -- by rewrite lookup_insert_ne.
      * apply (sum_weight_lt _ _ _ n); [|done|].
        -- intros c. unfold weight. destruct (decide (c = n)) as [->|Hc].
           ++ rewrite lookup_insert_eq, Hv. lia.
           ++ by rewrite lookup_insert_ne.
        -- unfold weight. rewrite lookup_insert_eq, Hv. lia.
    + left. apply (filter_length_lt _ _ _ n); [|done| |].
      * intros c. destruct (decide (c = n)) as [->|Hc].
        -- by rewrite lookup_insert_eq.
        -- by rewrite lookup_insert_ne.
      * by rewrite Hv.
      * by rewrite lookup_insert_eq.
  - split; simpl.
    + apply push_Forall; [done|done].
    + intros c g. destruct (decide (c = n)) as [->|Hc].
      * rewrite lookup_insert_eq. by intros [= <-].
      * rewrite lookup_insert_ne by done. apply Hvis.
Qed.

Lemma fold_relax_measure current ns st :
  nonneg st → 0 ≤ node_g current →
  nonneg (fold_left (relaxC current) ns st) ∧
  (fold_left (relaxC current) ns st = st ∨
   lt2 (measure2 (fold_left (relaxC current) ns st)) (measure2 st)).
Proof.
  revert st. induction ns as [|n ns IH]; intros st Hst Hg; simpl; [auto|].
  rewrite relax_eq.
  destruct (enterable n && improves st current n) eqn:E; [|by apply IH].
  apply andb_true_iff in E as [He Hi].
  destruct (pushed_measure st current n Hst Hg He Hi) as [Hlt Hnn].
  destruct (IH _ Hnn Hg) as [Hnn' [Heq|Hlt']]; split; auto.
  - right. by rewrite Heq.
  - right. unfold lt2 in *. lia.
Qed.

Lemma lex3_ind (P : nat → nat → nat → Prop) :
  (∀ a b c,
     (∀ a' b' c', (a' < a ∨ (a' = a ∧ b' < b) ∨ (a' = a ∧ b' = b ∧ c' < c))%nat → P a' b' c') →
     P a b c) →
  ∀ a b c, P a b c.
Proof.
  intros H a. induction a as [a IHa] using lt_wf_ind.
  intros b. induction b as [b IHb] using lt_wf_ind.
  intros c. induction c as [c IHc] using lt_wf_ind.
  apply H. intros a' b' c' [Ha|[[-> Hb]|(-> & -> & Hc)]]; auto.
Qed.

Lemma searchStep_measure st st' :
  nonneg st → searchStepC st = inr st' →
  nonneg st' ∧
  (lt2 (measure2 st') (measure2 st) ∨
   (measure2 st' = measure2 st ∧ (length (openSet st') < length (openSet st))%nat)).
Proof.
  intros [Hopen Hvis] (current & rest & Hpop & Hid & ->)%searchStep_inr.
  destruct (pop_Forall _ _ _ _ Hpop Hopen) as [Hg Hrest].
  assert (length (openSet st) = S (length rest)) as Hlen
    by by rewrite (pop_perm _ _ _ _ Hpop).
  assert (nonneg {| openSet := rest; visited := visited st |}) as Hnn by done.
  destruct (isStale current st).
  - split; [done|]. right. simpl. split; [done|lia].
  - destruct (fold_relax_measure current (neighbors current) _ Hnn Hg) as [Hnn' [Heq|Hlt]].
    + split; [done|]. right. rewrite Heq. simpl. split; [done|lia].
    + split; [done|]. by left.
Qed.

(** The loop returns, whatever state it is started in. *)
Lemma searchLoop_terminates st :
  nonneg st → ∃ fuel r, searchLoopC fuel st = Done r.
Proof.
  remember (unvisited (visited st)) as a eqn:Ea.
  remember (total (visited st)) as b eqn:Eb.
  remember (length (openSet st)) as c eqn:Ec.
  revert st Ea Eb Ec. induction a, b, c as [a b c IH] using lex3_ind.
  intros st -> -> -> Hst.
  destruct (searchStepC st) as [r|st'] eqn:Hs.
  - exists 1%nat, r. simpl. by rewrite Hs.
  - destruct (searchStep_measure st st' Hst Hs) as [Hst' Hm].
    destruct (IH _ _ _ ltac:(unfold lt2, measure2 in Hm; simpl in Hm;
                              destruct Hm as [[?|[? ?]]|[[= ? ?] ?]];
                              [left|right;left|right;right]; eauto)
                st' eq_refl eq_refl eq_refl Hst') as (fuel & r & Hr).
    exists (S fuel), r. simpl. by rewrite Hs.
Qed.

End Facts.
End SearchFacts.

(** ** What [findPathAStar] returns *)

Module PathFacts.
Import MinHeapFacts SearchFacts.

Lemma AStarNode_chain_ind (P : AStarNode → Prop) :
  (∀ id x y g h f, P (mkNode id x y g h f None)) →
  (∀ id x y g h f p, P p → P (mkNode id x y g h f (Some p))) →
  ∀ n, P n.
Proof.
  intros Hroot Hstep. fix IH 1. intros [id x y g h f [p|]].
  - apply Hstep, IH.
  - apply Hroot.
Qed.

Lemma reconstruct_app n acc : reconstruct n acc = reconstruct n [] ++ acc.
Proof.
  revert acc. induction n as [id x y g h f|id x y g h f p IH] using AStarNode_chain_ind;
    intros acc; simpl; [done|].
  rewrite (IH (id :: acc)), (IH [id]). by rewrite <- app_assoc.
Qed.

Lemma reconstruct_child current id x y g h f :
  reconstruct (mkNode id x y g h f (Some current)) [] = reconstruct current [] ++ [id].
Proof. simpl. apply reconstruct_app. Qed.

(** A key of two coordinates that are not negative is read back as it
    is. *)
Lemma parseCellId_plain (id : Z * Z) : 0 ≤ id.1 → 0 ≤ id.2 → parseCellId id = id.
Proof.
  intros H1 H2. unfold parseCellId.
  destruct (Z.ltb_spec id.1 0); [lia|]. destruct (Z.ltb_spec id.2 0); [lia|done].
Qed.

(** A grid whose keys are all of that kind, like the grids the application
    builds, whose keys are the cells of the board. *)
Definition plainKeys (grid : Grid) : Prop :=
  Forall (λ kc : (Z * Z) * Cell, 0 ≤ kc.1.1 ∧ 0 ≤ kc.1.2) grid.

Lemma plainKeys_cellAt grid k c :
  plainKeys grid → cellAt grid k = Some c → parseCellId k = k.
Proof.
  intros Hall Hk. apply parseCellId_plain.
  - induction Hall as [|[k' c'] grid [H1 H2] _ IH]; [done|]. simpl in Hk.
    case_decide as Hkk; [by subst|by apply IH].
  - induction Hall as [|[k' c'] grid [H1 H2] _ IH]; [done|]. simpl in Hk.
    case_decide as Hkk; [by subst|by apply IH].
Qed.

(** The node pushed before the loop: its key is [startId], its position
    the one [parseCellId] reads from the key. *)
Definition startNode (startId endId : Z * Z) : AStarNode :=
  let startPos := parseCellId startId in
  let endPos := parseCellId endId in
  {| node_id := startId; node_x := startPos.1; node_y := startPos.2;
     node_g := 0;
     node_h := halves (getHeuristic startPos.1 startPos.2 endPos.1 endPos.2);
     node_f := halves (getHeuristic startPos.1 startPos.2 endPos.1 endPos.2);
     node_parent := None |}.

Definition initialState (startId endId : Z * Z) : SearchState :=
  {| openSet := [startNode startId endId];
     visited := <[startId := 0]> (∅ : gmap (Z * Z) Z) |}.

Lemma findPathAStar_eq fuel startId endId grid trains ign R strict :
  findPathAStar fuel startId endId grid trains ign R strict =
    match cellAt grid startId, cellAt grid endId with
    | Some _, Some _ =>
        searchLoop endId grid (occupiedCells trains ign) (nearCongestionCells trains ign)
                   R strict fuel (initialState startId endId)
    | _, _ => Done None
    end.
Proof. done. Qed.

Lemma initialState_nonneg startId endId : nonneg (initialState startId endId).
Proof.
  split; simpl.
  - by repeat constructor.
  - intros c g. destruct (decide (c = startId)) as [->|Hc].
    + rewrite lookup_insert_eq. by intros [= <-].
    + by rewrite lookup_insert_ne, lookup_empty.
Qed.

(** The search returns for every input once the fuel is large enough. *)
Lemma findPathAStar_returns startId endId grid trains ign R strict :
  ∃ fuel0 r, ∀ fuel, (fuel0 ≤ fuel)%nat →
    findPathAStar fuel startId endId grid trains ign R strict = Done r.
Proof.
  destruct (cellAt grid startId) as [cs|] eqn:Hs.
  2:{ exists 0%nat, None. intros fuel _. by rewrite findPathAStar_eq, Hs. }
  destruct (cellAt grid endId) as [ce|] eqn:He.
  2:{ exists 0%nat, None. intros fuel _. by rewrite findPathAStar_eq, Hs, He. }
  destruct (searchLoop_terminates endId grid (occupiedCells trains ign)
              (nearCongestionCells trains ign) R strict (initialState startId endId)
              (initialState_nonneg startId endId)) as (fuel0 & r & Hr).
  exists fuel0, r. intros fuel Hle. rewrite findPathAStar_eq, Hs, He.
  by apply (searchLoop_mono _ _ _ _ _ _ fuel0).
Qed.

Lemma reconstruct_nonempty n acc : reconstruct n acc ≠ [].
Proof.
  revert acc. induction n as [id x y g h f|id x y g h f p IH] using AStarNode_chain_ind;
    intros acc; simpl; [done|apply IH].
Qed.

(** A returned path is never empty, so it always passes the test
    [p && p.length > 0] of the callers. *)
Lemma findPathAStar_usable fuel startId endId grid trains ign R strict p :
  findPathAStar fuel startId endId grid trains ign R strict = Done (Some p) →
  usable (Some p) = Some p.
Proof.
  rewrite findPathAStar_eq.
  destruct (cellAt grid startId); [|done]. destruct (cellAt grid endId); [|done].
  intros Hrun.
  destruct (searchLoop_found endId grid (occupiedCells trains ign)
              (nearCongestionCells trains ign) R strict (λ _, True)
              fuel (initialState startId endId) p) as (current & _ & _ & ->); [done| |done|].
  { by repeat constructor. }
  unfold usable, len.
  destruct (reconstruct current []) eqn:E; [by apply reconstruct_nonempty in E|].
  simpl. destruct (Z.ltb_spec 0 (Z.of_nat (S (length l)))); [done|lia].
Qed.

(** *** Strict mode keeps reserved cells out of the path *)

Section Strict.
Context (startId endId : Z * Z) (grid : Grid) (R : gset (Z * Z)).

Definition clearOfReserved (n : AStarNode) : Prop :=
  ∃ rest, reconstruct n [] = startId :: rest ∧ Forall (λ c, c = endId ∨ c ∉ R) rest.

Lemma enterable_strict n :
  enterable endId grid (Some R) true n = true → n = endId ∨ n ∉ R.
Proof.
  unfold enterable, excluded. simpl.
  destruct (cellAt grid n) as [c|]; [|done].
  destruct (decide (n = endId)) as [->|Hn]; [auto|].
  destruct (decide (n ∈ R)) as [Hr|Hr]; [|auto].
  rewrite (bool_decide_eq_true_2 _ Hr), (bool_decide_eq_false_2 _ Hn). simpl.
  by rewrite andb_false_r.
Qed.

Lemma clearOfReserved_child occupied near current n :
  clearOfReserved current → enterable endId grid (Some R) true n = true →
  clearOfReserved (neighborNode endId occupied near (Some R) true current n).
Proof.
  intros (rest & Hrest & Hall) He. exists (rest ++ [n]). split.
  - unfold neighborNode. rewrite reconstruct_child, Hrest. done.
  - apply Forall_app. split; [done|]. constructor; [|done]. by apply enterable_strict.
Qed.

End Strict.

(** C2, as the code has it.  With [strictMode = true] and a reservation set
    [R], a returned path begins with the start cell, and none of the cells
    after it belongs to [R] unless it is the goal: reserved cells are
    excluded when the search steps into a neighbour, and the start cell is
    never stepped into. *)
Theorem strict_path_avoids_reserved fuel startId endId grid trains ign R p :
  findPathAStar fuel startId endId grid trains ign (Some R) true = Done (Some p) →
  ∃ rest, p = startId :: rest ∧ Forall (λ c, c = endId ∨ c ∉ R) rest.
Proof.
  rewrite findPathAStar_eq.
  destruct (cellAt grid startId); [|done]. destruct (cellAt grid endId); [|done].
  intros Hrun.
  destruct (searchLoop_found endId grid (occupiedCells trains ign)
              (nearCongestionCells trains ign) (Some R) true
              (clearOfReserved startId endId R) fuel (initialState startId endId) p)
    as (current & Hc & _ & ->); [| |done|done].
  - intros current n Hc _ _ He. by apply (clearOfReserved_child _ _ grid).
  - repeat constructor. by exists [].
Qed.

Definition twoCells : Grid :=
  [ ((0, 0), mkCell 0 0 station (Some "A") (0, 0));
    ((1, 0), mkCell 1 0 station (Some "B") (1, 0)) ].

Lemma strict_path_avoids_reserved_witness :
  ∃ rest, [(0, 0); (1, 0)] = (0, 0) :: rest ∧
          Forall (λ c, c = (1, 0) ∨ c ∉ ({[ (0, 0) ]} : gset (Z * Z))) rest.
Proof.
  apply (strict_path_avoids_reserved 10 (0, 0) (1, 0) twoCells [] None {[ (0, 0) ]}).
  vm_compute. reflexivity.
Defined.

(** C2 as stated fails at the start cell: a train whose own cell is
    reserved gets a path through that cell. *)
Lemma strict_path_may_start_reserved :
  ¬ (∀ fuel startId endId grid trains ign (R : gset (Z * Z)) p,
       findPathAStar fuel startId endId grid trains ign (Some R) true = Done (Some p) →
       ∀ c, c ∈ p → c ≠ endId → c ∉ R).
Proof.
  intros H.
  assert (findPathAStar 10 (0, 0) (1, 0) twoCells [] None (Some {[ (0, 0) ]}) true
          = Done (Some [(0, 0); (1, 0)])) as Hrun by (vm_compute; reflexivity).
  apply (H _ _ _ _ _ _ _ _ Hrun (0, 0)); [by left|done|by apply elem_of_singleton].
Qed.

(** *** An unreachable goal gives [null] *)

(** The four cells next to a cell. *)
Definition around (c : Z * Z) : list (Z * Z) :=
  [ (c.1, c.2 - 1); (c.1, c.2 + 1); (c.1 - 1, c.2); (c.1 + 1, c.2) ].

(** Cells that can be reached from [startId] by steps into cells that
    [enter] accepts. *)
Inductive reachable (enter : Z * Z → bool) (startId : Z * Z) : Z * Z → Prop :=
| reachable_start : reachable enter startId startId
| reachable_step c n :
    reachable enter startId c → n ∈ around c → enter n = true →
    reachable enter startId n.

(** Reachable under the constraints of a call: through traversable cells
    of the grid that strict mode does not exclude. *)
Definition reachableUnder (grid : Grid) (R : option (gset (Z * Z))) (strict : bool)
    (startId endId : Z * Z) : Prop :=
  reachable (enterable endId grid R strict) startId endId.

(** In the same component of traversable cells. *)
Definition connected (grid : Grid) (startId endId : Z * Z) : Prop :=
  reachable (λ n, match cellAt grid n with
                  | Some c => isTraversable c
                  | None => false
                  end) startId endId.

Lemma reachable_mono (enter enter' : Z * Z → bool) startId c :
  (∀ n, enter n = true → enter' n = true) →
  reachable enter startId c → reachable enter' startId c.
Proof.
  intros Hsub. induction 1 as [|c n Hc IH Hn He]; [constructor|].
  apply (reachable_step _ _ c n); auto.
Qed.

Lemma reachableUnder_connected grid R strict startId endId :
  reachableUnder grid R strict startId endId → connected grid startId endId.
Proof.
  apply reachable_mono. intros n. unfold enterable.
  destruct (cellAt grid n); [|done]. by intros [? _]%andb_true_iff.
Qed.

(** The position from which the search looks for the neighbours of a
    cell: the cell itself, except for the start cell, whose node carries
    the position that [parseCellId] reads from its key. *)
Definition seat (startId c : Z * Z) : Z * Z :=
  if decide (c = startId) then parseCellId startId else c.

Lemma seat_plain startId c : parseCellId startId = startId → seat startId c = c.
Proof. intros H. unfold seat. case_decide as Hc; [by rewrite Hc|done]. Qed.

Lemma seat_other startId c : c ≠ startId → seat startId c = c.
Proof. intros H. unfold seat. by rewrite decide_False. Qed.

(** The cells the search can get to: like [reachable], but the steps out of
    the start cell are taken from the position of the start node. *)
Inductive reached (enter : Z * Z → bool) (startId : Z * Z) : Z * Z → Prop :=
| reached_start : reached enter startId startId
| reached_step c n :
    reached enter startId c → n ∈ around (seat startId c) → enter n = true →
    reached enter startId n.

Lemma reached_mono (enter enter' : Z * Z → bool) startId c :
  (∀ n, enter n = true → enter' n = true) →
  reached enter startId c → reached enter' startId c.
Proof.
  intros Hsub. induction 1 as [|c n Hc IH Hn He]; [constructor|].
  apply (reached_step _ _ c n); auto.
Qed.

(** For a start key that is read back as it is, the two notions agree. *)
Lemma reached_plain (enter : Z * Z → bool) startId c :
  parseCellId startId = startId → reached enter startId c ↔ reachable enter startId c.
Proof.
  intros Hp. split.
  - induction 1 as [|c n Hc IH Hn He]; [constructor|].
    rewrite (seat_plain _ _ Hp) in Hn. by apply (reachable_step _ _ c n).
  - induction 1 as [|c n Hc IH Hn He]; [constructor|].
    apply (reached_step _ _ c n); [done| |done]. by rewrite (seat_plain _ _ Hp).
Qed.

Definition nodeReachable (enter : Z * Z → bool) (startId : Z * Z) (n : AStarNode) : Prop :=
  node_id n = (node_x n, node_y n) ∧ reachable enter startId (node_id n).

(** C7.  When the goal cannot be reached from the start under the
    constraints of the call (in particular when the two lie in different
    components of traversable cells), [findPathAStar] returns [null]: the
    loop stops, and it stops with an empty open set.  The start key is one
    of two coordinates that are not negative, as the keys of the board are:
    the search starts from the position that [parseCellId] reads from the
    key, and that is the cell of the key only then. *)
Theorem unreachable_goal_returns_null startId endId grid trains ign R strict :
  0 ≤ startId.1 → 0 ≤ startId.2 →
  ¬ reachableUnder grid R strict startId endId ∨ ¬ connected grid startId endId →
  ∃ fuel0, ∀ fuel, (fuel0 ≤ fuel)%nat →
    findPathAStar fuel startId endId grid trains ign R strict = Done None.
Proof.
  intros Hx Hy Hun.
  assert (¬ reachableUnder grid R strict startId endId) as Hno.
  { destruct Hun as [H|H]; [done|]. intros Hr. by apply H, (reachableUnder_connected _ R strict). }
  destruct (findPathAStar_returns startId endId grid trains ign R strict) as (fuel0 & r & Hr).
  exists fuel0. intros fuel Hle. rewrite (Hr fuel Hle). f_equal.
  destruct r as [p|]; [exfalso|done].
  specialize (Hr fuel0 (Nat.le_refl _)). rewrite findPathAStar_eq in Hr.
  destruct (cellAt grid startId); [|done]. destruct (cellAt grid endId); [|done].
  destruct (searchLoop_found endId grid (occupiedCells trains ign)
              (nearCongestionCells trains ign) R strict
              (nodeReachable (enterable endId grid R strict) startId)
              fuel0 (initialState startId endId) p) as (current & [_ Hc] & Hid & _);
    [| |done|].
  - intros current n [Hxy Hc] _ Hn He. split; [by destruct n|]. simpl.
    apply (reachable_step _ _ (node_id current) n); [done| |done].
    rewrite Hxy. exact Hn.
  - repeat constructor. simpl. rewrite parseCellId_plain by done. by destruct startId.
  - apply Hno. unfold reachableUnder. rewrite Hid in Hc. exact Hc.
Qed.

(** A corridor cut in the middle. *)
Definition brokenLine : Grid :=
  [ ((0, 0), mkCell 0 0 station (Some "A") (0, 0));
    ((1, 0), mkCell 1 0 empty_cell None (1, 0));
    ((2, 0), mkCell 2 0 station (Some "B") (2, 0)) ].

Lemma brokenLine_disconnected : ¬ connected brokenLine (0, 0) (2, 0).
Proof.
  assert (∀ c, connected brokenLine (0, 0) c → c = (0, 0)) as H.
  { unfold connected. induction 1 as [|c n Hc IH Hn He]; [done|]. subst c.
    unfold around in Hn. simpl in Hn.
    repeat (apply elem_of_cons in Hn as [->|Hn]; [by vm_compute in He|]).
    by apply elem_of_nil in Hn. }
  intros Hc. by apply H in Hc.
Defined.

Lemma unreachable_goal_returns_null_witness :
  ∃ fuel0, ∀ fuel, (fuel0 ≤ fuel)%nat →
    findPathAStar fuel (0, 0) (2, 0) brokenLine [] None None false = Done None.
Proof.
  apply (unreachable_goal_returns_null (0, 0) (2, 0) brokenLine [] None None false).
  - simpl. lia.
  - simpl. lia.
  - right. exact brokenLine_disconnected.
Defined.

(** The start key has to be one of the board: off the board the key
    [-1-5] is read as the position (0, 1), from which the cell (0, 0) is one
    step away, and the key [-2-0] as the position (0, 2), from which the
    cell next to the start cell is not. *)
Definition strayCells : Grid :=
  [ ((-1, 5), mkCell (-1) 5 track None (-1, 5)); ((0, 0), mkCell 0 0 track None (0, 0)) ].

Definition strayPair : Grid :=
  [ ((-2, 0), mkCell (-2) 0 track None (-2, 0)); ((-1, 0), mkCell (-1) 0 track None (-1, 0)) ].

Lemma misread_start_key :
  findPathAStar 10 (-1, 5) (0, 0) strayCells [] None None false
    = Done (Some [(-1, 5); (0, 0)]) ∧
  findPathAStar 10 (-2, 0) (-1, 0) strayPair [] None None false = Done None.
Proof. split; vm_compute; reflexivity. Qed.

End PathFacts.

(** ** On a free board the path is a shortest one *)

Module ShortestFacts.
Import MinHeapFacts SearchFacts PathFacts.

Definition manh (a b : Z * Z) : Z := getHeuristic a.1 a.2 b.1 b.2.

(** Consecutive cells of a path are next to each other. *)
Definition adjacent (a b : Z * Z) : Prop := manh a b = 1.

Definition stepwise (p : list (Z * Z)) : Prop :=
  ∀ i a b, p !! i = Some a → p !! S i = Some b → adjacent a b.

(** The same when the steps out of the start cell are measured from the
    position of the start node. *)
Definition stepwiseFrom (startId : Z * Z) (p : list (Z * Z)) : Prop :=
  ∀ i a b, p !! i = Some a → p !! S i = Some b → adjacent (seat startId a) b.

Lemma stepwiseFrom_plain startId p :
  parseCellId startId = startId → stepwiseFrom startId p → stepwise p.
Proof.
  intros Hp Hstep i a b Ha Hb. rewrite <- (seat_plain startId a Hp). by apply (Hstep i).
Qed.

Section ObstacleFree.
Context (startId endId : Z * Z) (grid : Grid).
Context (reservedCells : option (gset (Z * Z))) (strictMode : bool).
Context (Hfree : ∀ n, reservedHas reservedCells n = false).
Context (Pstart : parseCellId startId = startId) (Pend : parseCellId endId = endId).

Local Abbreviation relaxF := (relax endId grid ∅ ∅ reservedCells strictMode).
Local Abbreviation stepF := (searchStep endId grid ∅ ∅ reservedCells strictMode).
Local Abbreviation loopF := (searchLoop endId grid ∅ ∅ reservedCells strictMode).
Local Abbreviation enter := (enterable endId grid reservedCells strictMode).
Local Abbreviation costF := (newG endId ∅ ∅ reservedCells strictMode).

(** The nodes of the search when the two keys are read back as they are:
    the start node sits on the start cell, and the estimate of a node is
    its distance to the goal cell. *)
Definition root : AStarNode :=
  {| node_id := startId; node_x := startId.1; node_y := startId.2;
     node_g := 0;
     node_h := halves (getHeuristic startId.1 startId.2 endId.1 endId.2);
     node_f := halves (getHeuristic startId.1 startId.2 endId.1 endId.2);
     node_parent := None |}.

Definition child (current : AStarNode) (n : Z * Z) : AStarNode :=
  {| node_id := n; node_x := n.1; node_y := n.2;
     node_g := costF current n;
     node_h := halves (getHeuristic n.1 n.2 endId.1 endId.2);
     node_f := costF current n + halves (getHeuristic n.1 n.2 endId.1 endId.2);
     node_parent := Some current |}.

Lemma startNode_root : startNode startId endId = root.
Proof. unfold startNode, root. cbv zeta. by rewrite Pstart, Pend. Qed.

Lemma neighborNode_child current n :
  neighborNode endId ∅ ∅ reservedCells strictMode current n = child current n.
Proof. unfold neighborNode, child. by rewrite Pend. Qed.

(** Without trains and reservations a step costs 1, or 1.5 on a turn. *)
Lemma moveCost_free current nx ny :
  moveCost endId ∅ ∅ reservedCells strictMode current nx ny
  = 2 + turnPenalty current nx ny.
Proof.
  unfold moveCost, getCellId, halves.
  rewrite (bool_decide_eq_false_2 ((nx, ny) ∈ (∅ : gset (Z * Z)))) by set_solver.
  rewrite Hfree. simpl. by rewrite andb_false_r.
Qed.

Lemma costF_eq current n :
  costF current n = node_g current + 2 + turnPenalty current n.1 n.2.
Proof. unfold newG. rewrite moveCost_free. lia. Qed.

Lemma turnPenalty_cases current nx ny :
  match node_parent current with
  | None => turnPenalty current nx ny = 0
  | Some p =>
      (turnPenalty current nx ny = 0 ∧
       nx - node_x current = node_x current - node_x p ∧
       ny - node_y current = node_y current - node_y p) ∨
      (turnPenalty current nx ny = 1 ∧
       (nx - node_x current ≠ node_x current - node_x p ∨
        ny - node_y current ≠ node_y current - node_y p))
  end.
Proof.
  unfold turnPenalty. destruct (node_parent current) as [p|]; [|done].
  destruct (Z.eqb_spec (nx - node_x current) (node_x current - node_x p));
    destruct (Z.eqb_spec (ny - node_y current) (node_y current - node_y p)); simpl; auto.
Qed.

Lemma neighbors_cases (p : AStarNode) (c : Z * Z) :
  c ∈ neighbors p →
  (c.1 = node_x p ∧ c.2 = node_y p - 1) ∨ (c.1 = node_x p ∧ c.2 = node_y p + 1) ∨
  (c.1 = node_x p - 1 ∧ c.2 = node_y p) ∨ (c.1 = node_x p + 1 ∧ c.2 = node_y p).
Proof.
  unfold neighbors. rewrite !elem_of_cons, elem_of_nil.
  intros [->|[->|[->|[->|[]]]]]; simpl; auto.
Qed.

(** The nodes the search builds: the start node and the nodes pushed for a
    neighbour of such a node. *)
Inductive wf : AStarNode → Prop :=
| wf_root : wf (root)
| wf_child p c : wf p → c ∈ neighbors p → wf (child p c).

Lemma wf_id n : wf n → node_id n = (node_x n, node_y n).
Proof. intros [|p c _ _]; simpl; [by destruct startId|by destruct c]. Qed.

Lemma wf_f n : wf n → node_f n = node_g n + 2 * manh (node_id n) endId.
Proof. intros [|p c _ _]; unfold manh; simpl; unfold halves; lia. Qed.

Lemma wf_parent n p :
  wf n → node_parent n = Some p →
  wf p ∧ node_id n ∈ neighbors p ∧
  node_g n = node_g p + 2 + turnPenalty p (node_x n) (node_y n).
Proof.
  intros [|p' c Hp Hc]; simpl; [done|]. intros [= ->].
  repeat split; [done|done|]. apply costF_eq.
Qed.

Lemma wf_orphan n : wf n → node_parent n = None → n = root.
Proof. by intros [|p' c Hp Hc]. Qed.

Lemma turnPenalty_range current nx ny : 0 ≤ turnPenalty current nx ny ≤ 1.
Proof.
  pose proof (turnPenalty_cases current nx ny) as H.
  destruct (node_parent current); [destruct H as [[-> _]|[-> _]]|rewrite H]; lia.
Qed.

(** The cheapest way to a cell costs one per step, and a half more when the
    cell is neither in the row nor in the column of the start. *)
Definition off (c : Z * Z) : Z :=
  if (c.1 =? startId.1) || (c.2 =? startId.2) then 0 else 1.

Definition gstar (c : Z * Z) : Z := 2 * manh startId c + off c.

Lemma off_cases c :
  (off c = 0 ∧ (c.1 = startId.1 ∨ c.2 = startId.2)) ∨
  (off c = 1 ∧ c.1 ≠ startId.1 ∧ c.2 ≠ startId.2).
Proof.
  unfold off. destruct (Z.eqb_spec c.1 startId.1); destruct (Z.eqb_spec c.2 startId.2);
    simpl; auto.
Qed.

Lemma wf_g_steps n : wf n → 2 * manh startId (node_id n) ≤ node_g n.
Proof.
  induction 1 as [|p c Hp IH Hc]; unfold manh, getHeuristic in *; simpl; [lia|].
  rewrite costF_eq. pose proof (turnPenalty_range p c.1 c.2).
  rewrite (wf_id p Hp) in IH. simpl in IH.
  destruct (neighbors_cases p c Hc) as [[E1 E2]|[[E1 E2]|[[E1 E2]|[E1 E2]]]]; lia.
Qed.

Lemma wf_not_root_parent n :
  wf n → node_id n ≠ startId → ∃ p, node_parent n = Some p.
Proof. intros [|p c _ _] Hne; [done|by exists p]. Qed.

(** Everything known about a node and the node it was pushed from, as
    equations on coordinates. *)
Lemma wf_parent_facts n p :
  wf n → node_parent n = Some p →
  wf p ∧
  node_id n = (node_x n, node_y n) ∧ node_id p = (node_x p, node_y p) ∧
  ((node_x n = node_x p ∧ node_y n = node_y p - 1) ∨
   (node_x n = node_x p ∧ node_y n = node_y p + 1) ∨
   (node_x n = node_x p - 1 ∧ node_y n = node_y p) ∨
   (node_x n = node_x p + 1 ∧ node_y n = node_y p)) ∧
  node_g n = node_g p + 2 + turnPenalty p (node_x n) (node_y n) ∧
  2 * manh startId (node_id p) ≤ node_g p.
Proof.
  intros Hn Hp. destruct (wf_parent n p Hn Hp) as (Hwp & Hnb & Hg).
  pose proof (wf_id n Hn) as Hid. repeat split; auto using wf_id, wf_g_steps.
  apply neighbors_cases in Hnb. by rewrite Hid in Hnb.
Qed.

Ltac coords :=
  unfold gstar, manh, getHeuristic in *;
  repeat match goal with
    | H : node_id ?n = (_, _) |- _ => rewrite H in *; clear H
    end;
  simpl in *.

Lemma wf_g_gstar n : wf n → gstar (node_id n) ≤ node_g n.
Proof.
  induction 1 as [|p c Hp IH Hc].
  { unfold gstar, off, manh, getHeuristic. simpl. rewrite Z.eqb_refl. simpl. lia. }
  pose proof (wf_g_steps _ (wf_child p c Hp Hc)) as Hsteps.
  simpl in *. rewrite costF_eq in *.
  pose proof (wf_id p Hp) as Hidp.
  apply neighbors_cases in Hc.
  pose proof (turnPenalty_cases p c.1 c.2) as Htp.
  destruct (off_cases c) as [[Hoc Hc0]|[Hoc Hc1]]; [unfold gstar; lia|].
  destruct (off_cases (node_id p)) as [[Hop Hp0]|[Hop Hp1]].
  - destruct (node_parent p) as [pp|] eqn:Hpp.
    + destruct (wf_parent_facts p pp Hp Hpp) as (Hwpp & _ & Hidpp & Hnbp & Hgp & Hkpp).
      pose proof (turnPenalty_range pp (node_x p) (node_y p)).
      coords. destruct Htp as [(-> & E1 & E2)|[-> _]]; lia.
    + rewrite (wf_orphan p Hp Hpp) in *. coords. lia.
  - coords. pose proof (turnPenalty_range p c.1 c.2). lia.
Qed.

(** A node that reaches its cell at the least cost was pushed from a node
    that reached its own cell at the least cost, one step nearer the start;
    between two cells off the row and column of the start that step went
    straight on. *)
Lemma wf_opt_parent n p :
  wf n → node_parent n = Some p → node_g n = gstar (node_id n) →
  node_g p = gstar (node_id p) ∧
  manh startId (node_id p) + 1 = manh startId (node_id n) ∧
  (off (node_id n) = 1 → off (node_id p) = 1 →
   turnPenalty p (node_x n) (node_y n) = 0).
Proof.
  intros Hn Hp Hopt.
  destruct (wf_parent_facts n p Hn Hp) as (Hwp & Hidn & Hidp & Hnb & Hg & Hkp).
  pose proof (wf_g_gstar p Hwp) as Hlow.
  pose proof (turnPenalty_range p (node_x n) (node_y n)) as Hr.
  pose proof (turnPenalty_cases p (node_x n) (node_y n)) as Htp.
  destruct (off_cases (node_id n)) as [[Hon Hn0]|[Hon Hn1]];
    destruct (off_cases (node_id p)) as [[Hop Hp0]|[Hop Hp1]].
  - coords. lia.
  - coords. lia.
  - destruct (node_parent p) as [pp|] eqn:Hpp.
    + destruct (wf_parent_facts p pp Hwp Hpp) as (Hwpp & _ & Hidpp & Hnbp & Hgp & Hkpp).
      pose proof (turnPenalty_range pp (node_x p) (node_y p)).
      coords. destruct Htp as [(E0 & E1 & E2)|[E0 _]]; lia.
    + rewrite (wf_orphan p Hwp Hpp) in *. coords. lia.
  - coords. lia.
Qed.

(** *** The invariant of the search

    [closed] lists the nodes expanded so far and [expanding] the node whose
    neighbours are being walked; neither is stored by the source. *)

Definition known (st : SearchState) (expanding closed : list AStarNode) (n : AStarNode)
  : Prop :=
  n ∈ openSet st ∨ n ∈ expanding ∨ n ∈ closed.

Record Inv (st : SearchState) (expanding closed : list AStarNode) : Prop := mkInv {
  inv_heap : MinHeap.heap_par node_f (openSet st);
  inv_wf : ∀ n, known st expanding closed n → wf n;
  inv_seen : ∀ n, known st expanding closed n →
             ∃ v, visited st !! node_id n = Some v ∧ v ≤ node_g n;
  inv_owner : ∀ c v, visited st !! c = Some v →
              ∃ n, known st expanding closed n ∧ node_id n = c ∧ node_g n = v;
  inv_uniq : ∀ n m, known st expanding closed n → known st expanding closed m →
             node_id n = node_id m → node_g n = node_g m → n = m;
  inv_closed : ∀ n, n ∈ closed →
               node_id n ≠ endId ∧
               ∀ c, c ∈ neighbors n → enter c = true →
                    ∃ v, visited st !! c = Some v ∧ v ≤ costF n c;
  inv_parent : ∀ n p, known st expanding closed n → node_parent n = Some p →
               p ∈ expanding ∨ p ∈ closed;
  inv_start : visited st !! startId = Some 0
}.

Definition lower (vis vis' : gmap (Z * Z) Z) : Prop :=
  ∀ c v, vis !! c = Some v → ∃ v', vis' !! c = Some v' ∧ v' ≤ v.

Lemma lower_refl vis : lower vis vis.
Proof. intros c v Hv. exists v. split; [done|lia]. Qed.

Lemma lower_trans vis1 vis2 vis3 : lower vis1 vis2 → lower vis2 vis3 → lower vis1 vis3.
Proof.
  intros H1 H2 c v Hv. destruct (H1 c v Hv) as (v' & Hv' & Hle).
  destruct (H2 c v' Hv') as (v'' & Hv'' & Hle'). exists v''. split; [done|lia].
Qed.

Lemma elem_of_push (m n : AStarNode) heap :
  n ∈ MinHeap.push node_f m heap ↔ n = m ∨ n ∈ heap.
Proof. rewrite (push_perm node_f m heap). apply elem_of_cons. Qed.

Lemma elem_of_pop (n current : AStarNode) heap rest :
  MinHeap.pop node_f heap = (Some current, rest) →
  n ∈ heap ↔ n = current ∨ n ∈ rest.
Proof. intros Hpop. rewrite (pop_perm node_f heap current rest Hpop). apply elem_of_cons. Qed.

(** The invariant at the start. *)
Lemma Inv_initial : Inv (initialState startId endId) [] [].
Proof.
  assert (∀ n, known (initialState startId endId) [] [] n → n = root) as Hk.
  { intros n [Hn|[Hn|Hn]]; [|by apply elem_of_nil in Hn..].
    apply list_elem_of_singleton in Hn. by rewrite <- startNode_root. }
  split.
  - intros j x y Hj Hx. destruct j; [lia|done].
  - intros n ->%Hk. constructor.
  - intros n ->%Hk. exists 0. simpl. by rewrite lookup_insert_eq.
  - intros c v. simpl. destruct (decide (c = startId)) as [->|Hc].
    + rewrite lookup_insert_eq. intros [= <-]. exists root.
      repeat split. left. rewrite <- startNode_root. by apply list_elem_of_singleton.
    + by rewrite lookup_insert_ne, lookup_empty.
  - by intros n m ->%Hk ->%Hk.
  - by intros n ?%elem_of_nil.
  - by intros n p ->%Hk.
  - simpl. by rewrite lookup_insert_eq.
Qed.

(** Popping a node that is not stale moves it to [expanding]. *)
Lemma Inv_pop st closed current rest :
  Inv st [] closed →
  MinHeap.pop node_f (openSet st) = (Some current, rest) →
  Inv {| openSet := rest; visited := visited st |} [current] closed.
Proof.
  intros [Hheap Hwf Hseen Hown Huniq Hclosed Hpar Hstart] Hpop.
  assert (∀ n, known {| openSet := rest; visited := visited st |} [current] closed n ↔
               known st [] closed n) as Hk.
  { intros n. unfold known. simpl. rewrite (elem_of_pop n current _ rest Hpop).
    rewrite list_elem_of_singleton, elem_of_nil. tauto. }
  split; simpl.
  - by apply (pop_min node_f _ current rest Hheap Hpop).
  - intros n ?%Hk. by apply Hwf.
  - intros n ?%Hk. by apply Hseen.
  - intros c v Hv. destruct (Hown c v Hv) as (n & Hn & Hid & Hg).
    exists n. by rewrite Hk.
  - intros n m ?%Hk ?%Hk. by apply Huniq.
  - done.
  - intros n p ?%Hk Hp. destruct (Hpar n p) as [[]%elem_of_nil|?]; auto.
  - done.
Qed.

(** Dropping a stale node keeps the invariant. *)
Lemma Inv_stale st closed current rest :
  Inv st [] closed →
  MinHeap.pop node_f (openSet st) = (Some current, rest) →
  isStale current st = true →
  Inv {| openSet := rest; visited := visited st |} [] closed.
Proof.
  intros [Hheap Hwf Hseen Hown Huniq Hclosed Hpar Hstart] Hpop Hstale.
  assert (∀ n, known {| openSet := rest; visited := visited st |} [] closed n →
               known st [] closed n) as Hk.
  { intros n. unfold known. simpl. rewrite (elem_of_pop n current _ rest Hpop). tauto. }
  split; simpl.
  - by apply (pop_min node_f _ current rest Hheap Hpop).
  - intros n ?%Hk. by apply Hwf.
  - intros n ?%Hk. by apply Hseen.
  - intros c v Hv. destruct (Hown c v Hv) as (n & Hn & Hid & Hg).
    exists n. repeat split; auto.
    destruct Hn as [Hn|Hn]; [|by right].
    apply (elem_of_pop n current _ rest Hpop) in Hn as [->|Hn]; [|by left].
    unfold isStale in Hstale. rewrite Hid, Hv in Hstale.
    apply Z.ltb_lt in Hstale. lia.
  - intros n m ?%Hk ?%Hk. by apply Huniq.
  - done.
  - intros n p ?%Hk Hp. by apply (Hpar n p).
  - done.
Qed.

(** Pushing the node of a neighbour keeps the invariant. *)
Lemma Inv_push st closed current n :
  Inv st [current] closed → n ∈ neighbors current →
  enter n = true → improves endId ∅ ∅ reservedCells strictMode st current n = true →
  Inv (pushed endId ∅ ∅ reservedCells strictMode st current n) [current] closed.
Proof.
  intros [Hheap Hwf Hseen Hown Huniq Hclosed Hpar Hstart] Hn He Hi.
  set (m := child current n).
  set (st' := pushed endId ∅ ∅ reservedCells strictMode st current n).
  assert (known st [current] closed current) as Hcur
    by (right; left; by apply list_elem_of_singleton).
  assert (∀ u, known st' [current] closed u ↔ u = m ∨ known st [current] closed u) as Hk.
  { intros u. unfold known, st', pushed. simpl.
    rewrite elem_of_push, neighborNode_child. fold m. tauto. }
  assert (visited st' = <[n := node_g m]> (visited st)) as Hvis by done.
  assert (node_id m = n) as Hidm by done.
  assert (∀ u v, known st [current] closed u → node_id u = n →
                 visited st !! n = Some v → node_g m < v ∧ v ≤ node_g u) as Hbeat.
  { intros u v Hu Hid Hv. destruct (Hseen u Hu) as (v' & Hv' & Hle).
    rewrite Hid, Hv in Hv'. injection Hv' as <-.
    unfold improves in Hi. rewrite Hv in Hi. apply Z.ltb_lt in Hi. split; [exact Hi|lia]. }
  assert (0 ≤ node_g current) as Hg0.
  { pose proof (wf_g_steps current (Hwf current Hcur)). unfold manh, getHeuristic in *. lia. }
  assert (2 ≤ node_g m) as Hgm.
  { unfold m. simpl. rewrite costF_eq. pose proof (turnPenalty_range current n.1 n.2). lia. }
  split.
  - by apply push_heap_par.
  - intros u [->|Hu]%Hk; [|by apply Hwf]. apply wf_child; [by apply Hwf|done].
  - intros u [->|Hu]%Hk; rewrite Hvis.
    + rewrite Hidm, lookup_insert_eq. exists (node_g m). split; [done|lia].
    + destruct (decide (node_id u = n)) as [Hid|Hid].
      * rewrite Hid, lookup_insert_eq. exists (node_g m). split; [done|].
        destruct (Hseen u Hu) as (v & Hv & Hle). rewrite Hid in Hv.
        destruct (Hbeat u v Hu Hid Hv). lia.
      * rewrite lookup_insert_ne by done. by apply Hseen.
  - intros c v. rewrite Hvis. destruct (decide (c = n)) as [->|Hc].
    + rewrite lookup_insert_eq. intros [= <-]. exists m. rewrite Hk. auto.
    + rewrite lookup_insert_ne by done. intros Hv.
      destruct (Hown c v Hv) as (u & Hu & Hid & Hg). exists u. rewrite Hk. auto.
  - intros u w [->|Hu]%Hk [->|Hw]%Hk Hid Hg; [done| | |by apply Huniq].
    + exfalso. destruct (Hseen w Hw) as (v & Hv & Hle). rewrite <- Hid, Hidm in Hv.
      destruct (Hbeat w v Hw (eq_sym Hid) Hv). lia.
    + exfalso. destruct (Hseen u Hu) as (v & Hv & Hle). rewrite Hid, Hidm in Hv.
      destruct (Hbeat u v Hu Hid Hv). lia.
  - intros u Hu. destruct (Hclosed u Hu) as [Hne Hnb]. split; [done|].
    intros c Hc Hec. destruct (Hnb c Hc Hec) as (v & Hv & Hle). rewrite Hvis.
    destruct (decide (c = n)) as [->|Hcn].
    + rewrite lookup_insert_eq. exists (node_g m). split; [done|].
      unfold improves in Hi. rewrite Hv in Hi. apply Z.ltb_lt in Hi.
      change (node_g m) with (costF current n). lia.
    + rewrite lookup_insert_ne by done. by exists v.
  - intros u q [->|Hu]%Hk Hq; [|by apply (Hpar u q)].
    injection Hq as <-. left. by apply list_elem_of_singleton.
  - rewrite Hvis. destruct (decide (startId = n)) as [<-|Hs].
    + exfalso. unfold improves in Hi. rewrite Hstart in Hi. apply Z.ltb_lt in Hi.
      change (costF current startId) with (node_g m) in Hi. lia.
    + by rewrite lookup_insert_ne.
Qed.

Lemma lower_pushed st current n :
  improves endId ∅ ∅ reservedCells strictMode st current n = true →
  lower (visited st) (visited (pushed endId ∅ ∅ reservedCells strictMode st current n)).
Proof.
  intros Hi c v Hv. simpl. destruct (decide (c = n)) as [->|Hc].
  - rewrite lookup_insert_eq. eexists. split; [done|].
    unfold improves in Hi. rewrite Hv in Hi. apply Z.ltb_lt in Hi. lia.
  - rewrite lookup_insert_ne by done. exists v. split; [done|lia].
Qed.

(** Walking the neighbours keeps the invariant, only lowers [visited], and
    leaves every neighbour that can be entered with an entry no larger than
    the cost of reaching it through [current]. *)
Lemma Inv_fold closed current ns st :
  Inv st [current] closed → (∀ n, n ∈ ns → n ∈ neighbors current) →
  Inv (fold_left (relaxF current) ns st) [current] closed ∧
  lower (visited st) (visited (fold_left (relaxF current) ns st)) ∧
  ∀ n, n ∈ ns → enter n = true →
       ∃ v, visited (fold_left (relaxF current) ns st) !! n = Some v ∧ v ≤ costF current n.
Proof.
  revert st. induction ns as [|n ns IH]; intros st Hinv Hns; simpl.
  { split; [done|]. split; [apply lower_refl|]. by intros n ?%elem_of_nil. }
  assert (n ∈ neighbors current) as Hn by (apply Hns; by left).
  set (st1 := relaxF current st n).
  assert (Inv st1 [current] closed ∧ lower (visited st) (visited st1) ∧
          (enter n = true → ∃ v, visited st1 !! n = Some v ∧ v ≤ costF current n))
    as (Hinv1 & Hlow1 & Hn1).
  { unfold st1. rewrite relax_eq.
    destruct (enter n) eqn:He; simpl.
    2:{ split; [done|]. split; [apply lower_refl|done]. }
    destruct (improves _ _ _ _ _ st current n) eqn:Hi.
    - split; [by apply Inv_push|]. split; [by apply lower_pushed|].
      intros _. simpl. rewrite lookup_insert_eq. eexists. split; [done|]. lia.
    - split; [done|]. split; [apply lower_refl|]. intros _.
      unfold improves in Hi. destruct (visited st !! n) as [best|]; [|done].
      exists best. split; [done|]. apply Z.ltb_ge in Hi. exact Hi. }
  destruct (IH st1 Hinv1) as (Hinv' & Hlow' & Hns').
  { intros k Hk. apply Hns. by right. }
  split; [done|]. split; [by apply (lower_trans _ (visited st1))|].
  intros k [->|Hk]%elem_of_cons Hek; [|by apply Hns'].
  destruct (Hn1 Hek) as (v & Hv & Hle). destruct (Hlow' n v Hv) as (v' & Hv' & Hle').
  exists v'. split; [done|lia].
Qed.

(** Once the neighbours are walked the node is closed. *)
Lemma Inv_close st closed current :
  Inv st [current] closed → node_id current ≠ endId →
  (∀ n, n ∈ neighbors current → enter n = true →
        ∃ v, visited st !! n = Some v ∧ v ≤ costF current n) →
  Inv st [] (current :: closed).
Proof.
  intros [Hheap Hwf Hseen Hown Huniq Hclosed Hpar Hstart] Hne Hnb.
  assert (∀ n, known st [] (current :: closed) n ↔ known st [current] closed n) as Hk.
  { intros n. unfold known. rewrite elem_of_nil, list_elem_of_singleton, elem_of_cons. tauto. }
  split.
  - done.
  - intros n ?%Hk. by apply Hwf.
  - intros n ?%Hk. by apply Hseen.
  - intros c v Hv. destruct (Hown c v Hv) as (n & Hn & Hid & Hg). exists n. by rewrite Hk.
  - intros n m ?%Hk ?%Hk. by apply Huniq.
  - intros n [->|Hn]%elem_of_cons; [by split|by apply Hclosed].
  - intros n p ?%Hk Hp. right.
    destruct (Hpar n p) as [->%list_elem_of_singleton|?]; auto; [by left|by right].
  - done.
Qed.

(** A round of the loop that does not return keeps the invariant. *)
Lemma Inv_step st closed st' :
  Inv st [] closed → stepF st = inr st' → ∃ closed', Inv st' [] closed'.
Proof.
  intros Hinv (current & rest & Hpop & Hid & ->)%searchStep_inr.
  destruct (isStale current st) eqn:Hstale.
  { exists closed. by apply (Inv_stale st closed current rest). }
  exists (current :: closed).
  destruct (Inv_fold closed current (neighbors current)
              {| openSet := rest; visited := visited st |}) as (Hinv' & _ & Hnb);
    [by apply Inv_pop|done|].
  by apply Inv_close.
Qed.

(** *** A cheap node is always waiting in the open set *)

Context (Hne : startId ≠ endId).

(** The cells on the shortest ways from the start to the goal. *)
Definition inBox (c : Z * Z) : Prop :=
  manh startId c + manh c endId = manh startId endId.

Context (Hbox : ∀ c, inBox c → enter c = true).

Definition towardX (c : Z * Z) : Z * Z :=
  (if startId.1 <? c.1 then c.1 - 1 else c.1 + 1, c.2).
Definition towardY (c : Z * Z) : Z * Z :=
  (c.1, if startId.2 <? c.2 then c.2 - 1 else c.2 + 1).

Lemma towardX_facts c :
  inBox c → c.1 ≠ startId.1 →
  inBox (towardX c) ∧ manh startId (towardX c) + 1 = manh startId c ∧
  (towardX c).2 = c.2 ∧
  (((towardX c).1 = c.1 - 1 ∧ startId.1 < c.1) ∨ ((towardX c).1 = c.1 + 1 ∧ c.1 < startId.1)).
Proof.
  unfold inBox, towardX, manh, getHeuristic. simpl.
  destruct (Z.ltb_spec startId.1 c.1); intros; repeat split; lia.
Qed.

Lemma towardY_facts c :
  inBox c → c.2 ≠ startId.2 →
  inBox (towardY c) ∧ manh startId (towardY c) + 1 = manh startId c ∧
  (towardY c).1 = c.1 ∧
  (((towardY c).2 = c.2 - 1 ∧ startId.2 < c.2) ∨ ((towardY c).2 = c.2 + 1 ∧ c.2 < startId.2)).
Proof.
  unfold inBox, towardY, manh, getHeuristic. simpl.
  destruct (Z.ltb_spec startId.2 c.2); intros; repeat split; lia.
Qed.

Lemma neighbors_intro (n : AStarNode) (c : Z * Z) :
  (c.1 = node_x n ∧ c.2 = node_y n - 1) ∨ (c.1 = node_x n ∧ c.2 = node_y n + 1) ∨
  (c.1 = node_x n - 1 ∧ c.2 = node_y n) ∨ (c.1 = node_x n + 1 ∧ c.2 = node_y n) →
  c ∈ neighbors n.
Proof.
  destruct c as [cx cy]. unfold neighbors. simpl. rewrite !elem_of_cons.
  intros [[-> ->]|[[-> ->]|[[-> ->]|[-> ->]]]]; auto.
Qed.

Definition cheap (st : SearchState) : Prop :=
  ∃ n, n ∈ openSet st ∧ node_f n ≤ 2 * manh startId endId + 1.

Definition settled (closed : list AStarNode) (c : Z * Z) : Prop :=
  ∃ n, n ∈ closed ∧ node_id n = c ∧ node_g n = gstar c.

Lemma off_range c : 0 ≤ off c ≤ 1.
Proof. destruct (off_cases c) as [[-> _]|[-> _]]; lia. Qed.

(** A cell of the box whose entry is as low as can be has its node either
    in the open set, where it is cheap, or among the closed ones. *)
Lemma settle st closed c v :
  Inv st [] closed → inBox c → visited st !! c = Some v → v ≤ gstar c →
  cheap st ∨ settled closed c.
Proof.
  intros Hinv Hc Hv Hle.
  destruct (inv_owner _ _ _ Hinv c v Hv) as (n & Hn & Hid & Hg).
  pose proof (inv_wf _ _ _ Hinv n Hn) as Hwf.
  pose proof (wf_g_gstar n Hwf) as Hlow. rewrite Hid in Hlow.
  destruct Hn as [Hn|[[]%elem_of_nil|Hn]].
  - left. exists n. split; [done|]. rewrite (wf_f n Hwf), Hid.
    pose proof (off_range c). unfold inBox, gstar in *. lia.
  - right. exists n. repeat split; auto. lia.
Qed.

(** What a closed node says about a neighbour in the box. *)
Lemma closed_neighbour st closed n c :
  Inv st [] closed → n ∈ closed → inBox c →
  (c.1 = node_x n ∧ c.2 = node_y n - 1) ∨ (c.1 = node_x n ∧ c.2 = node_y n + 1) ∨
  (c.1 = node_x n - 1 ∧ c.2 = node_y n) ∨ (c.1 = node_x n + 1 ∧ c.2 = node_y n) →
  ∃ v, visited st !! c = Some v ∧ v ≤ node_g n + 2 + turnPenalty n c.1 c.2.
Proof.
  intros Hinv Hn Hc Hadj.
  destruct (inv_closed _ _ _ Hinv n Hn) as [_ Hnb].
  destruct (Hnb c (neighbors_intro n c Hadj) (Hbox c Hc)) as (v & Hv & Hle).
  exists v. split; [done|]. by rewrite costF_eq in Hle.
Qed.

Lemma id_coords n q : wf n → node_id n = q → node_x n = q.1 ∧ node_y n = q.2.
Proof. intros Hwf <-. by rewrite (wf_id n Hwf). Qed.

Lemma manh_node a n :
  wf n → manh a (node_id n) = Z.abs (a.1 - node_x n) + Z.abs (a.2 - node_y n).
Proof. intros Hwf. by rewrite (wf_id n Hwf). Qed.

Lemma off_node n :
  wf n →
  (off (node_id n) = 0 ∧ (node_x n = startId.1 ∨ node_y n = startId.2)) ∨
  (off (node_id n) = 1 ∧ node_x n ≠ startId.1 ∧ node_y n ≠ startId.2).
Proof.
  intros Hwf. pose proof (off_cases (node_id n)) as H.
  destruct (id_coords n _ Hwf eq_refl) as [-> ->]. exact H.
Qed.

(** The cell before [c] on the way from the start, with its coordinates. *)
Definition isTowardX (q c : Z * Z) : Prop :=
  inBox q ∧ manh startId q + 1 = manh startId c ∧ q.2 = c.2 ∧
  ((q.1 = c.1 - 1 ∧ startId.1 < c.1) ∨ (q.1 = c.1 + 1 ∧ c.1 < startId.1)).
Definition isTowardY (q c : Z * Z) : Prop :=
  inBox q ∧ manh startId q + 1 = manh startId c ∧ q.1 = c.1 ∧
  ((q.2 = c.2 - 1 ∧ startId.2 < c.2) ∨ (q.2 = c.2 + 1 ∧ c.2 < startId.2)).

(** Along the row and the column of the start the search goes straight. *)
Lemma turn_free_on_axis nq c :
  wf nq → node_g nq = gstar (node_id nq) → off c = 0 →
  isTowardX (node_id nq) c ∨ isTowardY (node_id nq) c →
  turnPenalty nq c.1 c.2 = 0.
Proof.
  intros Hwf Hopt Hoff Hq.
  pose proof (turnPenalty_cases nq c.1 c.2) as Htp.
  destruct (node_parent nq) as [p|] eqn:Hp; [|done].
  destruct Htp as [[? _]|[_ Hturn]]; [done|exfalso].
  destruct (wf_parent_facts nq p Hwf Hp) as (Hwp & _ & _ & Hnb & _ & _).
  destruct (wf_opt_parent nq p Hwf Hp Hopt) as (_ & Hstep & _).
  rewrite (manh_node _ p Hwp), (manh_node _ nq Hwf) in Hstep.
  destruct (off_cases c) as [[_ Hax]|[? _]]; [|lia].
  unfold isTowardX, isTowardY in Hq.
  destruct (id_coords nq _ Hwf eq_refl) as [Hx1 Hy1].
  destruct Hq as [(_ & _ & Hy & Hx)|(_ & _ & Hx & Hy)]; lia.
Qed.

Lemma box_step_axis st closed c nq :
  Inv st [] closed → inBox c → off c = 0 →
  nq ∈ closed → node_g nq = gstar (node_id nq) →
  isTowardX (node_id nq) c ∨ isTowardY (node_id nq) c →
  cheap st ∨ settled closed c.
Proof.
  intros Hinv Hc Hoff Hn Hopt Hq.
  assert (wf nq) as Hwf by (apply (inv_wf _ _ _ Hinv); right; by right).
  pose proof (turn_free_on_axis nq c Hwf Hopt Hoff Hq) as Htp.
  destruct (id_coords nq _ Hwf eq_refl) as [Hx1 Hy1].
  destruct (off_cases c) as [[_ Hax]|[? _]]; [|lia].
  destruct (off_node nq Hwf) as [[Hoffq Haxq]|[Hoffq [Hq1 Hq2]]].
  2:{ unfold isTowardX, isTowardY in Hq. lia. }
  assert (manh startId (node_id nq) + 1 = manh startId c ∧
          ((c.1 = node_x nq ∧ c.2 = node_y nq - 1) ∨ (c.1 = node_x nq ∧ c.2 = node_y nq + 1) ∨
           (c.1 = node_x nq - 1 ∧ c.2 = node_y nq) ∨ (c.1 = node_x nq + 1 ∧ c.2 = node_y nq)))
    as (Hstep & Hadj).
  { unfold isTowardX, isTowardY in Hq. split; [tauto|lia]. }
  destruct (closed_neighbour st closed nq c Hinv Hn Hc Hadj) as (v & Hv & Hle).
  apply (settle st closed c v Hinv Hc Hv).
  unfold gstar in *. lia.
Qed.

(** Off the row and the column of the start: the two cells before [c]
    cannot both have been reached in a way that makes the step to [c] a
    second turn. *)
Lemma no_double_turn st closed c nH nV :
  Inv st [] closed → off c = 1 →
  nH ∈ closed → node_g nH = gstar (node_id nH) → isTowardX (node_id nH) c →
  nV ∈ closed → node_g nV = gstar (node_id nV) → isTowardY (node_id nV) c →
  off (node_id nH) = 1 → off (node_id nV) = 1 →
  turnPenalty nH c.1 c.2 = 1 → turnPenalty nV c.1 c.2 = 1 → False.
Proof.
  intros Hinv Hoff HnH HoptH HqH HnV HoptV HqV HoffH HoffV HtH HtV.
  assert (known st [] closed nH) as HkH by (right; by right).
  assert (known st [] closed nV) as HkV by (right; by right).
  pose proof (inv_wf _ _ _ Hinv nH HkH) as HwH.
  pose proof (inv_wf _ _ _ Hinv nV HkV) as HwV.
  destruct (id_coords nH _ HwH eq_refl) as [HxH HyH].
  destruct (id_coords nV _ HwV eq_refl) as [HxV HyV].
  destruct (off_cases c) as [[? _]|[_ [Hc1 Hc2]]]; [congruence|].
  destruct (off_node nH HwH) as [[? _]|[_ [HH1 HH2]]]; [congruence|].
  destruct (off_node nV HwV) as [[? _]|[_ [HV1 HV2]]]; [congruence|].
  unfold isTowardX in HqH. unfold isTowardY in HqV.
  destruct HqH as (_ & _ & HqHy & HqHx). destruct HqV as (_ & _ & HqVx & HqVy).
  destruct (wf_not_root_parent nH HwH) as [pH HpH].
  { intros E. rewrite E in HxH. congruence. }
  destruct (wf_not_root_parent nV HwV) as [pV HpV].
  { intros E. rewrite E in HxV. congruence. }
  destruct (wf_parent_facts nH pH HwH HpH) as (HwpH & _ & _ & HnbH & _ & _).
  destruct (wf_parent_facts nV pV HwV HpV) as (HwpV & _ & _ & HnbV & _ & _).
  destruct (wf_opt_parent nH pH HwH HpH HoptH) as (HgH & HstepH & HstrH).
  destruct (wf_opt_parent nV pV HwV HpV HoptV) as (HgV & HstepV & HstrV).
  rewrite (manh_node _ pH HwpH), (manh_node _ nH HwH) in HstepH.
  rewrite (manh_node _ pV HwpV), (manh_node _ nV HwV) in HstepV.
  pose proof (turnPenalty_cases nH c.1 c.2) as HcH. rewrite HpH in HcH.
  pose proof (turnPenalty_cases nV c.1 c.2) as HcV. rewrite HpV in HcV.
  destruct HcH as [[? _]|[_ HcH]]; [congruence|].
  destruct HcV as [[? _]|[_ HcV]]; [congruence|].
  assert (node_x pH = node_x nH ∧ node_y pH = node_y nV) as [ExH EyH].
  { clear - HnbH HstepH HcH HqHx HqHy HqVx HqVy HH1 HH2 HxH HyH HxV HyV.
    destruct HnbH as [[? ?]|[[? ?]|[[? ?]|[? ?]]]]; lia. }
  assert (node_x pV = node_x nH ∧ node_y pV = node_y nV) as [ExV EyV].
  { clear - HnbV HstepV HcV HqHx HqHy HqVx HqVy HV1 HV2 HxH HyH HxV HyV.
    destruct HnbV as [[? ?]|[[? ?]|[[? ?]|[? ?]]]]; lia. }
  assert (pH = pV) as <-.
  { apply (inv_uniq _ _ _ Hinv).
    - destruct (inv_parent _ _ _ Hinv nH pH HkH HpH) as [[]%elem_of_nil|?]. right; by right.
    - destruct (inv_parent _ _ _ Hinv nV pV HkV HpV) as [[]%elem_of_nil|?]. right; by right.
    - rewrite (wf_id pH HwpH), (wf_id pV HwpV). congruence.
    - rewrite HgH, HgV. f_equal. rewrite (wf_id pH HwpH), (wf_id pV HwpV). congruence. }
  destruct (off_node pH HwpH) as [[_ Hax]|[Hoffp [Hp1 Hp2]]].
  { clear - Hax ExH EyH HH1 HV2. lia. }
  specialize (HstrH HoffH Hoffp). specialize (HstrV HoffV Hoffp).
  destruct (id_coords pH _ HwpH eq_refl) as [Hxp Hyp].
  destruct (wf_not_root_parent pH HwpH) as [pp Hpp].
  { intros E. rewrite E in Hxp. congruence. }
  pose proof (turnPenalty_cases pH (node_x nH) (node_y nH)) as H1. rewrite Hpp in H1.
  pose proof (turnPenalty_cases pH (node_x nV) (node_y nV)) as H2. rewrite Hpp in H2.
  destruct H1 as [(_ & H1x & H1y)|[? _]]; [|congruence].
  destruct H2 as [(_ & H2x & H2y)|[? _]]; [|congruence].
  clear - H1x H1y H2x H2y HqHx HqHy HqVx HqVy HxH HyH HxV HyV. lia.
Qed.

Lemma box_step_off st closed c nH nV :
  Inv st [] closed → inBox c → off c = 1 →
  nH ∈ closed → node_g nH = gstar (node_id nH) → isTowardX (node_id nH) c →
  nV ∈ closed → node_g nV = gstar (node_id nV) → isTowardY (node_id nV) c →
  cheap st ∨ settled closed c.
Proof.
  intros Hinv Hc Hoff HnH HoptH HqH HnV HoptV HqV.
  assert (wf nH) as HwH by (apply (inv_wf _ _ _ Hinv); right; by right).
  assert (wf nV) as HwV by (apply (inv_wf _ _ _ Hinv); right; by right).
  destruct (id_coords nH _ HwH eq_refl) as [HxH HyH].
  destruct (id_coords nV _ HwV eq_refl) as [HxV HyV].
  pose proof HqH as (_ & HsH & HqHy & HqHx). pose proof HqV as (_ & HsV & HqVx & HqVy).
  destruct (closed_neighbour st closed nH c Hinv HnH Hc ltac:(lia)) as (v & Hv & HleH).
  destruct (closed_neighbour st closed nV c Hinv HnV Hc ltac:(lia)) as (v' & Hv' & HleV).
  assert (v' = v) as -> by congruence.
  apply (settle st closed c v Hinv Hc Hv).
  pose proof (turnPenalty_range nH c.1 c.2) as HrH.
  pose proof (turnPenalty_range nV c.1 c.2) as HrV.
  pose proof (off_range (node_id nH)) as HoH.
  pose proof (off_range (node_id nV)) as HoV.
  destruct (decide (off (node_id nH) = 1 ∧ off (node_id nV) = 1 ∧
                    turnPenalty nH c.1 c.2 = 1 ∧ turnPenalty nV c.1 c.2 = 1))
    as [(E1 & E2 & E3 & E4)|Hno].
  - exfalso. by apply (no_double_turn st closed c nH nV).
  - unfold gstar in *. lia.
Qed.

Lemma manh_nonneg a b : 0 ≤ manh a b.
Proof. unfold manh, getHeuristic. lia. Qed.

Lemma box_claim st closed :
  Inv st [] closed →
  ∀ k c, manh startId c = Z.of_nat k → inBox c → cheap st ∨ settled closed c.
Proof.
  intros Hinv k. induction k as [k IH] using lt_wf_ind. intros c Hk Hc.
  assert (∀ q, inBox q → manh startId q + 1 = manh startId c →
               cheap st ∨ settled closed q) as Hprev.
  { intros q Hq Hs. pose proof (manh_nonneg startId q).
    apply (IH (Z.to_nat (manh startId q))); [lia|lia|done]. }
  destruct (off_cases c) as [[Hoff Hax]|[Hoff [Hc1 Hc2]]].
  - destruct (decide (c.1 = startId.1)) as [E1|Hc1];
      [destruct (decide (c.2 = startId.2)) as [E2|Hc2]|].
    + assert (c = startId) as -> by (destruct c, startId; simpl in *; congruence).
      apply (settle st closed startId 0 Hinv Hc (inv_start _ _ _ Hinv)).
      pose proof (off_range startId). pose proof (manh_nonneg startId startId).
      unfold gstar. lia.
    + destruct (towardY_facts c Hc Hc2) as (Hq & Hs & Hx & Hy).
      destruct (Hprev _ Hq Hs) as [?|(nq & Hn & Hid & Hg)]; [by left|].
      apply (box_step_axis st closed c nq Hinv Hc Hoff Hn); rewrite Hid; [done|].
      right. by repeat split.
    + destruct (towardX_facts c Hc Hc1) as (Hq & Hs & Hy & Hx).
      destruct (Hprev _ Hq Hs) as [?|(nq & Hn & Hid & Hg)]; [by left|].
      apply (box_step_axis st closed c nq Hinv Hc Hoff Hn); rewrite Hid; [done|].
      left. by repeat split.
  - destruct (towardX_facts c Hc Hc1) as (HqH & HsH & HyH & HxH).
    destruct (towardY_facts c Hc Hc2) as (HqV & HsV & HxV & HyV).
    destruct (Hprev _ HqH HsH) as [?|(nH & HnH & HidH & HgH)]; [by left|].
    destruct (Hprev _ HqV HsV) as [?|(nV & HnV & HidV & HgV)]; [by left|].
    apply (box_step_off st closed c nH nV Hinv Hc Hoff HnH); rewrite ?HidH, ?HidV;
      try done; by repeat split.
Qed.

(** Until the goal is popped the open set holds a node whose [f] is the
    length of a shortest way, or half a step more. *)
Lemma cheap_node_waits st closed : Inv st [] closed → cheap st.
Proof.
  intros Hinv.
  destruct (box_claim st closed Hinv (Z.to_nat (manh startId endId)) endId) as [?|Hs];
    [pose proof (manh_nonneg startId endId); lia| |done|].
  { unfold inBox, manh, getHeuristic. lia. }
  destruct Hs as (n & Hn & Hid & _).
  by destruct (inv_closed _ _ _ Hinv n Hn).
Qed.

(** *** The path of a node *)

Lemma stepwise_snoc (l : list (Z * Z)) a c :
  stepwise l → last l = Some a → adjacent a c → stepwise (l ++ [c]).
Proof.
  intros Hl Hlast Hadj i x y Hx Hy.
  rewrite last_lookup in Hlast.
  destruct (decide (S i < length l)%nat) as [Hi|Hi].
  - rewrite lookup_app_l in Hx by lia. rewrite lookup_app_l in Hy by lia.
    by apply (Hl i).
  - assert (S i = length l) as Hlen.
    { apply lookup_lt_Some in Hy. rewrite length_app in Hy. simpl in Hy. lia. }
    rewrite lookup_app_l in Hx by lia.
    rewrite lookup_app_r, Hlen, Nat.sub_diag in Hy by lia. simpl in Hy.
    replace (Init.Nat.pred (length l)) with i in Hlast by lia. congruence.
Qed.

Lemma wf_path n :
  wf n →
  stepwise (reconstruct n []) ∧
  reconstruct n [] !! 0%nat = Some startId ∧
  last (reconstruct n []) = Some (node_id n) ∧
  2 * (len (reconstruct n []) - 1) ≤ node_g n.
Proof.
  induction 1 as [|p c Hp (Hstep & Hhead & Hlast & Hlen) Hc].
  { simpl. repeat split; [|unfold len; simpl; lia]. intros i a b Ha Hb. by destruct i. }
  unfold child. rewrite reconstruct_child. simpl.
  split; [|split; [|split]].
  - apply (stepwise_snoc _ (node_id p)); [done|done|].
    apply neighbors_cases in Hc. unfold adjacent. rewrite (wf_id p Hp).
    unfold manh, getHeuristic. simpl. lia.
  - destruct (reconstruct p []); [done|]. done.
  - by rewrite last_snoc.
  - rewrite costF_eq. pose proof (turnPenalty_range p c.1 c.2).
    unfold len in *. rewrite length_app. simpl. lia.
Qed.

Lemma stepwise_far (l : list (Z * Z)) :
  stepwise l → l !! 0%nat = Some startId →
  ∀ i a, l !! i = Some a → manh startId a ≤ Z.of_nat i.
Proof.
  intros Hl Hhead i. induction i as [|i IH]; intros a Ha.
  - assert (a = startId) as -> by congruence. unfold manh, getHeuristic. lia.
  - destruct (lookup_lt_is_Some_2 l i) as [b Hb]; [apply lookup_lt_Some in Ha; lia|].
    specialize (IH b Hb). pose proof (Hl i b a Hb Ha) as Hadj.
    unfold adjacent, manh, getHeuristic in *. lia.
Qed.

(** A goal node whose [f] is small enough has a shortest path. *)
Lemma cheap_goal_path n :
  wf n → node_id n = endId → node_f n ≤ 2 * manh startId endId + 1 →
  len (reconstruct n []) = manh startId endId + 1 ∧ stepwise (reconstruct n []).
Proof.
  intros Hwf Hid Hf. destruct (wf_path n Hwf) as (Hstep & Hhead & Hlast & Hlen).
  split; [|done].
  rewrite (wf_f n Hwf), Hid in Hf.
  assert (manh endId endId = 0) as Hzero by (unfold manh, getHeuristic; lia).
  rewrite last_lookup, Hid in Hlast.
  pose proof (stepwise_far _ Hstep Hhead _ _ Hlast) as Hfar.
  assert (0 < length (reconstruct n []))%nat.
  { destruct (reconstruct n []); [done|simpl; lia]. }
  unfold len in *. lia.
Qed.

Lemma loop_result fuel st closed r :
  Inv st [] closed → loopF fuel st = Done r →
  ∃ p, r = Some p ∧ len p = manh startId endId + 1 ∧ stepwise p.
Proof.
  revert st closed. induction fuel as [|fuel IH]; intros st closed Hinv; simpl; [done|].
  destruct (cheap_node_waits st closed Hinv) as (m & Hm & Hfm).
  destruct (stepF st) as [r'|st'] eqn:Hs.
  - intros [= <-].
    apply searchStep_inl in Hs as [[_ Hnil]|(current & rest & Hpop & Hid & ->)].
    { rewrite Hnil in Hm. by apply elem_of_nil in Hm. }
    destruct (pop_min node_f _ _ _ (inv_heap _ _ _ Hinv) Hpop) as [_ Hmin].
    pose proof (proj1 (Forall_forall _ _) Hmin m Hm) as Hle. simpl in Hle.
    assert (wf current) as Hwf.
    { apply (inv_wf _ _ _ Hinv). left. apply (elem_of_pop _ _ _ _ Hpop). by left. }
    eexists. split; [done|]. apply cheap_goal_path; [done|done|lia].
  - destruct (Inv_step st closed st' Hinv Hs) as [closed' Hinv']. by apply (IH st' closed').
Qed.

(** The search on a free box: it returns, and what it returns is a path of
    the length of the Manhattan distance plus one whose consecutive cells
    are next to each other. *)
Lemma free_box_path :
  ∃ fuel0, ∀ fuel, (fuel0 ≤ fuel)%nat →
    ∃ p, loopF fuel (initialState startId endId) = Done (Some p) ∧
         len p = manh startId endId + 1 ∧ stepwise p.
Proof.
  destruct (searchLoop_terminates endId grid ∅ ∅ reservedCells strictMode
              (initialState startId endId) (initialState_nonneg startId endId))
    as (fuel0 & r & Hr).
  destruct (loop_result fuel0 _ [] r Inv_initial Hr) as (p & -> & Hlen & Hstep).
  exists fuel0. intros fuel Hle. exists p. split; [|done].
  by apply (searchLoop_mono _ _ _ _ _ _ fuel0).
Qed.

End ObstacleFree.

(** A board of [W] columns and [H] rows without obstacles: every position
    holds a track or a station. *)
Definition freeBoard (W H : Z) (grid : Grid) : Prop :=
  ∀ x y, 0 ≤ x < W → 0 ≤ y < H →
         ∃ c, cellAt grid (x, y) = Some c ∧ isTraversable c = true.

Definition onBoard (W H : Z) (c : Z * Z) : Prop := 0 ≤ c.1 < W ∧ 0 ≤ c.2 < H.

(** C1.  On a board of traversable cells, with no trains (and so no
    reserved cell), the search between two distinct cells of the board
    returns a path whose length is the Manhattan distance between them plus
    one, and in which every two consecutive cells are 4-adjacent. *)
Theorem free_board_path_is_shortest W H grid startId endId ign R strict :
  freeBoard W H grid → onBoard W H startId → onBoard W H endId →
  startId ≠ endId →
  (∀ n, reservedHas R n = false) →
  ∃ fuel0, ∀ fuel, (fuel0 ≤ fuel)%nat →
    ∃ p, findPathAStar fuel startId endId grid [] ign R strict = Done (Some p) ∧
         len p = getHeuristic startId.1 startId.2 endId.1 endId.2 + 1 ∧
         ∀ i a b, p !! i = Some a → p !! S i = Some b →
                  getHeuristic a.1 a.2 b.1 b.2 = 1.
Proof.
  intros Hboard [Hsx Hsy] [Hex Hey] Hne Hfree.
  destruct (free_box_path startId endId grid R strict Hfree
              (parseCellId_plain startId (proj1 Hsx) (proj1 Hsy))
              (parseCellId_plain endId (proj1 Hex) (proj1 Hey)) Hne) as (fuel0 & Hrun).
  { intros c Hc. unfold enterable, excluded. rewrite Hfree, andb_false_r. simpl.
    destruct (Hboard c.1 c.2) as (cell & Hcell & Htrav).
    - unfold inBox, manh, getHeuristic in Hc. lia.
    - unfold inBox, manh, getHeuristic in Hc. lia.
    - destruct c as [cx cy]. simpl in Hcell. rewrite Hcell, Htrav. done. }
  exists fuel0. intros fuel Hle. destruct (Hrun fuel Hle) as (p & Hp & Hlen & Hstep).
  exists p. split; [|split; [exact Hlen|exact Hstep]].
  rewrite findPathAStar_eq.
  destruct (Hboard startId.1 startId.2 Hsx Hsy) as (cs & Hcs & _).
  destruct (Hboard endId.1 endId.2 Hex Hey) as (ce & Hce & _).
  destruct startId as [sx sy], endId as [ex ey]. simpl in Hcs, Hce.
  rewrite Hcs, Hce. exact Hp.
Qed.

(** A board of three columns and two rows. *)
Definition board32 : Grid :=
  map (λ k, (k, mkCell k.1 k.2 track None k))
      [ (0, 0); (1, 0); (2, 0); (0, 1); (1, 1); (2, 1) ].

Lemma board32_free : freeBoard 3 2 board32.
Proof.
  intros x y Hx Hy.
  assert (x = 0 ∨ x = 1 ∨ x = 2) as Hxs by lia.
  assert (y = 0 ∨ y = 1) as Hys by lia.
  destruct Hxs as [->|[->| ->]]; destruct Hys as [->| ->];
    eexists; split; reflexivity.
Defined.

Lemma free_board_path_is_shortest_witness :
  ∃ fuel0, ∀ fuel, (fuel0 ≤ fuel)%nat →
    ∃ p, findPathAStar fuel (0, 0) (2, 1) board32 [] None None false = Done (Some p) ∧
         len p = getHeuristic 0 0 2 1 + 1 ∧
         ∀ i a b, p !! i = Some a → p !! S i = Some b →
                  getHeuristic a.1 a.2 b.1 b.2 = 1.
Proof.
  apply (free_board_path_is_shortest 3 2 board32 (0, 0) (2, 1) None None false).
  - exact board32_free.
  - unfold onBoard. simpl. lia.
  - unfold onBoard. simpl. lia.
  - discriminate.
  - reflexivity.
Defined.

End ShortestFacts.

(** ** The tick *)

Module TickFacts.
Import PathFacts.

(** *** The deadlock flag *)

(** A train that has waited longer than the threshold of the monitor. *)
Definition stuck (t : Train) : Prop := state t = waiting ∧ 20 < waitingTime t.

#[global] Instance stuck_dec t : Decision (stuck t).
Proof. unfold stuck. apply _. Defined.

Lemma deadlockWarning_spec (runningTrains : list Train) :
  deadlockWarning runningTrains = true ↔
  (1 < length runningTrains)%nat ∧ Forall stuck runningTrains.
Proof.
  unfold deadlockWarning, len. rewrite andb_true_iff, Z.ltb_lt, forallb_forall.
  rewrite Forall_forall. split; intros [Hlen Hall]; (split; [lia|]).
  - intros t Ht. apply list_elem_of_In in Ht. specialize (Hall t Ht).
    apply andb_true_iff in Hall as [Hs Hw].
    split; [by apply bool_decide_eq_true in Hs|by apply Z.ltb_lt].
  - intros t Ht. apply list_elem_of_In in Ht. destruct (Hall t Ht) as [Hs Hw].
    apply andb_true_iff. split; [by apply bool_decide_eq_true|by apply Z.ltb_lt].
Qed.

Lemma tickState_inv fuel grid speed s s' :
  tickState fuel grid speed s = Done s' →
  tickTrains fuel grid (trains s) speed = Done (trains s', globalDeadlockWarning s') ∧
  globalDeadlockWarning s' = deadlockWarning (trains s').
Proof.
  unfold tickState, tickTrains.
  destruct (updateAll fuel grid (trains s) speed _ _) as [|next]; simpl; [done|].
  by intros [= <-].
Qed.

(** C3.  After a tick the deadlock flag is [true] exactly when more than
    one train is active and every active train is [waiting] with
    [waitingTime] above 20, and [false] otherwise.  The flag the tick
    started with plays no part: the statement holds for every previous
    value. *)
Theorem deadlock_flag_iff_all_stuck fuel grid speed s s' :
  tickState fuel grid speed s = Done s' →
  (globalDeadlockWarning s' = true ↔
     (1 < length (trains s'))%nat ∧
     Forall (λ t, state t = waiting ∧ 20 < waitingTime t) (trains s')) ∧
  (globalDeadlockWarning s' = false ↔
     ¬ ((1 < length (trains s'))%nat ∧
        Forall (λ t, state t = waiting ∧ 20 < waitingTime t) (trains s'))).
Proof.
  intros [_ ->]%tickState_inv.
  pose proof (deadlockWarning_spec (trains s')) as H. unfold stuck in H.
  split; [done|]. rewrite <- H. by destruct (deadlockWarning (trains s')).
Qed.

(** A corridor of four cells with a siding of three cells beside it. *)
Definition yard : Grid :=
  map (λ k, (k, mkCell k.1 k.2 track None k))
      [ (0, 0); (1, 0); (2, 0); (3, 0); (0, 2); (1, 2); (2, 2) ].

Definition trainAt (id : string) (from to : Z * Z) (p : list (Z * Z)) (i : Z) (q : Q)
    (s : TrainState) (prio w : Z) : Train :=
  {| train_id := id; fromId := from; toId := to; path := p; currentPathIndex := i;
     progress := q; state := s; priority := prio; train_type := manual;
     waitingTime := w; isCyclic := false; dwellRemaining := 0 |}.

(** Two rows of five tracks, joined cell by cell. *)
Definition doubleTrack : Grid :=
  map (λ k, (k, mkCell k.1 k.2 track None k))
      [ (0, 0); (1, 0); (2, 0); (3, 0); (4, 0); (0, 1); (1, 1); (2, 1); (3, 1); (4, 1) ].

(** A train on the upper row that has waited 20 ticks on its second cell,
    and the cells that trains of higher priority hold: two ahead of it and
    one on the lower row, so that no way is free and the way round through
    the lower row crosses the fewest reserved cells. *)
Definition late : Train :=
  trainAt "late" (0, 0) (4, 0) [(0, 0); (1, 0); (2, 0); (3, 0); (4, 0)] 1 0 waiting 5 20.

Definition held : gset (Z * Z) := {[ (2, 0) ]} ∪ ({[ (3, 0) ]} ∪ {[ (2, 1) ]}).

(** Two trains face each other in the corridor; both have waited 25 ticks. *)
Definition eastbound : Train :=
  trainAt "east" (0, 0) (3, 0) [(0, 0); (1, 0); (2, 0); (3, 0)] 1 0 waiting 9 25.
Definition westbound : Train :=
  trainAt "west" (3, 0) (0, 0) [(3, 0); (2, 0); (1, 0); (0, 0)] 1 0 waiting 8 25.
(** A third train runs on the siding. *)
Definition shunter : Train :=
  trainAt "shunt" (0, 2) (2, 2) [(0, 2); (1, 2); (2, 2)] 0 (3 # 10) moving 1 0.

Definition jam : SimState :=
  {| trains := [eastbound; westbound]; globalDeadlockWarning := false |}.
Definition jamAndShunter : SimState :=
  {| trains := [eastbound; westbound; shunter]; globalDeadlockWarning := true |}.

Definition afterJam : SimState :=
  {| trains :=
       [ trainAt "east" (0, 0) (3, 0) [(0, 0); (1, 0); (2, 0); (3, 0)] 1 0 waiting 9 26;
         trainAt "west" (3, 0) (0, 0) [(3, 0); (2, 0); (1, 0); (0, 0)] 1 0 waiting 8 26 ];
     globalDeadlockWarning := true |}.

Lemma tick_jam : tickState 100 yard 1 jam = Done afterJam.
Proof. vm_compute. reflexivity. Defined.

Lemma deadlock_flag_iff_all_stuck_witness :
  (globalDeadlockWarning afterJam = true ↔
     (1 < length (trains afterJam))%nat ∧
     Forall (λ t, state t = waiting ∧ 20 < waitingTime t) (trains afterJam)) ∧
  (globalDeadlockWarning afterJam = false ↔
     ¬ ((1 < length (trains afterJam))%nat ∧
        Forall (λ t, state t = waiting ∧ 20 < waitingTime t) (trains afterJam))).
Proof. exact (deadlock_flag_iff_all_stuck 100 yard 1 jam afterJam tick_jam). Defined.

Lemma filter_all_length (l : list Train) :
  length (filter stuck l) = length l ↔ Forall stuck l.
Proof.
  split.
  - induction l as [|t l IH]; [constructor|].
    rewrite filter_cons. pose proof (length_filter stuck l) as Hle.
    case_decide as Ht; simpl; intros Hlen; [|lia].
    constructor; [done|]. apply IH. lia.
  - intros H. induction H as [|t l Ht H IH]; [done|].
    rewrite filter_cons. rewrite decide_True by done. simpl. by rewrite IH.
Qed.

(** C4, as the code has it.  After a tick the deadlock flag is [true]
    exactly when at least two trains are active and all the active trains,
    not just two of them, are [waiting] with [waitingTime] above 20; it is
    [false] after any tick that leaves some active train in another
    condition, for instance [moving]. *)
Theorem deadlock_flag_needs_every_train fuel grid speed s s' :
  tickState fuel grid speed s = Done s' →
  (globalDeadlockWarning s' = true ↔
     (2 ≤ length (trains s'))%nat ∧
     length (filter stuck (trains s')) = length (trains s')) ∧
  (∀ t, t ∈ trains s' → ¬ stuck t → globalDeadlockWarning s' = false).
Proof.
  intros [_ ->]%tickState_inv.
  pose proof (deadlockWarning_spec (trains s')) as H.
  split.
  - rewrite H, filter_all_length. split; intros [? ?]; (split; [lia|done]).
  - intros t Ht Hns. destruct (deadlockWarning (trains s')) eqn:E; [|done].
    exfalso. apply Hns. destruct (proj1 H eq_refl) as [_ Hall].
    by apply (proj1 (Forall_forall _ _) Hall).
Qed.

Definition afterJamAndShunter : SimState :=
  {| trains :=
       [ trainAt "east" (0, 0) (3, 0) [(0, 0); (1, 0); (2, 0); (3, 0)] 1 0 waiting 9 26;
         trainAt "west" (3, 0) (0, 0) [(3, 0); (2, 0); (1, 0); (0, 0)] 1 0 waiting 8 26;
         trainAt "shunt" (0, 2) (2, 2) [(0, 2); (1, 2); (2, 2)] 0
                 ((3 # 10) + MOVEMENT_SPEED * 1)%Q moving 1 0 ];
     globalDeadlockWarning := false |}.

Lemma tick_jamAndShunter : tickState 100 yard 1 jamAndShunter = Done afterJamAndShunter.
Proof. vm_compute. reflexivity. Defined.

Lemma deadlock_flag_needs_every_train_witness :
  (globalDeadlockWarning afterJamAndShunter = true ↔
     (2 ≤ length (trains afterJamAndShunter))%nat ∧
     length (filter stuck (trains afterJamAndShunter)) = length (trains afterJamAndShunter)) ∧
  (∀ t, t ∈ trains afterJamAndShunter → ¬ stuck t →
        globalDeadlockWarning afterJamAndShunter = false).
Proof.
  exact (deadlock_flag_needs_every_train 100 yard 1 jamAndShunter afterJamAndShunter
           tick_jamAndShunter).
Defined.

(** C4 as stated fails: two trains stuck past the threshold do not raise
    the flag while a third train is moving. *)
Lemma deadlock_flag_not_raised_by_two :
  ¬ (∀ fuel grid speed s s',
       tickState fuel grid speed s = Done s' →
       (globalDeadlockWarning s' = true ↔ (2 ≤ length (filter stuck (trains s')))%nat)).
Proof.
  intros H.
  destruct (H 100%nat yard 1%Q jamAndShunter afterJamAndShunter tick_jamAndShunter) as [_ Hflag].
  assert (2 ≤ length (filter stuck (trains afterJamAndShunter)))%nat as Htwo
    by (vm_compute; lia).
  by specialize (Hflag Htwo).
Qed.

(** *** The return trip of a cyclic train *)

(** C8.  A cyclic train that is [arrived] becomes [dwelling] with
    [dwellRemaining] 30.  A [dwelling] train with a positive
    [dwellRemaining] has it lowered by one.  Once it is zero the search is
    run from the destination back to the origin; when it returns a path the
    train is [waiting] on that path with the two endpoints swapped, index 0
    and progress 0, and when it returns [null] the train stays [dwelling]
    with [dwellRemaining] 10.  The reservation set is left as it was. *)
Theorem cyclic_train_dwells_and_returns fuel grid trainsRef speed train res :
  (state train = arrived → isCyclic train = true →
     updateTrain fuel grid trainsRef speed train res
       = Done (with_dwellRemaining (with_state train dwelling) 30, res)) ∧
  (state train = dwelling → 0 < dwellRemaining train →
     updateTrain fuel grid trainsRef speed train res
       = Done (with_dwellRemaining train (dwellRemaining train - 1), res)) ∧
  (state train = dwelling → dwellRemaining train ≤ 0 →
     ∀ returnPath,
       findPathAStar fuel (toId train) (fromId train) grid trainsRef
                     (Some (train_id train)) None false = Done (Some returnPath) →
       ∃ train', updateTrain fuel grid trainsRef speed train res = Done (train', res) ∧
                 state train' = waiting ∧
                 fromId train' = toId train ∧ toId train' = fromId train ∧
                 path train' = returnPath ∧
                 currentPathIndex train' = 0 ∧ progress train' = 0%Q ∧
                 train_id train' = train_id train ∧ isCyclic train' = isCyclic train) ∧
  (state train = dwelling → dwellRemaining train ≤ 0 →
     findPathAStar fuel (toId train) (fromId train) grid trainsRef
                   (Some (train_id train)) None false = Done None →
     updateTrain fuel grid trainsRef speed train res
       = Done (with_dwellRemaining train 10, res) ∧
     state (with_dwellRemaining train 10) = dwelling).
Proof.
  unfold updateTrain. split; [|split; [|split]].
  - intros -> ->. done.
  - intros -> Hd. by rewrite (proj2 (Z.ltb_lt _ _) Hd).
  - intros -> Hd returnPath Hfind. rewrite (proj2 (Z.ltb_ge _ _) Hd), Hfind.
    cbn [bindR].
    rewrite (findPathAStar_usable _ _ _ _ _ _ _ _ _ Hfind).
    eexists. split; [reflexivity|]. done.
  - intros Hs Hd Hfind. split; [|exact Hs].
    by rewrite Hs, (proj2 (Z.ltb_ge _ _) Hd), Hfind.
Qed.

Definition arrivedCyclic : Train :=
  {| train_id := "loop"; fromId := (0, 0); toId := (1, 0); path := [(0, 0); (1, 0)];
     currentPathIndex := 1; progress := 0; state := arrived; priority := 5;
     train_type := batch; waitingTime := 0; isCyclic := true; dwellRemaining := 0 |}.

Lemma cyclic_train_dwells_and_returns_witness :
  updateTrain 100 twoCells [] 1 arrivedCyclic ∅
    = Done (with_dwellRemaining (with_state arrivedCyclic dwelling) 30, ∅) ∧
  updateTrain 100 twoCells [] 1 (with_dwellRemaining (with_state arrivedCyclic dwelling) 30) ∅
    = Done (with_dwellRemaining (with_state arrivedCyclic dwelling) 29, ∅) ∧
  (∃ train', updateTrain 100 twoCells [] 1
               (with_dwellRemaining (with_state arrivedCyclic dwelling) 0) ∅ = Done (train', ∅) ∧
             state train' = waiting ∧ fromId train' = (1, 0) ∧ toId train' = (0, 0) ∧
             path train' = [(1, 0); (0, 0)] ∧ currentPathIndex train' = 0 ∧
             progress train' = 0%Q ∧ train_id train' = "loop" ∧ isCyclic train' = true) ∧
  (updateTrain 100 brokenLine [] 1
               (trainAt "cut" (0, 0) (2, 0) [(0, 0)] 0 0 dwelling 5 0) ∅
     = Done (with_dwellRemaining (trainAt "cut" (0, 0) (2, 0) [(0, 0)] 0 0 dwelling 5 0) 10, ∅) ∧
   state (with_dwellRemaining (trainAt "cut" (0, 0) (2, 0) [(0, 0)] 0 0 dwelling 5 0) 10)
     = dwelling).
Proof.
  split; [|split; [|split]].
  - apply (proj1 (cyclic_train_dwells_and_returns 100 twoCells [] 1 arrivedCyclic ∅));
      reflexivity.
  - apply (proj1 (proj2 (cyclic_train_dwells_and_returns 100 twoCells [] 1
                           (with_dwellRemaining (with_state arrivedCyclic dwelling) 30) ∅)));
      [reflexivity|simpl; lia].
  - apply (proj1 (proj2 (proj2 (cyclic_train_dwells_and_returns 100 twoCells [] 1
                           (with_dwellRemaining (with_state arrivedCyclic dwelling) 0) ∅))));
      [reflexivity|simpl; lia|vm_compute; reflexivity].
  - apply (proj2 (proj2 (proj2 (cyclic_train_dwells_and_returns 100 brokenLine [] 1
                           (trainAt "cut" (0, 0) (2, 0) [(0, 0)] 0 0 dwelling 5 0) ∅))));
      [reflexivity|simpl; lia|vm_compute; reflexivity].
Defined.

(** *** Every call of the update returns *)

Ltac destruct_matches :=
  repeat match goal with
    | |- context [match ?x with _ => _ end] =>
        lazymatch x with
        | context [match _ with _ => _ end] => fail
        | _ => destruct x eqn:?
        end
    end.

Lemma updateTrain_returns grid trainsRef speed train res :
  ∃ fuel0 r, ∀ fuel, (fuel0 ≤ fuel)%nat →
    updateTrain fuel grid trainsRef speed train res = Done r.
Proof.
  destruct (findPathAStar_returns (toId train) (fromId train) grid trainsRef
              (Some (train_id train)) None false) as (f1 & r1 & H1).
  set (l := advance speed
              {| l_currentPathIndex := currentPathIndex train;
                 l_progress := progress train; l_state := state train;
                 l_path := path train; l_waitingTime := waitingTime train |}).
  destruct (nthZ (l_path l) (l_currentPathIndex l)) as [here|] eqn:Hhere.
  - destruct (findPathAStar_returns here (toId train) grid trainsRef
                (Some (train_id train)) (Some res) true) as (f2 & r2 & H2).
    destruct (findPathAStar_returns here (toId train) grid trainsRef
                (Some (train_id train)) (Some res) false) as (f3 & r3 & H3).
    set (F := (f1 `max` (f2 `max` f3))%nat).
    assert (∀ fuel, (F ≤ fuel)%nat →
              updateTrain fuel grid trainsRef speed train res
              = updateTrain F grid trainsRef speed train res) as Hsame.
    { intros fuel Hle. unfold updateTrain, waitingBranch, reroute. cbv zeta. fold l.
      rewrite Hhere.
      rewrite (H1 fuel ltac:(lia)), (H2 fuel ltac:(lia)), (H3 fuel ltac:(lia)).
      rewrite (H1 F ltac:(lia)), (H2 F ltac:(lia)), (H3 F ltac:(lia)). reflexivity. }
    assert (∃ r, updateTrain F grid trainsRef speed train res = Done r) as [r Hr].
    { unfold updateTrain, waitingBranch, reroute. cbv zeta. fold l. rewrite Hhere.
      rewrite (H1 F ltac:(lia)), (H2 F ltac:(lia)), (H3 F ltac:(lia)). cbn [bindR].
      destruct_matches; cbn [bindR]; destruct_matches; eexists; reflexivity. }
    exists F, r. intros fuel Hle. by rewrite (Hsame fuel Hle).
  - assert (∀ fuel, (f1 ≤ fuel)%nat →
              updateTrain fuel grid trainsRef speed train res
              = updateTrain f1 grid trainsRef speed train res) as Hsame.
    { intros fuel Hle. unfold updateTrain, waitingBranch, reroute. cbv zeta. fold l.
      rewrite Hhere. rewrite (H1 fuel ltac:(lia)), (H1 f1 ltac:(lia)). reflexivity. }
    assert (∃ r, updateTrain f1 grid trainsRef speed train res = Done r) as [r Hr].
    { unfold updateTrain, waitingBranch, reroute. cbv zeta. fold l. rewrite Hhere.
      rewrite (H1 f1 ltac:(lia)). cbn [bindR].
      destruct_matches; cbn [bindR]; destruct_matches; eexists; reflexivity. }
    exists f1, r. intros fuel Hle. by rewrite (Hsame fuel Hle).
Qed.

End TickFacts.

(** ** Dispatch requests without a path *)

Module DispatchFacts.
Import PathFacts.

Definition stationsOf (grid : Grid) : list Cell :=
  filter (λ c, cell_type c = station) (map snd grid).

(** C5, what the code does.  When both stations exist and the search
    returns [null], [dispatchTrain] does nothing at all, whatever the kind of
    request: it queues no train and no history entry, and it opens no
    dialog, for a manual request as for a scheduled or a batch one. *)
Theorem dispatch_without_path_is_silent fuel grid trainsRef time trainId histId
    fromName toName priority dispatchType isCyclic from to :
  fromName ≠ toName →
  find (stationNamed fromName) (stationsOf grid) = Some from →
  find (stationNamed toName) (stationsOf grid) = Some to →
  findPathAStar fuel (cell_id from) (cell_id to) grid trainsRef None None false = Done None →
  dispatchTrain fuel grid trainsRef time trainId histId
                fromName toName priority dispatchType isCyclic = Done [].
Proof.
  intros Hne Hfrom Hto Hfind. unfold dispatchTrain, stationsOf in *.
  rewrite (bool_decide_eq_false_2 _ Hne), Hfrom, Hto, Hfind. done.
Qed.

Lemma dispatch_without_path_is_silent_witness :
  dispatchTrain 100 brokenLine [] 7 "man-1" "hist-1" "A" "B" 5 manual false = Done [].
Proof.
  apply (dispatch_without_path_is_silent 100 brokenLine [] 7 "man-1" "hist-1" "A" "B" 5
           manual false (mkCell 0 0 station (Some "A") (0, 0))
           (mkCell 2 0 station (Some "B") (2, 0))).
  - done.
  - reflexivity.
  - reflexivity.
  - vm_compute. reflexivity.
Defined.

(** The schedule item of a failed request is marked all the same. *)
Lemma schedule_item_marked_without_path :
  tickDispatch 100 brokenLine [] 7 (λ _, ("sch-1", "hist-1")) []
               [ mkScheduleItem "s1" 8 "A" "B" 5 false ]
  = Done ([], [ mkScheduleItem "s1" 8 "A" "B" 5 true ], []).
Proof. vm_compute. reflexivity. Qed.

(** The schedule after the dispatch part of a tick: every item that was due
    is marked, whatever became of its request. *)
Lemma dispatchSchedule_marks fuel grid trainsRef time ids k sched effects sched' :
  dispatchSchedule fuel grid trainsRef time ids k sched = Done (effects, sched') →
  Forall2 (λ old new,
             sched_id new = sched_id old ∧
             dispatched new = dispatched old || (sched_time old <=? time + 1))
          sched sched'.
Proof.
  revert k effects sched'. induction sched as [|item rest IH]; intros k effects sched'; simpl.
  { intros [= <- <-]. constructor. }
  unfold currentTime.
  destruct (dispatched item) eqn:Hd; simpl.
  - destruct (dispatchSchedule _ _ _ _ _ k rest) as [|[e r]] eqn:Hrest; simpl; [done|].
    simpl. intros [= <- <-]. constructor; [by rewrite Hd|by apply (IH k e)].
  - destruct (sched_time item <=? time + 1) eqn:Hdue.
    + destruct (dispatchTrain _ _ _ _ _ _ _ _ _ _ _) as [|e0]; simpl; [done|].
      destruct (dispatchSchedule _ _ _ _ _ (S k) rest) as [|[e r]] eqn:Hrest; simpl; [done|].
      simpl. intros [= <- <-]. constructor; [by rewrite Hd, Hdue|by apply (IH (S k) e)].
    + destruct (dispatchSchedule _ _ _ _ _ k rest) as [|[e r]] eqn:Hrest; simpl; [done|].
      simpl. intros [= <- <-]. constructor; [by rewrite Hd, Hdue|by apply (IH k e)].
Qed.

End DispatchFacts.

(** ** The two priority queues *)

Module QueueFacts.
Import MinHeap MinHeapFacts.
Section Facts.
Context {T : Type} (f : T → Z).

Local Abbreviation le_f := (λ a b : T, f a ≤ f b).
Local Abbreviation insertByF := (PriorityQueueLegacy.insertByF f).
Local Abbreviation sortByF := (PriorityQueueLegacy.sortByF f).

Lemma insertByF_perm x l : insertByF x l ≡ₚ x :: l.
Proof.
  induction l as [|y l IH]; simpl; [done|].
  destruct (f x <=? f y); [done|]. rewrite IH. apply perm_swap.
Qed.

Lemma sortByF_perm l : sortByF l ≡ₚ l.
Proof.
  induction l as [|x l IH]; simpl; [done|]. by rewrite insertByF_perm, IH.
Qed.

Lemma insertByF_sorted x l :
  StronglySorted le_f l → StronglySorted le_f (insertByF x l).
Proof.
  induction 1 as [|y l Hl IH Hy]; simpl; [repeat constructor|].
  destruct (Z.leb_spec (f x) (f y)) as [Hxy|Hxy].
  - constructor; [by constructor|]. constructor; [done|].
    eapply Forall_impl; [exact Hy|]. simpl. intros z Hz. lia.
  - constructor; [done|]. rewrite insertByF_perm. constructor; [lia|done].
Qed.

Lemma sortByF_sorted l : StronglySorted le_f (sortByF l).
Proof.
  induction l as [|x l IH]; simpl; [constructor|]. by apply insertByF_sorted.
Qed.

Lemma insertByF_least x l : Forall (λ y, f x ≤ f y) l → insertByF x l = x :: l.
Proof.
  destruct 1 as [|y l Hy _]; simpl; [done|].
  by rewrite (proj2 (Z.leb_le _ _) Hy).
Qed.

Lemma filter_none (P : T → Prop) `{!∀ x, Decision (P x)} (l : list T) :
  Forall (λ y, ¬ P y) l → filter P l = [].
Proof.
  induction 1 as [|y l Hy _ IH]; [done|]. by rewrite filter_cons_False.
Qed.

Lemma filter_all (P : T → Prop) `{!∀ x, Decision (P x)} (l : list T) :
  Forall P l → filter P l = l.
Proof.
  induction 1 as [|y l Hy _ IH]; [done|]. rewrite filter_cons_True by done. by f_equal.
Qed.

(** Where a sort puts an item appended to a sorted array: behind the items
    whose [f] is at most its own. *)
Lemma sortByF_snoc l item :
  StronglySorted le_f l →
  sortByF (l ++ [item]) =
    filter (λ y, f y ≤ f item) l ++ item :: filter (λ y, f item < f y) l.
Proof.
  unfold PriorityQueueLegacy.sortByF. rewrite foldr_app. simpl.
  induction 1 as [|x l Hl IH Hx]; simpl; [done|].
  rewrite IH, !filter_cons.
  destruct (decide (f x ≤ f item)) as [Hle|Hgt].
  - rewrite decide_False by lia. simpl. apply insertByF_least.
    apply Forall_app. split.
    + apply Forall_forall. intros y [_ Hy]%list_elem_of_filter.
      by apply (proj1 (Forall_forall _ _) Hx).
    + constructor; [done|].
      apply Forall_forall. intros y [_ Hy]%list_elem_of_filter.
      by apply (proj1 (Forall_forall _ _) Hx).
  - rewrite decide_True by lia.
    rewrite (filter_none (λ y, f y ≤ f item) l).
    2:{ eapply Forall_impl; [exact Hx|]. simpl. intros y Hy. lia. }
    rewrite (filter_all (λ y, f item < f y) l).
    2:{ eapply Forall_impl; [exact Hx|]. simpl. intros y Hy. lia. }
    simpl. rewrite (proj2 (Z.leb_gt _ _)) by lia. f_equal.
    by apply insertByF_least.
Qed.

Lemma legacy_run_snoc ops o :
  PriorityQueueLegacy.run f (ops ++ [o]) =
    PriorityQueueLegacy.apply_op f (PriorityQueueLegacy.run f ops) o.
Proof. unfold PriorityQueueLegacy.run. by rewrite fold_left_app. Qed.

Lemma legacy_apply_sorted q o :
  StronglySorted le_f q → StronglySorted le_f (PriorityQueueLegacy.apply_op f q o).
Proof.
  intros Hq. destruct o as [item|]; simpl; [apply sortByF_sorted|].
  destruct Hq; simpl; [constructor|done].
Qed.

Lemma legacy_run_sorted ops : StronglySorted le_f (PriorityQueueLegacy.run f ops).
Proof.
  induction ops as [|o ops IH] using rev_ind; [constructor|].
  rewrite legacy_run_snoc. by apply legacy_apply_sorted.
Qed.

(** X2.  The array of the legacy queue is sorted after every sequence of
    pushes and pops.  A push puts the item behind the items whose [f] is
    not larger and before the items whose [f] is larger, so items of equal
    [f] leave in the order they came; a pop takes the first item, whose [f]
    is the least, and returns [undefined] on the empty queue. *)
Theorem legacy_queue_sorted_fifo (ops : list (MinHeap.op (T:=T))) (item : T) :
  let items := PriorityQueueLegacy.run f ops in
  StronglySorted (λ a b, f a ≤ f b) items ∧
  PriorityQueueLegacy.push f item items =
    filter (λ y, f y ≤ f item) items ++ item :: filter (λ y, f item < f y) items ∧
  match items with
  | [] => PriorityQueueLegacy.pop items = (None, [])
  | x :: rest =>
      PriorityQueueLegacy.pop items = (Some x, rest) ∧ Forall (λ y, f x ≤ f y) items
  end.
Proof.
  intros items. pose proof (legacy_run_sorted ops) as Hs. fold items in Hs.
  split; [done|]. split; [by apply sortByF_snoc|].
  destruct Hs as [|x rest Hrest Hx]; [done|].
  split; [done|]. constructor; [lia|done].
Qed.

(** *** The heap and the sorted array serve the same priorities *)

(** The [f] of the items a client was handed. *)
Definition served (rs : list (option T)) : list (option Z) :=
  (λ r : option T, f <$> r) <$> rs.

Lemma serve_agree ops : ∀ h q,
  heap_par f h → StronglySorted le_f q → f <$> h ≡ₚ f <$> q →
  served (serve (MinHeap.push f) (MinHeap.pop f) ops h).1 =
  served (serve (PriorityQueueLegacy.push f) PriorityQueueLegacy.pop ops q).1 ∧
  f <$> (serve (MinHeap.push f) (MinHeap.pop f) ops h).2 ≡ₚ
  f <$> (serve (PriorityQueueLegacy.push f) PriorityQueueLegacy.pop ops q).2.
Proof.
  induction ops as [|[item|] ops IH]; intros h q Hh Hq Hperm; simpl; [done| |].
  - apply IH; [by apply push_heap_par|apply sortByF_sorted|].
    transitivity (f item :: (f <$> h)); [by rewrite (push_perm f item h)|].
    transitivity (f item :: (f <$> q)); [by rewrite Hperm|].
    unfold PriorityQueueLegacy.push. rewrite (sortByF_perm (q ++ [item])), fmap_app.
    apply Permutation_cons_append.
  - destruct h as [|x h].
    + apply Permutation_nil_l in Hperm. symmetry in Hperm. apply fmap_nil_inv in Hperm as ->.
      specialize (IH [] [] Hh Hq ltac:(done)). simpl.
      destruct (serve (MinHeap.push f) _ ops []) as [rs1 q1].
      destruct (serve (PriorityQueueLegacy.push f) _ ops []) as [rs2 q2].
      simpl in *. destruct IH as [-> ?]. done.
    + destruct (pop_cons f x h Hh) as (h' & Hpop & Hp & Hh' & Hmin).
      rewrite Hpop.
      destruct q as [|y q]; [by apply Permutation_nil_r in Hperm|].
      apply StronglySorted_inv in Hq as [Hq Hy]. simpl.
      assert (f x = f y) as Hxy.
      { assert (f y ∈ f <$> x :: h) as (z & Hz & Hin)%list_elem_of_fmap.
        { rewrite Hperm. simpl. by left. }
        assert (f x ∈ f <$> y :: q) as (z' & Hz' & Hin')%list_elem_of_fmap.
        { rewrite <- Hperm. simpl. by left. }
        pose proof (Hmin z Hin).
        apply elem_of_cons in Hin' as [->|Hin']; [done|].
        pose proof (proj1 (Forall_forall _ _) Hy z' Hin'). simpl in *. lia. }
      specialize (IH h' q Hh' Hq).
      destruct (serve (MinHeap.push f) _ ops h') as [rs1 q1].
      destruct (serve (PriorityQueueLegacy.push f) _ ops q) as [rs2 q2].
      simpl in *. destruct IH as [-> ?]; [|by rewrite Hxy].
      apply (Permutation_cons_inv (a := f y)).
      rewrite <- Hperm, <- Hxy. apply (fmap_Permutation f) in Hp. simpl in Hp.
      by rewrite <- Hp.
Qed.

(** X3.  The two queues are interchangeable as far as priorities go: a
    client that runs the same pushes and pops against a [MinHeap] and
    against a [PriorityQueueLegacy] gets, pop for pop, items of the same
    [f], and [undefined] at the same pops. *)
Theorem heap_serves_like_sorted_array (ops : list (MinHeap.op (T:=T))) :
  served (serve (MinHeap.push f) (MinHeap.pop f) ops []).1 =
  served (serve (PriorityQueueLegacy.push f) PriorityQueueLegacy.pop ops []).1.
Proof.
  apply (serve_agree ops [] []); [apply heap_par_nil|constructor|done].
Qed.

(** *** Emptying a heap sorts its items *)

Lemma popAll_S fuel (heap : list T) :
  popAll f (S fuel) heap =
    if MinHeap.isEmpty heap then []
    else match MinHeap.pop f heap with
         | (Some x, rest) => x :: popAll f fuel rest
         | (None, _) => []
         end.
Proof. done. Qed.

Lemma popAll_sorted n : ∀ heap,
  heap_par f heap → length heap = n →
  popAll f n heap ≡ₚ heap ∧ StronglySorted le_f (popAll f n heap).
Proof.
  induction n as [|n IH]; intros heap Hh Hlen.
  { destruct heap; [|done]. split; [done|constructor]. }
  destruct heap as [|x heap]; [done|].
  destruct (pop_cons f x heap Hh) as (h' & Hpop & Hp & Hh' & Hmin).
  rewrite popAll_S, Hpop. unfold MinHeap.isEmpty. simpl.
  assert (length h' = n) as Hlen'.
  { apply Permutation_length in Hp. simpl in *. lia. }
  destruct (IH h' Hh' Hlen') as [Hperm Hsorted]. split.
  - by rewrite Hperm, Hp.
  - constructor; [done|]. apply Forall_forall. intros y Hy. apply Hmin.
    rewrite Hp. right. by rewrite <- Hperm.
Qed.

Lemma popAll_more n : ∀ heap fuel,
  heap_par f heap → length heap = n → (n ≤ fuel)%nat → popAll f fuel heap = popAll f n heap.
Proof.
  induction n as [|n IH]; intros heap fuel Hh Hlen Hle.
  { destruct heap; [|done]. by destruct fuel. }
  destruct heap as [|x heap]; [done|]. destruct fuel as [|fuel]; [lia|].
  destruct (pop_cons f x heap Hh) as (h' & Hpop & Hp & Hh' & Hmin).
  rewrite !popAll_S, Hpop. unfold MinHeap.isEmpty. simpl. f_equal. apply IH; [done| |lia].
  apply Permutation_length in Hp. simpl in *. lia.
Qed.

(** X1.  Emptying a heap gives its items in ascending order: after any
    sequence of pushes and pops, popping until the heap is empty returns a
    permutation of the items the heap held, sorted by [f], and as many pops
    as the heap has items are enough. *)
Theorem heap_drain_sorted (ops : list (MinHeap.op (T:=T))) :
  let heap := run f ops in
  popAll f (MinHeap.size heap) heap ≡ₚ heap ∧
  StronglySorted (λ a b, f a ≤ f b) (popAll f (MinHeap.size heap) heap) ∧
  ∀ fuel, (MinHeap.size heap ≤ fuel)%nat →
          popAll f fuel heap = popAll f (MinHeap.size heap) heap.
Proof.
  intros heap. pose proof (run_heap_par f ops) as Hh. fold heap in Hh.
  destruct (popAll_sorted (length heap) heap Hh eq_refl) as [Hp Hs].
  split; [done|]. split; [done|]. intros fuel Hle. by apply popAll_more.
Qed.

End Facts.
End QueueFacts.

(** ** The paths the search returns, for every grid *)

Module RouteFacts.
Import MinHeapFacts SearchFacts PathFacts ShortestFacts.

Section Route.
Context (startId endId : Z * Z) (grid : Grid).
Context (occupied near : gset (Z * Z)).
Context (R : option (gset (Z * Z))) (strict : bool).

Local Abbreviation enter := (enterable endId grid R strict).
Local Abbreviation child := (neighborNode endId occupied near R strict).
Local Abbreviation relaxR := (relax endId grid occupied near R strict).
Local Abbreviation stepR := (searchStep endId grid occupied near R strict).
Local Abbreviation loopR := (searchLoop endId grid occupied near R strict).

(** *** The loop leaves through a round that returns *)

Lemma searchLoop_exit (I : SearchState → Prop) fuel st r :
  (∀ st st', I st → stepR st = inr st' → I st') →
  I st → loopR fuel st = Done r → ∃ st0, I st0 ∧ stepR st0 = inl r.
Proof.
  intros Hstep. revert st. induction fuel as [|fuel IH]; intros st Hst; simpl; [done|].
  destruct (stepR st) as [r'|st'] eqn:Hs.
  - intros [= ->]. by exists st.
  - apply IH. by apply (Hstep st).
Qed.

(** *** The start cell is never entered again

    [visited] holds 0 for the start cell from the beginning and every step
    costs something, so no node but the start node carries the key of the
    start cell. *)

Lemma improves_fresh st current n :
  visited st !! startId = Some 0 → 0 ≤ node_g current →
  improves endId occupied near R strict st current n = true → n ≠ startId.
Proof.
  intros Hs Hg Hi ->. unfold improves in Hi. rewrite Hs in Hi. apply Z.ltb_lt in Hi.
  pose proof (moveCost_pos endId occupied near R strict current startId.1 startId.2).
  unfold newG in Hi. lia.
Qed.

(** The state of the loop while a property [P] of the nodes holds. *)
Definition holding (P : AStarNode → Prop) (st : SearchState) : Prop :=
  visited st !! startId = Some 0 ∧ Forall (λ n, 0 ≤ node_g n ∧ P n) (openSet st).

Lemma holding_fold (P : AStarNode → Prop) current ns st :
  (∀ n, n ∈ ns → enter n = true → n ≠ startId → P (child current n)) →
  0 ≤ node_g current → holding P st →
  holding P (fold_left (relaxR current) ns st).
Proof.
  revert st. induction ns as [|n ns IH]; intros st Hn Hg Hst; simpl; [done|].
  apply IH; [intros m Hm; apply Hn; by right|done|].
  rewrite relax_eq. destruct (enter n) eqn:He; simpl; [|done].
  destruct (improves _ _ _ _ _ st current n) eqn:Hi; [|done].
  destruct Hst as [Hs Hall].
  pose proof (improves_fresh st current n Hs Hg Hi) as Hne.
  split; simpl.
  - by rewrite lookup_insert_ne.
  - apply push_Forall; [|done]. split.
    + simpl. pose proof (moveCost_pos endId occupied near R strict current n.1 n.2).
      unfold newG. lia.
    + apply Hn; [by left|done|done].
Qed.

Lemma holding_step (P : AStarNode → Prop) st st' :
  (∀ current n, P current → n ∈ neighbors current → enter n = true → n ≠ startId →
                P (child current n)) →
  holding P st → stepR st = inr st' → holding P st'.
Proof.
  intros Hstep [Hs Hall] (current & rest & Hpop & Hid & ->)%searchStep_inr.
  destruct (pop_Forall _ _ _ _ Hpop Hall) as [[Hg Hc] Hrest].
  destruct (isStale current st); [done|].
  apply holding_fold; [|done|done]. intros n Hn He Hne. by apply Hstep.
Qed.

Lemma holding_initial (P : AStarNode → Prop) :
  P (startNode startId endId) → holding P (initialState startId endId).
Proof.
  intros HP. split; simpl; [by rewrite lookup_insert_eq|].
  constructor; [|constructor]. split; [done|exact HP].
Qed.

(** A property of the start node that passes to the node pushed for a
    cell other than the start cell holds of the node that reaches the
    goal. *)
Lemma searchLoop_holds (P : AStarNode → Prop) fuel p :
  (∀ current n, P current → n ∈ neighbors current → enter n = true → n ≠ startId →
                P (child current n)) →
  P (startNode startId endId) →
  loopR fuel (initialState startId endId) = Done (Some p) →
  ∃ current, P current ∧ node_id current = endId ∧ p = reconstruct current [].
Proof.
  intros Hstep Hroot Hrun.
  destruct (searchLoop_exit (holding P) fuel _ _
              (λ st st', holding_step P st st' Hstep) (holding_initial P Hroot) Hrun)
    as (st0 & [_ Hall] & [[? _]|(current & rest & Hpop & Hid & [= ->])]%searchStep_inl);
    [done|].
  destruct (pop_Forall _ _ _ _ Hpop Hall) as [[_ Hc] _]. by exists current.
Qed.

(** *** A returned path is a walk on the tracks *)

Lemma stepwiseFrom_snoc (l : list (Z * Z)) a c :
  stepwiseFrom startId l → last l = Some a → adjacent (seat startId a) c →
  stepwiseFrom startId (l ++ [c]).
Proof.
  intros Hl Hlast Hadj i x y Hx Hy.
  rewrite last_lookup in Hlast.
  destruct (decide (S i < length l)%nat) as [Hi|Hi].
  - rewrite lookup_app_l in Hx by lia. rewrite lookup_app_l in Hy by lia.
    by apply (Hl i).
  - assert (S i = length l) as Hlen.
    { apply lookup_lt_Some in Hy. rewrite length_app in Hy. simpl in Hy. lia. }
    rewrite lookup_app_l in Hx by lia.
    rewrite lookup_app_r, Hlen, Nat.sub_diag in Hy by lia. simpl in Hy.
    replace (Init.Nat.pred (length l)) with i in Hlast by lia. congruence.
Qed.

(** The node sits where the search looks for the neighbours of its cell. *)
Definition seated (n : AStarNode) : Prop :=
  seat startId (node_id n) = (node_x n, node_y n).

Lemma seated_start : seated (startNode startId endId).
Proof. unfold seated, seat. simpl. rewrite decide_True by done. by destruct (parseCellId _). Qed.

Lemma seated_child current n : n ≠ startId → seated (child current n).
Proof. intros Hne. unfold seated. simpl. rewrite seat_other by done. by destruct n. Qed.

Definition route (n : AStarNode) : Prop :=
  seated n ∧
  ∃ rest, reconstruct n [] = startId :: rest ∧
          last (startId :: rest) = Some (node_id n) ∧
          stepwiseFrom startId (startId :: rest) ∧
          Forall (λ c, enter c = true) rest.

Lemma route_start : route (startNode startId endId).
Proof.
  split; [apply seated_start|]. exists []. simpl. repeat split; [|constructor].
  intros i a b Ha Hb. by destruct i.
Qed.

Lemma neighbors_adjacent current n :
  n ∈ neighbors current → adjacent (node_x current, node_y current) n.
Proof.
  intros Hn. unfold neighbors in Hn. unfold adjacent, manh, getHeuristic.
  repeat (apply elem_of_cons in Hn as [->|Hn]; [simpl; lia|]).
  by apply elem_of_nil in Hn.
Qed.

Lemma route_child current n :
  route current → n ∈ neighbors current → enter n = true → n ≠ startId →
  route (child current n).
Proof.
  intros (Hxy & rest & Hrec & Hlast & Hstep & Hall) Hn He Hne.
  split; [by apply seated_child|]. exists (rest ++ [n]).
  unfold neighborNode. rewrite reconstruct_child, Hrec. simpl.
  split; [done|]. split; [|split].
  - by rewrite app_comm_cons, last_snoc.
  - rewrite app_comm_cons. apply (stepwiseFrom_snoc _ (node_id current)); [done|done|].
    unfold seated in Hxy. rewrite Hxy. by apply neighbors_adjacent.
  - apply Forall_app. split; [done|]. by constructor.
Qed.

Lemma searchLoop_route fuel p :
  loopR fuel (initialState startId endId) = Done (Some p) →
  ∃ rest, p = startId :: rest ∧ last p = Some endId ∧ stepwiseFrom startId p ∧
          Forall (λ c, enter c = true) rest.
Proof.
  intros Hrun.
  destruct (searchLoop_holds route fuel p)
    as (current & (_ & rest & Hrec & Hlast & Hstep & Hall) & Hid & ->); [| |done|].
  - intros current n Hc Hn He Hne. by apply route_child.
  - apply route_start.
  - exists rest. rewrite Hid in Hlast. rewrite Hrec. done.
Qed.

(** What it passes through can be got to. *)
Lemma searchLoop_reached fuel p :
  loopR fuel (initialState startId endId) = Done (Some p) → reached enter startId endId.
Proof.
  intros Hrun.
  destruct (searchLoop_holds (λ n, seated n ∧ reached enter startId (node_id n)) fuel p)
    as (current & [_ Hc] & Hid & _); [| |done|].
  - intros current n [Hxy Hc] Hn He Hne. split; [by apply seated_child|]. simpl.
    apply (reached_step _ _ (node_id current) n); [done| |done].
    unfold seated in Hxy. rewrite Hxy. exact Hn.
  - split; [apply seated_start|constructor].
  - by rewrite Hid in Hc.
Qed.

(** *** A returned path visits no cell twice *)

(** Every cell on the way to a node has a [visited] entry that is at most
    the [g] of the node through which the way passes it, and [g] grows
    along the way. *)
Fixpoint seen (v : gmap (Z * Z) Z) (n : AStarNode) : Prop :=
  match n with
  | mkNode id _ _ g _ _ parent =>
      (∃ best, v !! id = Some best ∧ best ≤ g) ∧
      match parent with
      | Some p => node_g p < g ∧ seen v p
      | None => True
      end
  end.

Lemma seen_lower v v' n : lower v v' → seen v n → seen v' n.
Proof.
  intros Hlow. induction n as [id x y g h f|id x y g h f p IH] using AStarNode_chain_ind;
    simpl.
  - intros [(best & Hb & Hle) _]. split; [|done].
    destruct (Hlow _ _ Hb) as (b' & Hb' & Hle'). exists b'. split; [done|lia].
  - intros [(best & Hb & Hle) [Hg Hp]]. split; [|split; [done|by apply IH]].
    destruct (Hlow _ _ Hb) as (b' & Hb' & Hle'). exists b'. split; [done|lia].
Qed.

Lemma seen_cells v n c :
  seen v n → c ∈ reconstruct n [] → ∃ best, v !! c = Some best ∧ best ≤ node_g n.
Proof.
  induction n as [id x y g h f|id x y g h f p IH] using AStarNode_chain_ind.
  - simpl. intros [Hb _] ->%list_elem_of_singleton. done.
  - rewrite reconstruct_child. intros [Hb [Hg Hp]] [Hc| ->%list_elem_of_singleton]%elem_of_app.
    + destruct (IH Hp Hc) as (best & Hbest & Hle). exists best. simpl. split; [done|lia].
    + done.
Qed.

Definition simple (st : SearchState) : Prop :=
  Forall (λ n, seen (visited st) n ∧ NoDup (reconstruct n [])) (openSet st).

Lemma lower_pushed_visited st current n :
  improves endId occupied near R strict st current n = true →
  lower (visited st) (visited (pushed endId occupied near R strict st current n)).
Proof.
  unfold improves, pushed. simpl. intros Hi c v Hv.
  destruct (decide (c = n)) as [->|Hc].
  - rewrite Hv in Hi. apply Z.ltb_lt in Hi. rewrite lookup_insert_eq.
    eexists. split; [done|lia].
  - rewrite lookup_insert_ne by done. exists v. split; [done|lia].
Qed.

Lemma simple_fold current ns st :
  seen (visited st) current → NoDup (reconstruct current []) → simple st →
  simple (fold_left (relaxR current) ns st).
Proof.
  revert st. induction ns as [|n ns IH]; intros st Hc Hnd Hst; simpl; [done|].
  rewrite relax_eq.
  destruct (enter n && improves _ _ _ _ _ st current n) eqn:E; [|by apply IH].
  apply andb_true_iff in E as [He Hi].
  pose proof (lower_pushed_visited st current n Hi) as Hlow.
  apply IH; [by apply (seen_lower (visited st))|done|].
  unfold simple. simpl. apply push_Forall.
  - split.
    + simpl. split; [|split].
      * rewrite lookup_insert_eq. eexists. split; [done|lia].
      * pose proof (moveCost_pos endId occupied near R strict current n.1 n.2).
        unfold newG. lia.
      * by apply (seen_lower (visited st)).
    + unfold neighborNode. rewrite reconstruct_child.
      apply NoDup_app. split; [done|]. split; [|apply NoDup_singleton].
      intros c Hin ->%list_elem_of_singleton.
      destruct (seen_cells _ _ _ Hc Hin) as (best & Hbest & Hle).
      unfold improves in Hi. rewrite Hbest in Hi. apply Z.ltb_lt in Hi.
      pose proof (moveCost_pos endId occupied near R strict current n.1 n.2).
      unfold newG in Hi. lia.
  - eapply Forall_impl; [exact Hst|]. simpl. intros m [Hm Hnd']. split; [|done].
    by apply (seen_lower (visited st)).
Qed.

Lemma simple_step st st' : simple st → stepR st = inr st' → simple st'.
Proof.
  intros Hst (current & rest & Hpop & Hid & ->)%searchStep_inr.
  destruct (pop_Forall _ _ _ _ Hpop Hst) as [[Hc Hnd] Hrest].
  destruct (isStale current st); [done|]. by apply simple_fold.
Qed.

Lemma simple_initial : simple (initialState startId endId).
Proof.
  repeat constructor; simpl.
  - rewrite lookup_insert_eq. by eexists.
  - by intros ?%elem_of_nil.
Qed.

Lemma searchLoop_simple fuel p :
  loopR fuel (initialState startId endId) = Done (Some p) → NoDup p.
Proof.
  intros Hrun.
  destruct (searchLoop_exit simple fuel _ _ simple_step simple_initial Hrun)
    as (st0 & Hst0 & [[? _]|(current & rest & Hpop & Hid & [= ->])]%searchStep_inl);
    [done|].
  by destruct (pop_Forall _ _ _ _ Hpop Hst0) as [[_ Hnd] _].
Qed.

(** *** A goal that can be reached is reached *)

(** A cell whose neighbours have all been looked at. *)
Definition closedCell (v : gmap (Z * Z) Z) (c : Z * Z) : Prop :=
  c ≠ endId ∧ ∀ n, n ∈ around (seat startId c) → enter n = true → is_Some (v !! n).

(** Every cell with a [visited] entry either waits in the open set, in a
    node that carries that entry, or has had its neighbours looked at. *)
Record Covering (st : SearchState) : Prop := mkCovering {
  cov_start : visited st !! startId = Some 0;
  cov_xy : Forall (λ n, 0 ≤ node_g n ∧ seated n) (openSet st);
  cov_cell : ∀ c g, visited st !! c = Some g →
             (∃ n, n ∈ openSet st ∧ node_id n = c ∧ node_g n = g) ∨
             closedCell (visited st) c
}.

Lemma closedCell_insert v c n g : closedCell v c → closedCell (<[n:=g]> v) c.
Proof.
  intros [Hc Hall]. split; [done|]. intros m Hm He.
  destruct (decide (m = n)) as [->|Hne]; [by rewrite lookup_insert_eq|].
  rewrite lookup_insert_ne by done. by apply Hall.
Qed.

Lemma push_elem (m n : AStarNode) heap :
  n ∈ MinHeap.push node_f m heap ↔ n = m ∨ n ∈ heap.
Proof. rewrite (push_perm node_f m heap). apply elem_of_cons. Qed.

Lemma pop_elem (n current : AStarNode) heap rest :
  MinHeap.pop node_f heap = (Some current, rest) → n ∈ heap ↔ n = current ∨ n ∈ rest.
Proof. intros Hpop. rewrite (pop_perm node_f heap current rest Hpop). apply elem_of_cons. Qed.

(** The invariant while the neighbours of [current] are walked: the cell
    of [current] is the one cell that may be left without a node. *)
Definition coveringBut (c0 : Z * Z) (st : SearchState) : Prop :=
  visited st !! startId = Some 0 ∧
  Forall (λ n, 0 ≤ node_g n ∧ seated n) (openSet st) ∧
  ∀ c g, visited st !! c = Some g → c ≠ c0 →
         (∃ n, n ∈ openSet st ∧ node_id n = c ∧ node_g n = g) ∨
         closedCell (visited st) c.

Lemma coveringBut_fold c0 current ns st :
  0 ≤ node_g current → coveringBut c0 st →
  coveringBut c0 (fold_left (relaxR current) ns st) ∧
  (∀ c, is_Some (visited st !! c) →
        is_Some (visited (fold_left (relaxR current) ns st) !! c)) ∧
  (∀ n, n ∈ ns → enter n = true →
        is_Some (visited (fold_left (relaxR current) ns st) !! n)).
Proof.
  intros Hcur. revert st. induction ns as [|n ns IH]; intros st Hst; simpl.
  { split; [done|]. split; [done|]. by intros n ?%elem_of_nil. }
  rewrite relax_eq.
  destruct (enter n) eqn:He; simpl.
  2:{ destruct (IH st Hst) as (H1 & H2 & H3). split; [done|]. split; [done|].
      intros m [->|Hm]%elem_of_cons Hem; [congruence|by apply H3]. }
  destruct (improves _ _ _ _ _ st current n) eqn:Hi.
  2:{ destruct (IH st Hst) as (H1 & H2 & H3). split; [done|]. split; [done|].
      intros m [->|Hm]%elem_of_cons Hem; [|by apply H3].
      apply H2. unfold improves in Hi. by destruct (visited st !! n). }
  assert (n ≠ startId) as Hfresh.
  { destruct Hst as (Hs & _ & _). by apply (improves_fresh st current n). }
  assert (coveringBut c0 (pushed endId occupied near R strict st current n)) as Hst'.
  { destruct Hst as (Hs & Hxy & Hcell). unfold pushed. split; [|split]; simpl.
    - by rewrite lookup_insert_ne.
    - apply push_Forall; [|done]. split; [|by apply seated_child]. simpl.
      pose proof (moveCost_pos endId occupied near R strict current n.1 n.2).
      unfold newG. lia.
    - intros c g Hc Hc0. destruct (decide (c = n)) as [->|Hne].
      + rewrite lookup_insert_eq in Hc. injection Hc as <-. left.
        eexists. split; [apply push_elem; by left|done].
      + rewrite lookup_insert_ne in Hc by done.
        destruct (Hcell c g Hc Hc0) as [(m & Hm & Hid & Hg)|Hcl].
        * left. exists m. split; [apply push_elem; by right|done].
        * right. by apply closedCell_insert. }
  destruct (IH _ Hst') as (H1 & H2 & H3). split; [done|].
  assert (∀ c, is_Some (visited st !! c) →
               is_Some (visited (pushed endId occupied near R strict st current n) !! c))
    as Hkeep.
  { intros c Hc. unfold pushed. simpl.
    destruct (decide (c = n)) as [->|Hne]; [by rewrite lookup_insert_eq|].
    by rewrite lookup_insert_ne. }
  split; [intros c Hc; by apply H2, Hkeep|].
  intros m [->|Hm]%elem_of_cons Hem; [|by apply H3].
  apply H2. unfold pushed. simpl. by rewrite lookup_insert_eq.
Qed.

Lemma Covering_step st st' : Covering st → stepR st = inr st' → Covering st'.
Proof.
  intros [Hs Hxy Hcell] (current & rest & Hpop & Hid & ->)%searchStep_inr.
  destruct (pop_Forall _ _ _ _ Hpop Hxy) as [[Hcur Hcxy] Hrest].
  destruct (isStale current st) eqn:Hstale.
  - split; [done|done|]. simpl. intros c g Hc.
    destruct (Hcell c g Hc) as [(m & Hm & Hmid & Hg)|Hcl]; [|by right].
    left. exists m. split; [|done].
    apply (pop_elem m) in Hpop. apply Hpop in Hm as [->|Hm]; [|done].
    unfold isStale in Hstale. rewrite Hmid, Hc in Hstale. apply Z.ltb_lt in Hstale. lia.
  - assert (coveringBut (node_id current) {| openSet := rest; visited := visited st |})
      as Hbut.
    { split; [done|]. split; [done|]. simpl. intros c g Hc Hne.
      destruct (Hcell c g Hc) as [(m & Hm & Hmid & Hg)|Hcl]; [|by right].
      left. exists m. split; [|done].
      apply (pop_elem m) in Hpop. apply Hpop in Hm as [->|Hm]; [congruence|done]. }
    destruct (coveringBut_fold _ current (neighbors current) _ Hcur Hbut)
      as ((Hs' & Hxy' & Hcell') & Hkeep & Hnew).
    split; [done|done|]. intros c g Hc.
    destruct (decide (c = node_id current)) as [->|Hne]; [|by apply Hcell'].
    right. split; [done|]. intros n Hn He. apply Hnew; [|done].
    unfold seated in Hcxy. rewrite Hcxy in Hn. exact Hn.
Qed.

Lemma Covering_initial : Covering (initialState startId endId).
Proof.
  split; simpl.
  - by rewrite lookup_insert_eq.
  - constructor; [|constructor]. split; [done|apply seated_start].
  - intros c g Hc. left. exists (startNode startId endId).
    destruct (decide (c = startId)) as [->|Hne].
    + rewrite lookup_insert_eq in Hc. injection Hc as <-. split; [by left|done].
    + by rewrite lookup_insert_ne, lookup_empty in Hc.
Qed.

Lemma Covering_empty st c :
  Covering st → openSet st = [] → reached enter startId c → closedCell (visited st) c.
Proof.
  intros [Hs Hxy Hcell] Hopen.
  assert (∀ c, is_Some (visited st !! c) → closedCell (visited st) c) as Hall.
  { intros d [g Hg]. destruct (Hcell d g Hg) as [(m & Hm & _)|Hcl]; [|done].
    rewrite Hopen in Hm. by apply elem_of_nil in Hm. }
  induction 1 as [|c n Hc IH Hn He]; [by apply Hall|].
  apply Hall. destruct IH as [_ IH]. by apply IH.
Qed.

Lemma searchLoop_complete fuel r :
  reached enter startId endId →
  loopR fuel (initialState startId endId) = Done r → is_Some r.
Proof.
  intros Hreach Hrun.
  destruct (searchLoop_exit Covering fuel _ _ Covering_step Covering_initial Hrun)
    as (st0 & Hst0 & [[-> Hopen]|(current & rest & Hpop & Hid & ->)]%searchStep_inl);
    [|done].
  by destruct (Covering_empty st0 endId Hst0 Hopen Hreach) as [Hne _].
Qed.

End Route.

Lemma findPathAStar_found fuel startId endId grid trains ign R strict p :
  findPathAStar fuel startId endId grid trains ign R strict = Done (Some p) →
  is_Some (cellAt grid startId) ∧ is_Some (cellAt grid endId) ∧
  searchLoop endId grid (occupiedCells trains ign) (nearCongestionCells trains ign)
             R strict fuel (initialState startId endId) = Done (Some p).
Proof.
  rewrite findPathAStar_eq.
  destruct (cellAt grid startId); [|done]. destruct (cellAt grid endId); [|done]. done.
Qed.

(** X4.  The search returns on every input: a push either gives a cell its
    first [visited] entry or lowers the entry it has, so the loop cannot go
    on for ever, and from some amount of fuel on the result is the same. *)
Theorem search_always_returns startId endId grid trains ign R strict :
  ∃ fuel0 r, ∀ fuel, (fuel0 ≤ fuel)%nat →
    findPathAStar fuel startId endId grid trains ign R strict = Done r.
Proof. apply findPathAStar_returns. Qed.

(** What a returned path is, whatever the start key. *)
Lemma findPathAStar_track fuel startId endId grid trains ign R strict p :
  findPathAStar fuel startId endId grid trains ign R strict = Done (Some p) →
  ∃ rest, p = startId :: rest ∧ last p = Some endId ∧ stepwiseFrom startId p ∧
          Forall (λ c, enterable endId grid R strict c = true) rest.
Proof.
  intros (_ & _ & Hrun)%findPathAStar_found.
  exact (searchLoop_route _ _ _ _ _ _ _ _ _ Hrun).
Qed.

Lemma findPathAStar_walk fuel startId endId grid trains ign R strict p :
  parseCellId startId = startId →
  findPathAStar fuel startId endId grid trains ign R strict = Done (Some p) →
  ∃ rest, p = startId :: rest ∧ last p = Some endId ∧ stepwise p ∧
          Forall (λ c, enterable endId grid R strict c = true) rest.
Proof.
  intros Hp (rest & -> & Hlast & Hstep & Hall)%findPathAStar_track.
  exists rest. split; [done|]. split; [done|]. split; [|done].
  by apply (stepwiseFrom_plain startId).
Qed.

(** X5.  A returned path is a walk on the tracks: it begins with the start
    cell and ends with the goal, every two consecutive cells are
    4-adjacent, and every cell after the first is a track or a station of
    the grid.  The start key is one of two coordinates that are not
    negative, as the keys of the board are; the first step of the search
    leaves the position that [parseCellId] reads from the start key. *)
Theorem returned_path_is_a_walk fuel startId endId grid trains ign R strict p :
  0 ≤ startId.1 → 0 ≤ startId.2 →
  findPathAStar fuel startId endId grid trains ign R strict = Done (Some p) →
  head p = Some startId ∧ last p = Some endId ∧
  (∀ i a b, p !! i = Some a → p !! S i = Some b → getHeuristic a.1 a.2 b.1 b.2 = 1) ∧
  (∀ i c, p !! S i = Some c →
          ∃ cell, cellAt grid c = Some cell ∧ isTraversable cell = true).
Proof.
  intros Hx Hy Hrun.
  destruct (findPathAStar_walk _ _ _ _ _ _ _ _ _ (parseCellId_plain startId Hx Hy) Hrun)
    as (rest & -> & Hlast & Hstep & Hall).
  split; [done|]. split; [done|]. split; [exact Hstep|].
  intros i c Hc. simpl in Hc.
  pose proof (proj1 (Forall_forall _ _) Hall c (list_elem_of_lookup_2 _ _ _ Hc)) as He.
  unfold enterable in He. destruct (cellAt grid c) as [cell|]; [|done].
  exists cell. split; [done|]. by apply andb_true_iff in He as [? _].
Qed.

Lemma returned_path_is_a_walk_witness :
  head [(0, 0); (1, 0)] = Some (0, 0) ∧ last [(0, 0); (1, 0)] = Some (1, 0) ∧
  (∀ i a b, [(0, 0); (1, 0)] !! i = Some a → [(0, 0); (1, 0)] !! S i = Some b →
            getHeuristic a.1 a.2 b.1 b.2 = 1) ∧
  (∀ i c, [(0, 0); (1, 0)] !! S i = Some c →
          ∃ cell, cellAt twoCells c = Some cell ∧ isTraversable cell = true).
Proof.
  apply (returned_path_is_a_walk 10 (0, 0) (1, 0) twoCells [] None None false).
  - simpl. lia.
  - simpl. lia.
  - vm_compute. reflexivity.
Defined.

(** X6.  A returned path visits no cell twice. *)
Theorem returned_path_is_simple fuel startId endId grid trains ign R strict p :
  findPathAStar fuel startId endId grid trains ign R strict = Done (Some p) → NoDup p.
Proof.
  intros (_ & _ & Hrun)%findPathAStar_found. by apply searchLoop_simple in Hrun.
Qed.

Lemma returned_path_is_simple_witness : NoDup [(0, 0); (1, 0)].
Proof.
  apply (returned_path_is_simple 10 (0, 0) (1, 0) twoCells [] None None false).
  vm_compute. reflexivity.
Defined.

Lemma reached_cell grid R strict startId endId :
  is_Some (cellAt grid startId) → reached (enterable endId grid R strict) startId endId →
  is_Some (cellAt grid endId).
Proof.
  intros Hs. destruct 1 as [|c n _ _ He]; [done|].
  unfold enterable in He. by destruct (cellAt grid n).
Qed.

(** The search finds a path exactly to the cells it can get to. *)
Lemma findPathAStar_reaches startId endId grid trains ign R strict :
  is_Some (cellAt grid startId) → reached (enterable endId grid R strict) startId endId →
  ∃ fuel0 p, ∀ fuel, (fuel0 ≤ fuel)%nat →
    findPathAStar fuel startId endId grid trains ign R strict = Done (Some p).
Proof.
  intros Hs Hreach.
  destruct (findPathAStar_returns startId endId grid trains ign R strict) as (fuel0 & r & Hr).
  pose proof (reached_cell _ _ _ _ _ Hs Hreach) as He.
  pose proof (Hr fuel0 (Nat.le_refl _)) as Hrun. rewrite findPathAStar_eq in Hrun.
  destruct Hs as [cs Hcs], He as [ce Hce]. rewrite Hcs, Hce in Hrun.
  destruct (searchLoop_complete _ _ _ _ _ _ _ _ _ Hreach Hrun) as [p ->].
  by exists fuel0, p.
Qed.

Lemma findPathAStar_reached fuel startId endId grid trains ign R strict p :
  findPathAStar fuel startId endId grid trains ign R strict = Done (Some p) →
  reached (enterable endId grid R strict) startId endId.
Proof.
  intros (_ & _ & Hrun)%findPathAStar_found.
  exact (searchLoop_reached _ _ _ _ _ _ _ _ _ Hrun).
Qed.

Lemma findPathAStar_complete startId endId grid trains ign R strict :
  parseCellId startId = startId →
  is_Some (cellAt grid startId) → reachableUnder grid R strict startId endId →
  ∃ fuel0 p, ∀ fuel, (fuel0 ≤ fuel)%nat →
    findPathAStar fuel startId endId grid trains ign R strict = Done (Some p).
Proof.
  intros Hp Hs Hreach. apply findPathAStar_reaches; [done|].
  by apply reached_plain.
Qed.

Lemma findPathAStar_sound fuel startId endId grid trains ign R strict p :
  parseCellId startId = startId →
  findPathAStar fuel startId endId grid trains ign R strict = Done (Some p) →
  reachableUnder grid R strict startId endId.
Proof.
  intros Hp Hrun. unfold reachableUnder. apply reached_plain; [done|].
  by apply (findPathAStar_reached fuel _ _ _ trains ign _ _ p).
Qed.

(** X7.  When the start cell is in the grid and the goal can be reached
    from it through cells the search may enter, the search returns a path.
    The start key is one of two coordinates that are not negative, as the
    keys of the board are. *)
Theorem reachable_goal_gets_a_path startId endId grid trains ign R strict :
  0 ≤ startId.1 → 0 ≤ startId.2 →
  is_Some (cellAt grid startId) → reachableUnder grid R strict startId endId →
  ∃ fuel0 p, ∀ fuel, (fuel0 ≤ fuel)%nat →
    findPathAStar fuel startId endId grid trains ign R strict = Done (Some p).
Proof.
  intros Hx Hy. apply findPathAStar_complete. by apply parseCellId_plain.
Qed.

Lemma twoCells_reachable : reachableUnder twoCells None false (0, 0) (1, 0).
Proof.
  apply (reachable_step _ _ (0, 0) (1, 0)); [constructor| |reflexivity].
  unfold around. simpl. do 3 right. by left.
Defined.

Lemma reachable_goal_gets_a_path_witness :
  ∃ fuel0 p, ∀ fuel, (fuel0 ≤ fuel)%nat →
    findPathAStar fuel (0, 0) (1, 0) twoCells [] None None false = Done (Some p).
Proof.
  apply (reachable_goal_gets_a_path (0, 0) (1, 0) twoCells [] None None false).
  - simpl. lia.
  - simpl. lia.
  - by eexists.
  - exact twoCells_reachable.
Defined.

Lemma enterable_soft endId grid R n :
  enterable endId grid R false n = enterable endId grid None false n.
Proof. unfold enterable, excluded. done. Qed.

Lemma enterable_strict_soft endId grid R strict n :
  enterable endId grid R strict n = true → enterable endId grid R false n = true.
Proof.
  unfold enterable, excluded. destruct (cellAt grid n); [|done]. simpl.
  rewrite andb_true_r. by intros [? _]%andb_true_iff.
Qed.

(** X8.  Trains and reservations never make the soft search fail: without
    strict mode it finds a path with trains on the grid and cells reserved
    exactly when it finds one on the empty grid; and whenever the strict
    search finds a path, so does the soft one. *)
Theorem trains_and_soft_reservations_never_block startId endId grid trains ign R :
  ((∃ fuel p, findPathAStar fuel startId endId grid trains ign R false = Done (Some p)) ↔
   (∃ fuel p, findPathAStar fuel startId endId grid [] None None false = Done (Some p))) ∧
  ((∃ fuel p, findPathAStar fuel startId endId grid trains ign R true = Done (Some p)) →
   (∃ fuel p, findPathAStar fuel startId endId grid trains ign R false = Done (Some p))).
Proof.
  assert (∀ trains1 ign1 R1 strict1 trains2 ign2 R2,
            (∀ n, enterable endId grid R1 strict1 n = true →
                  enterable endId grid R2 false n = true) →
            (∃ fuel p, findPathAStar fuel startId endId grid trains1 ign1 R1 strict1
                       = Done (Some p)) →
            (∃ fuel p, findPathAStar fuel startId endId grid trains2 ign2 R2 false
                       = Done (Some p))) as Hmove.
  { intros trains1 ign1 R1 strict1 trains2 ign2 R2 Hsub (fuel & p & Hrun).
    pose proof (findPathAStar_reached _ _ _ _ _ _ _ _ _ Hrun) as Hreach.
    destruct (findPathAStar_found _ _ _ _ _ _ _ _ _ Hrun) as (Hs & _ & _).
    destruct (findPathAStar_reaches startId endId grid trains2 ign2 R2 false Hs)
      as (fuel0 & p' & Hp').
    { by apply (reached_mono (enterable endId grid R1 strict1)). }
    exists fuel0, p'. by apply Hp'. }
  split; [split|].
  - apply Hmove. intros n. by rewrite (enterable_soft endId grid R).
  - apply Hmove. intros n. by rewrite (enterable_soft endId grid R).
  - apply Hmove. intros n. apply enterable_strict_soft.
Qed.

(** X9.  The two ways out before the loop does any work: when the start
    key or the goal key is missing from the grid the result is [null]; when
    the goal is the start cell the result is the path of that one cell,
    whatever its type and whatever is reserved. *)
Theorem search_edge_cases fuel startId endId grid trains ign R strict :
  (cellAt grid startId = None ∨ cellAt grid endId = None →
   findPathAStar fuel startId endId grid trains ign R strict = Done None) ∧
  (is_Some (cellAt grid startId) →
   findPathAStar (S fuel) startId startId grid trains ign R strict = Done (Some [startId])).
Proof.
  split.
  - rewrite findPathAStar_eq. intros [-> | ->]; [done|]. by destruct (cellAt grid startId).
  - intros [c Hc]. rewrite findPathAStar_eq, Hc. simpl. unfold searchStep. simpl.
    by rewrite bool_decide_eq_true_2.
Qed.

Lemma search_edge_cases_witness :
  findPathAStar 0 (0, 0) (5, 5) twoCells [] None None false = Done None ∧
  findPathAStar 1 (0, 0) (0, 0) twoCells [] None None false = Done (Some [(0, 0)]).
Proof.
  split.
  - apply (search_edge_cases 0 (0, 0) (5, 5) twoCells [] None None false).
    right. reflexivity.
  - apply (search_edge_cases 0 (0, 0) (0, 0) twoCells [] None None false).
    eexists. reflexivity.
Defined.

End RouteFacts.

(** ** Reservations and movement inside a tick *)

Module ReservationFacts.
Import PathFacts ShortestFacts RouteFacts TickFacts.

(** *** What [isPathClear] tests *)

(** The cells a train keeps others out of: the one it stands on and, while
    it is [moving], the next one of its path. *)
Definition holds (t : Train) (c : Z * Z) : Prop :=
  trainCell t = Some c ∨
  (state t = moving ∧ currentPathIndex t + 1 < len (path t) ∧
   nthZ (path t) (currentPathIndex t + 1) = Some c).

Lemma occupies_spec myTrainId c t :
  occupies myTrainId c t = true ↔ train_id t ≠ myTrainId ∧ holds t c.
Proof.
  unfold occupies, holds.
  case_bool_decide as Hid; [split; [done|by intros [? _]]|].
  case_bool_decide as Hpos; [split; [by auto|done]|].
  destruct (bool_decide (state t = moving)) eqn:Hs; simpl.
  - apply bool_decide_eq_true in Hs.
    destruct (Z.ltb_spec (currentPathIndex t + 1) (len (path t))) as [Hlt|Hge].
    + rewrite bool_decide_eq_true. split; [by auto|]. intros [_ [?|(_ & _ & ?)]]; done.
    + split; [done|]. intros [_ [?|(_ & ? & _)]]; [done|lia].
  - apply bool_decide_eq_false in Hs. split; [done|]. intros [_ [?|(? & _)]]; done.
Qed.

Lemma isPathClear_spec seg myTrainId allTrains res :
  isPathClear seg myTrainId allTrains res = true ↔
  ∀ c, c ∈ seg → (c ∉ res) ∧ (∀ t, t ∈ allTrains → train_id t ≠ myTrainId → ¬ holds t c).
Proof.
  unfold isPathClear. rewrite forallb_forall. split.
  - intros H c Hc. apply list_elem_of_In in Hc. specialize (H c Hc).
    apply andb_true_iff in H as [Hr Ho]. apply negb_true_iff in Hr, Ho. split.
    + by apply bool_decide_eq_false in Hr.
    + intros t Ht Hid Hh. apply list_elem_of_In in Ht.
      assert (existsb (occupies myTrainId c) allTrains = true) as Hex; [|congruence].
      apply existsb_exists. exists t. split; [done|]. by apply occupies_spec.
  - intros H c Hc. apply list_elem_of_In in Hc. destruct (H c Hc) as [Hr Ho].
    apply andb_true_iff. split; apply negb_true_iff.
    + by apply bool_decide_eq_false.
    + destruct (existsb _ allTrains) eqn:Hex; [|done].
      apply existsb_exists in Hex as (t & Ht & Hocc). apply list_elem_of_In in Ht.
      apply occupies_spec in Hocc as [Hid Hh]. by destruct (Ho t Ht Hid).
Qed.

(** X10.  [isPathClear] answers [true] exactly when no cell of the segment
    is reserved and no other train stands on one of its cells or, being
    [moving] with a next cell on its path, is about to enter one. *)
Theorem clear_segment_is_free seg myTrainId allTrains res :
  isPathClear seg myTrainId allTrains res = true ↔
  ∀ c, c ∈ seg →
       (c ∉ res) ∧
       (∀ t, t ∈ allTrains → train_id t ≠ myTrainId →
             trainCell t ≠ Some c ∧
             (state t = moving → currentPathIndex t + 1 < len (path t) →
              nthZ (path t) (currentPathIndex t + 1) ≠ Some c)).
Proof.
  rewrite isPathClear_spec. unfold holds. split; intros H c Hc; destruct (H c Hc) as [Hr Ho].
  - split; [done|]. intros t Ht Hid. split.
    + intros Hpos. apply (Ho t Ht Hid). by left.
    + intros Hs Hlt Hn. apply (Ho t Ht Hid). by right.
  - split; [done|]. intros t Ht Hid. destruct (Ho t Ht Hid) as [Hpos Hn].
    intros [?|(? & ? & ?)]; [done|]. by apply Hn.
Qed.

(** *** Arithmetic of the array operations *)

Lemma nthZ_Some {A : Type} (l : list A) i x : nthZ l i = Some x → 0 ≤ i < len l.
Proof.
  unfold nthZ, len. destruct (Z.ltb_spec i 0); [done|].
  intros Hl%lookup_lt_Some. lia.
Qed.

Lemma nthZ_splice p i r j :
  0 ≤ i < len p → j ≤ i → nthZ (splice p i r) j = nthZ p j.
Proof.
  unfold nthZ, splice, slice, len. intros Hi Hj.
  destruct (Z.ltb_spec j 0); [done|].
  change (Z.to_nat 0) with 0%nat. rewrite drop_0, Nat.sub_0_r.
  rewrite lookup_app_l by (rewrite length_take; lia).
  apply lookup_take_lt. lia.
Qed.

Section Tick.
Context (fuel : nat) (grid : Grid) (trainsRef : list Train) (speed : Q).

Local Abbreviation updateTrainT := (updateTrain fuel grid trainsRef speed).
Local Abbreviation waitingBranchT := (waitingBranch fuel grid trainsRef).
Local Abbreviation rerouteT := (reroute fuel grid trainsRef).
Local Abbreviation updateAllT := (updateAll fuel grid trainsRef speed).

(** The lookahead window of a train. *)
Definition window (t : Train) : list (Z * Z) := lookahead (path t) (currentPathIndex t).

(** What the block [if (blocked) { ... }] can leave in [path] and
    [segmentToReserve]. *)
Inductive rerouted (train : Train) (l : Locals) (res : gset (Z * Z))
  : list (Z * Z) → list (Z * Z) → Prop :=
| rerouted_kept :
    rerouted train l res (l_path l) (lookahead (l_path l) (l_currentPathIndex l))
| rerouted_strict here p :
    nthZ (l_path l) (l_currentPathIndex l) = Some here →
    findPathAStar fuel here (toId train) grid trainsRef (Some (train_id train))
                  (Some res) true = Done (Some p) →
    rerouted train l res (splice (l_path l) (l_currentPathIndex l) p)
             (lookahead (splice (l_path l) (l_currentPathIndex l) p) (l_currentPathIndex l))
| rerouted_soft here p :
    nthZ (l_path l) (l_currentPathIndex l) = Some here →
    findPathAStar fuel here (toId train) grid trainsRef (Some (train_id train))
                  (Some res) false = Done (Some p) →
    isPathClear (lookahead (l_path l) (l_currentPathIndex l)) (train_id train)
                trainsRef res = false →
    rerouted train l res (splice (l_path l) (l_currentPathIndex l) p)
             (lookahead (l_path l) (l_currentPathIndex l)).

Lemma usable_Some r p : usable r = Some p → r = Some p.
Proof.
  unfold usable. destruct r as [q|]; [|done]. by destruct (0 <? len q); [intros [= ->]|].
Qed.

Lemma reroute_rerouted train l res path' seg' :
  isPathClear (lookahead (l_path l) (l_currentPathIndex l)) (train_id train)
              trainsRef res = false →
  rerouteT train l (lookahead (l_path l) (l_currentPathIndex l)) res = Done (path', seg') →
  rerouted train l res path' seg'.
Proof.
  intros Hblocked. unfold reroute. cbv zeta.
  destruct (nthZ _ _) as [here|] eqn:Hhere; [|intros [= <- <-]; constructor].
  destruct (findPathAStar _ _ _ _ _ _ _ true) as [|r1] eqn:H1; [done|]. cbn [bindR].
  destruct (usable r1) as [sp|] eqn:Hu1.
  { apply usable_Some in Hu1 as ->. intros [= <- <-]. by apply (rerouted_strict _ _ _ here). }
  destruct (_ =? 0); [|intros [= <- <-]; constructor].
  destruct (findPathAStar _ _ _ _ _ _ _ false) as [|r2] eqn:H2; [done|]. cbn [bindR].
  destruct (usable r2) as [sp|] eqn:Hu2; intros [= <- <-]; [|constructor].
  apply usable_Some in Hu2 as ->. by apply (rerouted_soft _ _ _ here).
Qed.

(** The three ways out of the block [if (state === 'waiting') { ... }]. *)
Inductive waitingOutcome (train : Train) (cur : Z * Z) (l : Locals) (res : gset (Z * Z))
  : Train → gset (Z * Z) → Prop :=
| outcome_arrive :
    len (l_path l) - 1 ≤ l_currentPathIndex l →
    waitingOutcome train cur l res (arrive train (l_currentPathIndex l)) res
| outcome_go path' seg :
    l_currentPathIndex l < len (l_path l) - 1 →
    rerouted train l res path' seg →
    isPathClear seg (train_id train) trainsRef res = true →
    waitingOutcome train cur l res
      (commit train {| l_currentPathIndex := l_currentPathIndex l;
                       l_progress := l_progress l; l_state := moving;
                       l_path := path'; l_waitingTime := 0 |})
      (addAll seg res)
| outcome_wait path' seg :
    l_currentPathIndex l < len (l_path l) - 1 →
    rerouted train l res path' seg →
    isPathClear seg (train_id train) trainsRef res = false →
    waitingOutcome train cur l res
      (commit train {| l_currentPathIndex := l_currentPathIndex l;
                       l_progress := l_progress l; l_state := waiting;
                       l_path := path'; l_waitingTime := l_waitingTime l + 1 |})
      ({[cur]} ∪ res).

Lemma waitingBranch_outcome train cur l res train' res' :
  waitingBranchT train cur l res = Done (train', res') →
  waitingOutcome train cur l res train' res'.
Proof.
  unfold waitingBranch. cbv zeta.
  destruct (Z.leb_spec (len (l_path l) - 1) (l_currentPathIndex l)) as [Hlast|Hlast].
  { intros [= <- <-]. by constructor. }
  destruct (isPathClear (lookahead _ _) _ _ _) eqn:Hclear; cbn [negb].
  - cbn [bindR]. rewrite Hclear. intros [= <- <-].
    apply (outcome_go _ _ _ _ (l_path l) (lookahead (l_path l) (l_currentPathIndex l)));
      [done|constructor|done].
  - destruct (reroute _ _ _ _ _ _ _) as [|[path' seg']] eqn:Hr; [done|]. cbn [bindR].
    apply reroute_rerouted in Hr; [|done].
    destruct (isPathClear seg' _ _ _) eqn:Hclear'; intros [= <- <-].
    + by apply outcome_go.
    + by apply (outcome_wait _ _ _ _ path' seg').
Qed.

(** A reroute that splices a soft path in is never followed by a go. *)
Lemma rerouted_go train l res path' seg :
  rerouted train l res path' seg →
  isPathClear seg (train_id train) trainsRef res = true →
  seg = lookahead path' (l_currentPathIndex l).
Proof. destruct 1; [done|done|congruence]. Qed.

(** The ways out of the callback for a train that is [moving] or
    [waiting]. *)
Inductive runningOutcome (train : Train) (res : gset (Z * Z)) : Train → gset (Z * Z) → Prop :=
| running_off :
    nthZ (path train) (currentPathIndex train) = None →
    runningOutcome train res (with_state train arrived) res
| running_on cur :
    nthZ (path train) (currentPathIndex train) = Some cur →
    state train = moving →
    Qle_bool 1 (progress train + MOVEMENT_SPEED * speed) = false →
    runningOutcome train res
      (commit train {| l_currentPathIndex := currentPathIndex train;
                       l_progress := (progress train + MOVEMENT_SPEED * speed)%Q;
                       l_state := moving; l_path := path train; l_waitingTime := 0 |})
      (addAll (lookahead (path train) (currentPathIndex train)) res)
| running_next cur train' res' :
    nthZ (path train) (currentPathIndex train) = Some cur →
    state train = moving →
    Qle_bool 1 (progress train + MOVEMENT_SPEED * speed) = true →
    waitingOutcome train cur
      {| l_currentPathIndex := currentPathIndex train + 1; l_progress := 0;
         l_state := waiting; l_path := path train; l_waitingTime := 0 |} res train' res' →
    runningOutcome train res train' res'
| running_waiting cur train' res' :
    nthZ (path train) (currentPathIndex train) = Some cur →
    state train = waiting →
    waitingOutcome train cur
      {| l_currentPathIndex := currentPathIndex train; l_progress := progress train;
         l_state := waiting; l_path := path train; l_waitingTime := waitingTime train |}
      res train' res' →
    runningOutcome train res train' res'.

Lemma updateTrain_running train res train' res' :
  updateTrainT train res = Done (train', res') →
  state train = moving ∨ state train = waiting →
  runningOutcome train res train' res'.
Proof.
  unfold updateTrain. intros Hrun Hs.
  destruct (nthZ (path train) (currentPathIndex train)) as [cur|] eqn:Hcur.
  2:{ destruct Hs as [Hs|Hs]; rewrite Hs in Hrun; injection Hrun as <- <-;
        by constructor. }
  destruct Hs as [Hs|Hs]; rewrite Hs in Hrun; unfold advance in Hrun; simpl in Hrun.
  - destruct (Qle_bool 1 _) eqn:Hcross; simpl in Hrun.
    + apply waitingBranch_outcome in Hrun. by apply (running_next _ _ cur).
    + injection Hrun as <- <-. by apply (running_on _ _ cur).
  - apply waitingBranch_outcome in Hrun. by apply (running_waiting _ _ cur).
Qed.

Lemma updateTrain_moving train res train' res' :
  updateTrainT train res = Done (train', res') → state train' = moving →
  state train = moving ∨ state train = waiting.
Proof.
  unfold updateTrain. destruct (state train) eqn:Hs; auto.
  - destruct (isCyclic train); intros [= <- <-] Hm; simpl in Hm; congruence.
  - destruct (0 <? dwellRemaining train); [intros [= <- <-] Hm; simpl in Hm; congruence|].
    destruct (findPathAStar _ _ _ _ _ _ _ _) as [|r]; [done|]. cbn [bindR].
    destruct (usable r); intros [= <- <-] Hm; simpl in Hm; congruence.
Qed.

Lemma addAll_elem (seg : list (Z * Z)) (res : gset (Z * Z)) c :
  c ∈ addAll seg res ↔ c ∈ seg ∨ c ∈ res.
Proof.
  unfold addAll. revert res. induction seg as [|x seg IH]; intros res; simpl.
  { split; [by right|]. by intros [?%elem_of_nil|?]. }
  rewrite IH, elem_of_union, elem_of_singleton, elem_of_cons. tauto.
Qed.

(** *** A train is let go only into a free window *)

Lemma granted_clear train res train' res' :
  updateTrainT train res = Done (train', res') →
  state train' = moving →
  state train = waiting ∨ currentPathIndex train' ≠ currentPathIndex train →
  isPathClear (window train') (train_id train) trainsRef res = true ∧
  res' = addAll (window train') res ∧ waitingTime train' = 0.
Proof.
  intros Hrun Hmov Hgr.
  pose proof (updateTrain_moving _ _ _ _ Hrun Hmov) as Hs.
  destruct (updateTrain_running _ _ _ _ Hrun Hs)
    as [Hoff|cur Hcur Hst Hcross|cur t' r' Hcur Hst Hcross Hout|cur t' r' Hcur Hst Hout].
  - done.
  - simpl in Hgr. destruct Hgr as [Hw|Hne]; congruence.
  - destruct Hout as [Hlast|path' seg Hlast Hre Hclear|path' seg Hlast Hre Hclear]; [done| |done].
    pose proof (rerouted_go _ _ _ _ _ Hre Hclear) as Hseg. simpl in Hseg.
    unfold window. simpl. by rewrite <- Hseg.
  - destruct Hout as [Hlast|path' seg Hlast Hre Hclear|path' seg Hlast Hre Hclear]; [done| |done].
    pose proof (rerouted_go _ _ _ _ _ Hre Hclear) as Hseg. simpl in Hseg.
    unfold window. simpl. by rewrite <- Hseg.
Qed.

(** X11.  A train that is [moving] after its update, having been
    [waiting] before or having advanced to the next cell, was granted its
    lookahead window: when it was updated no cell of the window was
    reserved and no other train stood on one or was about to enter one.
    The update adds the window to the reservations and sets the waiting
    time of the train to 0. *)
Theorem granted_window_was_free train res train' res' :
  updateTrainT train res = Done (train', res') →
  state train' = moving →
  state train = waiting ∨ currentPathIndex train' ≠ currentPathIndex train →
  (∀ c, c ∈ window train' →
        (c ∉ res) ∧
        (∀ t, t ∈ trainsRef → train_id t ≠ train_id train →
              trainCell t ≠ Some c ∧
              (state t = moving → currentPathIndex t + 1 < len (path t) →
               nthZ (path t) (currentPathIndex t + 1) ≠ Some c))) ∧
  (∀ c, c ∈ res' ↔ c ∈ window train' ∨ c ∈ res) ∧
  waitingTime train' = 0.
Proof.
  intros Hrun Hmov Hgr.
  destruct (granted_clear _ _ _ _ Hrun Hmov Hgr) as (Hclear & -> & Hw).
  split; [|split; [intros c; apply addAll_elem|done]].
  intros c Hc. destruct (proj1 (isPathClear_spec _ _ _ _) Hclear c Hc) as [Hr Ho].
  split; [done|]. intros t Ht Hid. unfold holds in Ho. split.
  - intros Hpos. apply (Ho t Ht Hid). by left.
  - intros Hs Hlt Hn. apply (Ho t Ht Hid). by right.
Qed.

(** *** Reservations of one tick *)

Lemma waitingOutcome_grows train cur l res train' res' :
  waitingOutcome train cur l res train' res' → res ⊆ res'.
Proof.
  destruct 1; [done| |set_solver]. intros c Hc. apply addAll_elem. by right.
Qed.

Lemma updateTrain_grows train res train' res' :
  updateTrainT train res = Done (train', res') → res ⊆ res'.
Proof.
  intros Hrun. destruct (decide (state train = moving ∨ state train = waiting)) as [Hs|Hs].
  - destruct (updateTrain_running _ _ _ _ Hrun Hs)
      as [Hoff|cur Hcur Hst Hcross|cur t' r' Hcur Hst Hcross Hout|cur t' r' Hcur Hst Hout];
      [done| |by eapply waitingOutcome_grows..].
    intros c Hc. apply addAll_elem. by right.
  - revert Hrun. unfold updateTrain. destruct (state train) eqn:Hst; [tauto|tauto| |].
    + destruct (isCyclic train); by intros [= <- <-].
    + destruct (0 <? dwellRemaining train); [by intros [= <- <-]|].
      destruct (findPathAStar _ _ _ _ _ _ _ _) as [|r]; [done|]. cbn [bindR].
      by destruct (usable r); intros [= <- <-].
Qed.

Lemma moving_window_reserved train res train' res' :
  updateTrainT train res = Done (train', res') → state train' = moving →
  ∀ c, c ∈ window train' → c ∈ res'.
Proof.
  intros Hrun Hmov c Hc.
  destruct (decide (state train = waiting ∨ currentPathIndex train' ≠ currentPathIndex train))
    as [Hgr|Hkeep].
  { destruct (granted_clear _ _ _ _ Hrun Hmov Hgr) as (_ & -> & _).
    apply addAll_elem. by left. }
  pose proof (updateTrain_moving _ _ _ _ Hrun Hmov) as Hs.
  destruct (updateTrain_running _ _ _ _ Hrun Hs)
    as [Hoff|cur Hcur Hst Hcross|cur t' r' Hcur Hst Hcross Hout|cur t' r' Hcur Hst Hout].
  - done.
  - apply addAll_elem. by left.
  - destruct Hout; [done| |done]. simpl in Hkeep. exfalso. apply Hkeep. right. lia.
  - exfalso. apply Hkeep. by left.
Qed.

Lemma blocked_reserves train res train' res' :
  updateTrainT train res = Done (train', res') →
  state train = moving ∨ state train = waiting →
  state train' = waiting →
  ∃ cur, nthZ (path train) (currentPathIndex train) = Some cur ∧
         res' = {[cur]} ∪ res ∧
         waitingTime train' =
           (if decide (state train = moving) then 0 else waitingTime train) + 1.
Proof.
  intros Hrun Hs Hw.
  destruct (updateTrain_running _ _ _ _ Hrun Hs)
    as [Hoff|cur Hcur Hst Hcross|cur t' r' Hcur Hst Hcross Hout|cur t' r' Hcur Hst Hout].
  - done.
  - done.
  - destruct Hout; [done|done|]. exists cur. simpl. by rewrite decide_True.
  - destruct Hout; [done|done|]. exists cur. simpl. rewrite decide_False by congruence. done.
Qed.

(** X13.  A train that was [moving] or [waiting] and is [waiting] after
    its update reserves one cell more, the cell of its path at the index
    it had before the update, and its waiting time is one more than before,
    counted from 0 when it was moving. *)
Theorem blocked_train_reserves_the_cell_it_came_from train res train' res' :
  updateTrainT train res = Done (train', res') →
  state train = moving ∨ state train = waiting →
  state train' = waiting →
  ∃ cur, nthZ (path train) (currentPathIndex train) = Some cur ∧
         res' = {[cur]} ∪ res ∧
         waitingTime train' =
           (if decide (state train = moving) then 0 else waitingTime train) + 1.
Proof. apply blocked_reserves. Qed.

Lemma updateAll_cons train rest res ts' :
  updateAllT (train :: rest) res = Done ts' →
  ∃ train' res' rest', updateTrainT train res = Done (train', res') ∧
                       updateAllT rest res' = Done rest' ∧ ts' = train' :: rest'.
Proof.
  simpl. destruct (updateTrain _ _ _ _ _ _) as [|[train' res']]; [done|]. cbn [bindR].
  destruct (updateAll _ _ _ _ _ _) as [|rest'] eqn:Hrest; [done|]. cbn [bindR].
  intros [= <-]. by exists train', res', rest'.
Qed.

Lemma updateAll_single ts : ∀ res ts' j b b',
  updateAllT ts res = Done ts' → ts !! j = Some b → ts' !! j = Some b' →
  ∃ q q', res ⊆ q ∧ updateTrainT b q = Done (b', q').
Proof.
  induction ts as [|train rest IH]; intros res ts' j b b' Hrun Hb Hb'; [done|].
  apply updateAll_cons in Hrun as (train' & res' & rest' & Hone & Hrest & ->).
  destruct j as [|j]; simpl in Hb, Hb'.
  - injection Hb as <-. injection Hb' as <-. by exists res, res'.
  - destruct (IH res' rest' j b b' Hrest Hb Hb') as (q & q' & Hsub & Hq).
    exists q, q'. split; [|done]. apply updateTrain_grows in Hone. set_solver.
Qed.

Lemma updateAll_pair ts : ∀ res ts' i j a b a' b',
  updateAllT ts res = Done ts' → (i < j)%nat →
  ts !! i = Some a → ts' !! i = Some a' → ts !! j = Some b → ts' !! j = Some b' →
  ∃ r r' q q', res ⊆ r ∧ updateTrainT a r = Done (a', r') ∧
               r' ⊆ q ∧ updateTrainT b q = Done (b', q').
Proof.
  induction ts as [|train rest IH]; intros res ts' i j a b a' b' Hrun Hij Ha Ha' Hb Hb';
    [done|].
  apply updateAll_cons in Hrun as (train' & res' & rest' & Hone & Hrest & ->).
  destruct j as [|j]; [lia|]. simpl in Hb, Hb'.
  destruct i as [|i]; simpl in Ha, Ha'.
  - injection Ha as <-. injection Ha' as <-.
    destruct (updateAll_single rest res' rest' j b b' Hrest Hb Hb') as (q & q' & Hsub & Hq).
    by exists res, res', q, q'.
  - destruct (IH res' rest' i j a b a' b' Hrest ltac:(lia) Ha Ha' Hb Hb')
      as (r & r' & q & q' & Hsub & Hr & Hsub' & Hq).
    exists r, r', q, q'. split; [|done]. apply updateTrain_grows in Hone. set_solver.
Qed.

(** *** A train moves along its path, one cell at a time *)

Lemma rerouted_prefix train l res path' seg :
  rerouted train l res path' seg →
  ∀ i, i ≤ l_currentPathIndex l → nthZ path' i = nthZ (l_path l) i.
Proof.
  destruct 1 as [|here p Hhere _|here p Hhere _ _]; [done| |]; intros i Hi;
    (apply nthZ_splice; [by apply (nthZ_Some _ _ here)|done]).
Qed.

Lemma waitingOutcome_prefix train cur l res train' res' :
  waitingOutcome train cur l res train' res' → l_path l = path train →
  currentPathIndex train' = l_currentPathIndex l ∧
  (∀ i, i ≤ l_currentPathIndex l → nthZ (path train') i = nthZ (path train) i) ∧
  fromId train' = fromId train ∧ toId train' = toId train.
Proof.
  intros Hout Hp. destruct Hout as [Hlast|path' seg Hlast Hre _|path' seg Hlast Hre _]; simpl.
  - done.
  - split; [done|]. split; [|done]. rewrite <- Hp. by apply (rerouted_prefix _ _ _ _ _ Hre).
  - split; [done|]. split; [|done]. rewrite <- Hp. by apply (rerouted_prefix _ _ _ _ _ Hre).
Qed.

(** The cell a train stands on after its update: the one it stood on, or
    the next one of its path when it was [moving]. *)
Lemma updateTrain_cell train res train' res' :
  updateTrainT train res = Done (train', res') →
  state train = moving ∨ state train = waiting →
  trainCell train' = trainCell train ∨
  (state train = moving ∧
   trainCell train' = nthZ (path train) (currentPathIndex train + 1)).
Proof.
  intros Hrun Hs. unfold trainCell.
  destruct (updateTrain_running _ _ _ _ Hrun Hs)
    as [Hoff|cur Hcur Hst Hcross|cur t' r' Hcur Hst Hcross Hout|cur t' r' Hcur Hst Hout].
  - by left.
  - by left.
  - destruct (waitingOutcome_prefix _ _ _ _ _ _ Hout eq_refl) as (Hi & Hpre & _).
    simpl in Hi, Hpre. right. split; [done|]. rewrite Hi. apply Hpre. lia.
  - destruct (waitingOutcome_prefix _ _ _ _ _ _ Hout eq_refl) as (Hi & Hpre & _).
    simpl in Hi, Hpre. left. rewrite Hi. apply Hpre. lia.
Qed.

(** X12.  Trains updated in the same tick are not granted overlapping
    windows: a window granted to a train contains no cell reserved when
    the tick began, no cell of the window of a train updated before it that
    is [moving] after its update, and not the cell that a train updated
    before it, and blocked, reserved.  Nor does it contain a cell on which
    another train of the tick stands, before its update or after it: the
    cell a blocked train has advanced to is the next cell of a [moving]
    train of the snapshot, which [isPathClear] keeps out of the window. *)
Theorem windows_of_a_tick_do_not_overlap ts res ts' i j a b a' b' :
  updateAllT ts res = Done ts' → (i < j)%nat →
  ts !! i = Some a → ts' !! i = Some a' → ts !! j = Some b → ts' !! j = Some b' →
  state b' = moving →
  state b = waiting ∨ currentPathIndex b' ≠ currentPathIndex b →
  ∀ c, c ∈ window b' →
       (c ∉ res) ∧
       (state a' = moving → c ∉ window a') ∧
       (state a' = waiting → state a = moving ∨ state a = waiting → trainCell a ≠ Some c) ∧
       (a ∈ trainsRef → train_id a ≠ train_id b →
        state a = moving ∨ state a = waiting →
        trainCell a ≠ Some c ∧ trainCell a' ≠ Some c).
Proof.
  intros Hrun Hij Ha Ha' Hb Hb' Hmov Hgr c Hc.
  destruct (updateAll_pair ts res ts' i j a b a' b' Hrun Hij Ha Ha' Hb Hb')
    as (r & r' & q & q' & Hsub & Hr & Hsub' & Hq).
  destruct (granted_clear _ _ _ _ Hq Hmov Hgr) as (Hclear & _ & _).
  destruct (proj1 (isPathClear_spec _ _ _ _) Hclear c Hc) as [Hfree Hothers].
  pose proof (updateTrain_grows _ _ _ _ Hr) as Hgrow.
  split; [intros Hin; by apply Hfree, Hsub', Hgrow, Hsub|]. split; [|split].
  - intros Ha'mov Hin. apply Hfree, Hsub'. by apply (moving_window_reserved _ _ _ _ Hr).
  - intros Hwait Hs Hcell.
    destruct (blocked_reserves _ _ _ _ Hr Hs Hwait) as (cur & Hcur & -> & _).
    unfold trainCell in Hcell. apply Hfree, Hsub', elem_of_union. left.
    apply elem_of_singleton. congruence.
  - intros Hin Hid Hs. specialize (Hothers a Hin Hid). unfold holds in Hothers.
    assert (trainCell a ≠ Some c) as Hbefore by (intros Hcell; apply Hothers; by left).
    split; [done|].
    destruct (updateTrain_cell _ _ _ _ Hr Hs) as [-> |[Hst ->]]; [done|].
    intros Hnext. apply Hothers. right. split; [done|]. split; [|done].
    apply nthZ_Some in Hnext. lia.
Qed.

(** X15.  An update of a moving or waiting train leaves its index where
    it was or, for a moving train, adds one to it.  The cells of the path
    up to the new index are the ones of before (a reroute replaces only
    what lies ahead), and origin and destination stay. *)
Theorem update_moves_at_most_one_cell train res train' res' :
  updateTrainT train res = Done (train', res') →
  state train = moving ∨ state train = waiting →
  (currentPathIndex train' = currentPathIndex train ∨
   (state train = moving ∧ currentPathIndex train' = currentPathIndex train + 1)) ∧
  (∀ i, i ≤ currentPathIndex train' → nthZ (path train') i = nthZ (path train) i) ∧
  fromId train' = fromId train ∧ toId train' = toId train.
Proof.
  intros Hrun Hs.
  destruct (updateTrain_running _ _ _ _ Hrun Hs)
    as [Hoff|cur Hcur Hst Hcross|cur t' r' Hcur Hst Hcross Hout|cur t' r' Hcur Hst Hout].
  - simpl. auto.
  - simpl. auto.
  - destruct (waitingOutcome_prefix _ _ _ _ _ _ Hout eq_refl) as (Hi & Hpre & Hf & Ht).
    simpl in Hi, Hpre. rewrite Hi. auto.
  - destruct (waitingOutcome_prefix _ _ _ _ _ _ Hout eq_refl) as (Hi & Hpre & Hf & Ht).
    simpl in Hi, Hpre. rewrite Hi. auto.
Qed.

(** *** The path of a train leads to its destination *)

Definition wellRouted (t : Train) : Prop :=
  stepwise (path t) ∧ last (path t) = Some (toId t).

Lemma stepwise_take (p : list (Z * Z)) n : stepwise p → stepwise (take n p).
Proof.
  intros Hp i a b Ha Hb.
  apply lookup_take_Some in Ha as [Ha _]. apply lookup_take_Some in Hb as [Hb _].
  by apply (Hp i).
Qed.

Lemma stepwise_join (l1 l2 : list (Z * Z)) x :
  stepwise (l1 ++ [x]) → stepwise (x :: l2) → stepwise (l1 ++ x :: l2).
Proof.
  intros H1 H2 i a b Ha Hb.
  destruct (decide (i < length l1)%nat) as [Hi|Hi].
  - apply (H1 i).
    + rewrite lookup_app_l in Ha by done. by rewrite lookup_app_l.
    + destruct (decide (S i < length l1)%nat) as [Hi'|Hi'].
      * rewrite lookup_app_l in Hb by done. by rewrite lookup_app_l.
      * assert (S i = length l1) as Hlen by lia.
        rewrite lookup_app_r in Hb by lia. rewrite lookup_app_r by lia.
        rewrite Hlen, Nat.sub_diag in *. done.
  - apply (H2 (i - length l1)%nat).
    + by rewrite lookup_app_r in Ha by lia.
    + rewrite lookup_app_r in Hb by lia.
      by replace (S i - length l1)%nat with (S (i - length l1)) in Hb by lia.
Qed.

Lemma splice_cons (p : list (Z * Z)) i here rest :
  nthZ p i = Some here →
  splice p i (here :: rest) = take (Z.to_nat i) p ++ here :: rest ∧
  take (Z.to_nat i) p ++ [here] = take (S (Z.to_nat i)) p.
Proof.
  intros Hhere. pose proof (nthZ_Some _ _ _ Hhere) as Hi.
  unfold nthZ in Hhere. destruct (Z.ltb_spec i 0); [lia|].
  unfold splice, slice. change (Z.to_nat 0) with 0%nat. rewrite drop_0, Nat.sub_0_r.
  replace (Z.to_nat (i + 1)) with (S (Z.to_nat i)) by lia.
  rewrite (take_S_r _ _ _ Hhere). simpl. by rewrite <- app_assoc.
Qed.

Lemma splice_route (p : list (Z * Z)) i here r dest :
  stepwise p → nthZ p i = Some here →
  (∃ rest, r = here :: rest ∧ last r = Some dest ∧ stepwise r) →
  stepwise (splice p i r) ∧ last (splice p i r) = Some dest.
Proof.
  intros Hp Hhere (rest & -> & Hlast & Hr).
  destruct (splice_cons p i here rest Hhere) as [-> Htake]. split.
  - apply stepwise_join; [|done]. rewrite Htake. by apply stepwise_take.
  - by rewrite last_app, Hlast.
Qed.

Lemma search_route startId endId trains ign R strict p :
  plainKeys grid →
  findPathAStar fuel startId endId grid trains ign R strict = Done (Some p) →
  ∃ rest, p = startId :: rest ∧ last p = Some endId ∧ stepwise p.
Proof.
  intros Hkeys Hrun.
  destruct (findPathAStar_found _ _ _ _ _ _ _ _ _ Hrun) as ([cs Hcs] & _ & _).
  destruct (findPathAStar_walk _ _ _ _ _ _ _ _ _ (plainKeys_cellAt _ _ _ Hkeys Hcs) Hrun)
    as (rest & -> & Hlast & Hstep & _).
  by exists rest.
Qed.

Lemma rerouted_route train l res path' seg :
  plainKeys grid →
  rerouted train l res path' seg →
  stepwise (l_path l) → last (l_path l) = Some (toId train) →
  stepwise path' ∧ last path' = Some (toId train).
Proof.
  intros Hkeys.
  destruct 1 as [|here p Hhere Hfind|here p Hhere Hfind _]; [done| |]; intros Hp Hlast;
    apply (splice_route _ _ here); auto; by apply search_route in Hfind.
Qed.

Lemma waitingOutcome_route train cur l res train' res' :
  plainKeys grid →
  waitingOutcome train cur l res train' res' → l_path l = path train →
  wellRouted train → wellRouted train'.
Proof.
  intros Hkeys Hout Hp [Hstep Hlast]. unfold wellRouted.
  destruct Hout as [?|path' seg _ Hre _|path' seg _ Hre _]; simpl; [done| |];
    apply (rerouted_route _ _ _ _ _ Hkeys Hre); by rewrite Hp.
Qed.

Lemma updateTrain_route train res train' res' :
  plainKeys grid →
  updateTrainT train res = Done (train', res') → wellRouted train → wellRouted train'.
Proof.
  intros Hkeys Hrun Hwr.
  destruct (decide (state train = moving ∨ state train = waiting)) as [Hs|Hs].
  - destruct (updateTrain_running _ _ _ _ Hrun Hs)
      as [Hoff|cur Hcur Hst Hcross|cur t' r' Hcur Hst Hcross Hout|cur t' r' Hcur Hst Hout];
      [done|done|by apply (waitingOutcome_route _ _ _ _ _ _ Hkeys Hout)..].
  - revert Hrun. unfold updateTrain. destruct (state train) eqn:Hst; [tauto|tauto| |].
    + destruct (isCyclic train); by intros [= <- <-].
    + destruct (0 <? dwellRemaining train); [by intros [= <- <-]|].
      destruct (findPathAStar _ _ _ _ _ _ _ _) as [|r] eqn:Hfind; [done|]. cbn [bindR].
      destruct (usable r) as [p|] eqn:Hu; intros [= <- <-]; [|done].
      apply usable_Some in Hu as ->.
      apply search_route in Hfind as (rest & _ & Hlast & Hstep); [by split|done].
Qed.

(** X16.  An update keeps a route a route: on a grid whose keys have no
    negative coordinate, as the keys of the board, when consecutive cells
    of the path are 4-adjacent and the path ends at the destination of the
    train, the same holds after the update, rerouted or not. *)
Theorem update_keeps_route train res train' res' :
  plainKeys grid →
  updateTrainT train res = Done (train', res') →
  (∀ i a b, path train !! i = Some a → path train !! S i = Some b →
            getHeuristic a.1 a.2 b.1 b.2 = 1) →
  last (path train) = Some (toId train) →
  (∀ i a b, path train' !! i = Some a → path train' !! S i = Some b →
            getHeuristic a.1 a.2 b.1 b.2 = 1) ∧
  last (path train') = Some (toId train').
Proof.
  intros Hkeys Hrun Hstep Hlast.
  by apply (updateTrain_route train res train' res' Hkeys Hrun).
Qed.

End Tick.

(** Two trains of the yard that wait at the head of their paths, one in
    the corridor and one on the siding, and the same trains once let go. *)
Definition eastWaiting : Train :=
  trainAt "east" (0, 0) (3, 0) [(0, 0); (1, 0); (2, 0); (3, 0)] 0 0 waiting 9 0.
Definition sidingWaiting : Train :=
  trainAt "shunt" (0, 2) (2, 2) [(0, 2); (1, 2); (2, 2)] 0 0 waiting 1 0.
Definition eastGoing : Train :=
  trainAt "east" (0, 0) (3, 0) [(0, 0); (1, 0); (2, 0); (3, 0)] 0 0 moving 9 0.
Definition sidingGoing : Train :=
  trainAt "shunt" (0, 2) (2, 2) [(0, 2); (1, 2); (2, 2)] 0 0 moving 1 0.

Lemma granted_window_was_free_witness :
  (∀ c, c ∈ window eastGoing →
        (c ∉ (∅ : gset (Z * Z))) ∧
        (∀ t, t ∈ [eastWaiting; sidingWaiting] → train_id t ≠ train_id eastWaiting →
              trainCell t ≠ Some c ∧
              (state t = moving → currentPathIndex t + 1 < len (path t) →
               nthZ (path t) (currentPathIndex t + 1) ≠ Some c))) ∧
  (∀ c, c ∈ addAll [(1, 0); (2, 0); (3, 0)] ∅ ↔ c ∈ window eastGoing ∨ c ∈ (∅ : gset (Z * Z))) ∧
  waitingTime eastGoing = 0.
Proof.
  apply (granted_window_was_free 100 yard [eastWaiting; sidingWaiting] 1 eastWaiting ∅
           eastGoing (addAll [(1, 0); (2, 0); (3, 0)] ∅)).
  - vm_compute. reflexivity.
  - reflexivity.
  - left. reflexivity.
Defined.

(** The eastbound train about to reach its second cell, the westbound
    train that meets it in the corridor, and the two as the tick leaves
    them: the eastbound train has advanced and is blocked. *)
Definition eastRunning : Train :=
  trainAt "east" (0, 0) (3, 0) [(0, 0); (1, 0); (2, 0); (3, 0)] 0 (9 # 10) moving 9 0.
Definition eastStopped : Train :=
  trainAt "east" (0, 0) (3, 0) [(0, 0); (1, 0); (2, 0); (3, 0)] 1 0 waiting 9 1.
Definition westHeld : Train :=
  trainAt "west" (3, 0) (0, 0) [(3, 0); (2, 0); (1, 0); (0, 0)] 1 0 waiting 8 3.
Definition westStill : Train :=
  trainAt "west" (3, 0) (0, 0) [(3, 0); (2, 0); (1, 0); (0, 0)] 1 0 waiting 8 4.

Lemma windows_of_a_tick_do_not_overlap_witness :
  (1, 2) ∈ window sidingGoing ∧
  trainCell eastRunning = Some (0, 0) ∧ trainCell eastStopped = Some (1, 0) ∧
  trainCell eastRunning ≠ Some (1, 2) ∧ trainCell eastStopped ≠ Some (1, 2).
Proof.
  assert ((1, 2) ∈ window sidingGoing) as Hin by (vm_compute; constructor).
  destruct (windows_of_a_tick_do_not_overlap 100 yard [eastRunning; westHeld; sidingWaiting] 1
              [eastRunning; westHeld; sidingWaiting] ∅ [eastStopped; westStill; sidingGoing]
              0 2 eastRunning sidingWaiting eastStopped sidingGoing) with (c := (1, 2))
    as (_ & _ & _ & Hcells).
  - vm_compute. reflexivity.
  - lia.
  - reflexivity.
  - reflexivity.
  - reflexivity.
  - reflexivity.
  - reflexivity.
  - left. reflexivity.
  - exact Hin.
  - split; [exact Hin|]. split; [reflexivity|]. split; [reflexivity|].
    apply Hcells; [left|discriminate|left; reflexivity].
Defined.

Lemma blocked_train_reserves_the_cell_it_came_from_witness :
  ∃ cur, nthZ (path eastbound) (currentPathIndex eastbound) = Some cur ∧
         ({[ (1, 0) ]} ∪ ∅ : gset (Z * Z)) = {[cur]} ∪ ∅ ∧
         26 = (if decide (state eastbound = moving) then 0 else waitingTime eastbound) + 1.
Proof.
  apply (blocked_train_reserves_the_cell_it_came_from 100 yard [eastbound; westbound] 1
           eastbound ∅
           (trainAt "east" (0, 0) (3, 0) [(0, 0); (1, 0); (2, 0); (3, 0)] 1 0 waiting 9 26)
           ({[ (1, 0) ]} ∪ ∅)).
  - vm_compute. reflexivity.
  - right. reflexivity.
  - reflexivity.
Defined.

Lemma update_moves_at_most_one_cell_witness :
  (currentPathIndex eastGoing = currentPathIndex eastWaiting ∨
   (state eastWaiting = moving ∧
    currentPathIndex eastGoing = currentPathIndex eastWaiting + 1)) ∧
  (∀ i, i ≤ currentPathIndex eastGoing →
        nthZ (path eastGoing) i = nthZ (path eastWaiting) i) ∧
  fromId eastGoing = fromId eastWaiting ∧ toId eastGoing = toId eastWaiting.
Proof.
  apply (update_moves_at_most_one_cell 100 yard [eastWaiting; sidingWaiting] 1 eastWaiting ∅
           eastGoing (addAll [(1, 0); (2, 0); (3, 0)] ∅)).
  - vm_compute. reflexivity.
  - right. reflexivity.
Defined.

Lemma doubleTrack_plainKeys : plainKeys doubleTrack.
Proof.
  unfold plainKeys, doubleTrack. simpl. repeat (constructor; [simpl; lia|]). constructor.
Defined.

(** The late train once it has taken the way round through the lower
    row. *)
Definition lateRerouted : Train :=
  trainAt "late" (0, 0) (4, 0) [(0, 0); (1, 0); (1, 1); (2, 1); (3, 1); (4, 1); (4, 0)]
          1 0 waiting 5 21.

Lemma update_keeps_route_witness :
  (∀ i a b, path lateRerouted !! i = Some a → path lateRerouted !! S i = Some b →
            getHeuristic a.1 a.2 b.1 b.2 = 1) ∧
  last (path lateRerouted) = Some (toId lateRerouted).
Proof.
  apply (update_keeps_route 100 doubleTrack [late] 1 late held
           lateRerouted ({[ (1, 0) ]} ∪ held)).
  - exact doubleTrack_plainKeys.
  - vm_compute. reflexivity.
  - intros i a b Ha Hb.
    do 4 (destruct i as [|i]; [injection Ha as <-; injection Hb as <-; reflexivity|]).
    destruct i; discriminate Hb.
  - reflexivity.
Defined.

End ReservationFacts.

(** ** The order and the identity of the trains *)

Module OrderFacts.
Import PathFacts ShortestFacts RouteFacts TickFacts ReservationFacts.

Local Abbreviation byPriority := (λ a b : Train, priority b ≤ priority a).

Lemma insertByPriority_perm t l : insertByPriority t l ≡ₚ t :: l.
Proof.
  induction l as [|u l IH]; simpl; [done|].
  destruct (priority u <=? priority t); [done|]. rewrite IH. apply perm_swap.
Qed.

Lemma sortByPriority_perm l : sortByPriority l ≡ₚ l.
Proof.
  induction l as [|t l IH]; simpl; [done|]. by rewrite insertByPriority_perm, IH.
Qed.

Lemma insertByPriority_sorted t l :
  StronglySorted byPriority l → StronglySorted byPriority (insertByPriority t l).
Proof.
  induction 1 as [|u l Hl IH Hu]; simpl; [repeat constructor|].
  destruct (Z.leb_spec (priority u) (priority t)) as [Hut|Hut].
  - constructor; [by constructor|]. constructor; [done|].
    eapply Forall_impl; [exact Hu|]. simpl. intros z Hz. lia.
  - constructor; [done|]. rewrite insertByPriority_perm. constructor; [lia|done].
Qed.

Lemma sortByPriority_sorted l : StronglySorted byPriority (sortByPriority l).
Proof.
  induction l as [|t l IH]; simpl; [constructor|]. by apply insertByPriority_sorted.
Qed.

Lemma insertByPriority_stable p t l :
  filter (λ u, priority u = p) (insertByPriority t l) = filter (λ u, priority u = p) (t :: l).
Proof.
  induction l as [|u l IH]; simpl; [done|].
  destruct (Z.leb_spec (priority u) (priority t)) as [Hut|Hut]; [done|].
  rewrite (filter_cons _ u), IH, !filter_cons.
  destruct (decide (priority u = p)), (decide (priority t = p)); try done. lia.
Qed.

Lemma sortByPriority_stable p l :
  filter (λ u, priority u = p) (sortByPriority l) = filter (λ u, priority u = p) l.
Proof.
  induction l as [|t l IH]; simpl; [done|].
  by rewrite insertByPriority_stable, !filter_cons, IH.
Qed.

(** X20.  [activeTrains.sort((a, b) => b.priority - a.priority)] permutes
    the trains into descending priority and keeps trains of equal priority
    in the order they had. *)
Theorem priority_sort_is_stable (l : list Train) :
  sortByPriority l ≡ₚ l ∧
  StronglySorted (λ a b, priority b ≤ priority a) (sortByPriority l) ∧
  ∀ p, filter (λ u, priority u = p) (sortByPriority l) = filter (λ u, priority u = p) l.
Proof.
  split; [apply sortByPriority_perm|]. split; [apply sortByPriority_sorted|].
  intros p. apply sortByPriority_stable.
Qed.

(** What the update never changes. *)
Definition sameTrain (old new : Train) : Prop :=
  train_id new = train_id old ∧ priority new = priority old ∧
  train_type new = train_type old ∧ isCyclic new = isCyclic old.

Lemma updateTrain_same fuel grid trainsRef speed train res train' res' :
  updateTrain fuel grid trainsRef speed train res = Done (train', res') →
  sameTrain train train'.
Proof.
  intros Hrun.
  destruct (decide (state train = moving ∨ state train = waiting)) as [Hs|Hs].
  - destruct (updateTrain_running _ _ _ _ _ _ _ _ Hrun Hs)
      as [Hoff|cur Hcur Hst Hcross|cur t' r' Hcur Hst Hcross Hout|cur t' r' Hcur Hst Hout];
      [done|done|by destruct Hout..].
  - revert Hrun. unfold updateTrain. destruct (state train) eqn:Hst; [tauto|tauto| |].
    + destruct (isCyclic train) eqn:Hc; intros [= <- <-]; [|done].
      unfold sameTrain. simpl. by rewrite Hc.
    + destruct (0 <? dwellRemaining train); [by intros [= <- <-]|].
      destruct (findPathAStar _ _ _ _ _ _ _ _) as [|r]; [done|]. cbn [bindR].
      by destruct (usable r); intros [= <- <-].
Qed.

Lemma updateAll_same fuel grid trainsRef speed ts : ∀ res ts',
  updateAll fuel grid trainsRef speed ts res = Done ts' → Forall2 sameTrain ts ts'.
Proof.
  induction ts as [|train rest IH]; intros res ts'.
  { intros [= <-]. constructor. }
  intros (train' & res' & rest' & Hone & Hrest & ->)%updateAll_cons.
  constructor; [by apply updateTrain_same in Hone|by apply (IH res')].
Qed.

Lemma Forall2_filter_sublist (keep : Train → bool) ts ts' :
  Forall2 sameTrain ts ts' →
  ∃ kept, sublist kept ts ∧ Forall2 sameTrain kept (List.filter keep ts').
Proof.
  induction 1 as [|t t' ts ts' Ht _ (kept & Hsub & Hall)]; simpl.
  { exists []. by split; constructor. }
  destruct (keep t').
  - exists (t :: kept). split; [by constructor|by constructor].
  - exists kept. split; [by constructor|done].
Qed.

Lemma sorted_sublist (kept ts : list Train) :
  sublist kept ts → StronglySorted byPriority ts → StronglySorted byPriority kept.
Proof.
  induction 1 as [|t kept ts Hsub IH|t kept ts Hsub IH]; intros Hs; [done| |].
  - apply StronglySorted_inv in Hs as [Hs Ht]. constructor; [by apply IH|].
    apply Forall_forall. intros u Hu. apply (proj1 (Forall_forall _ _) Ht).
    by apply (elem_of_submseteq kept ts u Hu), sublist_submseteq.
  - apply StronglySorted_inv in Hs as [Hs _]. by apply IH.
Qed.

Lemma sorted_same (kept running : list Train) :
  Forall2 sameTrain kept running → StronglySorted byPriority kept →
  StronglySorted byPriority running.
Proof.
  induction 1 as [|t t' kept running Ht Hall IH]; intros Hs; [constructor|].
  apply StronglySorted_inv in Hs as [Hs Hfor]. constructor; [by apply IH|].
  apply Forall_forall. intros u' Hu'.
  destruct (proj1 (list_elem_of_lookup _ _) Hu') as [i Hi].
  destruct (Forall2_lookup_r _ _ _ _ _ Hall Hi) as (u & Hu & Hsame).
  pose proof (proj1 (Forall_forall _ _) Hfor u (list_elem_of_lookup_2 _ _ _ Hu)) as Hle.
  destruct Ht as (_ & Hpt & _), Hsame as (_ & Hpu & _). simpl in *. lia.
Qed.

(** X14.  After a tick the running trains are in order of descending
    priority.  They are the trains of before in sorted order, less the
    ones that were dropped, each with the id, priority, type and cyclic
    flag it had; a cyclic train is never dropped, and a train that is
    [arrived] after the tick is cyclic. *)
Theorem tick_keeps_trains_in_priority_order fuel grid trainsRef speed running flag :
  tickTrains fuel grid trainsRef speed = Done (running, flag) →
  StronglySorted (λ a b, priority b ≤ priority a) running ∧
  (∃ kept, sublist kept (sortByPriority trainsRef) ∧
           Forall2 (λ old new, train_id new = train_id old ∧ priority new = priority old ∧
                               train_type new = train_type old ∧ isCyclic new = isCyclic old)
                   kept running) ∧
  (∀ t, t ∈ trainsRef → isCyclic t = true →
        ∃ t', t' ∈ running ∧ train_id t' = train_id t ∧ isCyclic t' = true) ∧
  (∀ t', t' ∈ running → state t' = arrived → isCyclic t' = true).
Proof.
  unfold tickTrains.
  destruct (updateAll _ _ _ _ _ _) as [|next] eqn:Hall; [done|]. cbn [bindR].
  intros [= <- <-]. apply updateAll_same in Hall.
  destruct (Forall2_filter_sublist keepsRunning _ _ Hall) as (kept & Hsub & Hkept).
  split; [|split; [by exists kept|split]].
  - apply (sorted_same kept); [done|].
    apply (sorted_sublist kept (sortByPriority trainsRef)); [done|].
    apply sortByPriority_sorted.
  - intros t Ht Hc.
    assert (t ∈ sortByPriority trainsRef) as Hin by by rewrite sortByPriority_perm.
    destruct (proj1 (list_elem_of_lookup _ _) Hin) as [i Hi].
    destruct (Forall2_lookup_l _ _ _ _ _ Hall Hi) as (t' & Ht' & Hid & _ & _ & Hcyc).
    exists t'. split; [|split; [done|congruence]].
    apply list_elem_of_In, filter_In. split.
    { apply list_elem_of_In. by apply list_elem_of_lookup_2 in Ht'. }
    unfold keepsRunning. rewrite Hcyc, Hc. apply orb_true_r.
  - intros t' [_ Hk]%list_elem_of_In%filter_In Harr. unfold keepsRunning in Hk.
    rewrite (bool_decide_eq_true_2 _ Harr) in Hk. done.
Qed.

Lemma tick_keeps_trains_in_priority_order_witness :
  StronglySorted (λ a b, priority b ≤ priority a) (trains afterJam) ∧
  (∃ kept, sublist kept (sortByPriority (trains jam)) ∧
           Forall2 (λ old new, train_id new = train_id old ∧ priority new = priority old ∧
                               train_type new = train_type old ∧ isCyclic new = isCyclic old)
                   kept (trains afterJam)) ∧
  (∀ t, t ∈ trains jam → isCyclic t = true →
        ∃ t', t' ∈ trains afterJam ∧ train_id t' = train_id t ∧ isCyclic t' = true) ∧
  (∀ t', t' ∈ trains afterJam → state t' = arrived → isCyclic t' = true).
Proof.
  apply (tick_keeps_trains_in_priority_order 100 yard (trains jam) 1 (trains afterJam) true).
  vm_compute. reflexivity.
Defined.

End OrderFacts.

(** ** What the dispatch part of a tick leaves behind *)

Module QueueingFacts.
Import PathFacts ShortestFacts RouteFacts TickFacts DispatchFacts.

(** *** A request that succeeds *)

Lemma find_station name grid c :
  find (stationNamed name) (stationsOf grid) = Some c →
  c ∈ map snd grid ∧ cell_type c = station ∧ stationName c = Some name.
Proof.
  intros [Hin Hname]%find_some. apply list_elem_of_In in Hin.
  unfold stationsOf in Hin. apply list_elem_of_filter in Hin as [Htype Hin].
  unfold stationNamed in Hname. by apply bool_decide_eq_true in Hname.
Qed.

Lemma dispatchTrain_cases fuel grid trainsRef time trainId histId
    fromName toName priority dispatchType isCyclic effects :
  dispatchTrain fuel grid trainsRef time trainId histId
                fromName toName priority dispatchType isCyclic = Done effects →
  effects = [] ∨
  ∃ from to p,
    fromName ≠ toName ∧
    find (stationNamed fromName) (stationsOf grid) = Some from ∧
    find (stationNamed toName) (stationsOf grid) = Some to ∧
    findPathAStar fuel (cell_id from) (cell_id to) grid trainsRef None None false
      = Done (Some p) ∧
    effects =
      [ AppendTrain
          {| train_id := trainId; fromId := cell_id from; toId := cell_id to;
             path := p; currentPathIndex := 0; progress := 0;
             state := waiting; priority := priority; train_type := dispatchType;
             waitingTime := 0; isCyclic := isCyclic; dwellRemaining := 0 |};
        PrependHistory
          {| hist_id := histId; hist_time := time; hist_from := fromName;
             hist_to := toName; hist_priority := priority;
             hist_type := dispatchType; hist_isCyclic := isCyclic |} ].
Proof.
  unfold dispatchTrain. fold (stationsOf grid).
  case_bool_decide as Hne; [intros [= <-]; by left|].
  destruct (find (stationNamed fromName) _) as [from|] eqn:Hfrom; [|intros [= <-]; by left].
  destruct (find (stationNamed toName) _) as [to|] eqn:Hto; [|intros [= <-]; by left].
  destruct (findPathAStar _ _ _ _ _ _ _ _) as [|[p|]] eqn:Hfind; [done| |intros [= <-]; by left].
  cbn [bindR]. intros [= <-]. right. by exists from, to, p.
Qed.

(** X17.  On a grid whose keys have no negative coordinate, as the keys of
    the board, [dispatchTrain] does nothing, or appends one train and
    prepends one history entry.  In the second case the two names differ
    and name stations of the grid; the train is [waiting] at index 0 of a
    path that begins at the first station, ends at the second and goes by
    4-adjacent steps; it has the id, priority, type and cyclic flag of the
    request, no progress, no waiting time and no dwell time. *)
Theorem dispatch_queues_one_waiting_train fuel grid trainsRef time trainId histId
    fromName toName prio dispatchType cyclic effects :
  plainKeys grid →
  dispatchTrain fuel grid trainsRef time trainId histId
                fromName toName prio dispatchType cyclic = Done effects →
  effects = [] ∨
  ∃ from to t,
    effects = [ AppendTrain t;
                PrependHistory (mkHistoryItem histId time fromName toName prio
                                              dispatchType cyclic) ] ∧
    fromName ≠ toName ∧
    from ∈ map snd grid ∧ cell_type from = station ∧ stationName from = Some fromName ∧
    to ∈ map snd grid ∧ cell_type to = station ∧ stationName to = Some toName ∧
    train_id t = trainId ∧ priority t = prio ∧
    train_type t = dispatchType ∧ isCyclic t = cyclic ∧
    fromId t = cell_id from ∧ toId t = cell_id to ∧
    state t = waiting ∧ currentPathIndex t = 0 ∧ progress t = 0%Q ∧
    waitingTime t = 0 ∧ dwellRemaining t = 0 ∧
    head (path t) = Some (cell_id from) ∧ last (path t) = Some (cell_id to) ∧
    (∀ i a b, path t !! i = Some a → path t !! S i = Some b →
              getHeuristic a.1 a.2 b.1 b.2 = 1).
Proof.
  intros Hkeys [->|(from & to & p & Hne & Hfrom & Hto & Hfind & ->)]%dispatchTrain_cases;
    [by left|].
  right. apply find_station in Hfrom as (? & ? & ?). apply find_station in Hto as (? & ? & ?).
  destruct (findPathAStar_found _ _ _ _ _ _ _ _ _ Hfind) as ([cs Hcs] & _ & _).
  apply findPathAStar_walk in Hfind as (rest & -> & Hlast & Hstep & _);
    [|by apply (plainKeys_cellAt grid _ cs)].
  eexists from, to, _. split; [reflexivity|]. simpl. repeat split; auto.
Qed.

Lemma twoCells_plainKeys : plainKeys twoCells.
Proof. unfold plainKeys, twoCells. repeat (constructor; [simpl; lia|]). constructor. Defined.

Lemma dispatch_queues_one_waiting_train_witness :
  [ AppendTrain (trainAt "man-1" (0, 0) (1, 0) [(0, 0); (1, 0)] 0 0 waiting 5 0);
    PrependHistory (mkHistoryItem "hist-1" 7 "A" "B" 5 manual false) ] = [] ∨
  ∃ from to t,
    [ AppendTrain (trainAt "man-1" (0, 0) (1, 0) [(0, 0); (1, 0)] 0 0 waiting 5 0);
      PrependHistory (mkHistoryItem "hist-1" 7 "A" "B" 5 manual false) ]
    = [ AppendTrain t; PrependHistory (mkHistoryItem "hist-1" 7 "A" "B" 5 manual false) ] ∧
    "A" ≠ "B" ∧
    from ∈ map snd twoCells ∧ cell_type from = station ∧ stationName from = Some "A" ∧
    to ∈ map snd twoCells ∧ cell_type to = station ∧ stationName to = Some "B" ∧
    train_id t = "man-1" ∧ priority t = 5 ∧
    train_type t = manual ∧ isCyclic t = false ∧
    fromId t = cell_id from ∧ toId t = cell_id to ∧
    state t = waiting ∧ currentPathIndex t = 0 ∧ progress t = 0%Q ∧
    waitingTime t = 0 ∧ dwellRemaining t = 0 ∧
    head (path t) = Some (cell_id from) ∧ last (path t) = Some (cell_id to) ∧
    (∀ i a b, path t !! i = Some a → path t !! S i = Some b →
              getHeuristic a.1 a.2 b.1 b.2 = 1).
Proof.
  apply (dispatch_queues_one_waiting_train 100 twoCells [] 7 "man-1" "hist-1" "A" "B" 5
           manual false).
  - exact twoCells_plainKeys.
  - vm_compute. reflexivity.
Defined.

(** *** The batch queue *)

Lemma filter_not_due (t : Z) (queue : list BatchItem) :
  filter (λ item, dispatchAt item ≤ t) queue = [] →
  filter (λ item, dispatchAt item > t) queue = queue.
Proof.
  induction queue as [|item queue IH]; [done|]. rewrite !filter_cons.
  destruct (decide (dispatchAt item ≤ t)); [done|]. intros Hq.
  rewrite decide_True by lia. f_equal. by apply IH.
Qed.

(** X18.  After the tick has served the batch queue, the queue holds the
    items whose time is later than the time of the tick ([time + 1]), in
    the order they had, and no other. *)
Theorem batch_queue_keeps_only_future_items fuel grid trainsRef time ids queue sched
    effects sched' queue' :
  tickDispatch fuel grid trainsRef time ids queue sched = Done (effects, sched', queue') →
  queue' = filter (λ item, dispatchAt item > time + 1) queue ∧
  Forall (λ item, time + 1 < dispatchAt item) queue'.
Proof.
  unfold tickDispatch, currentTime. cbv zeta.
  destruct (dispatchBatch _ _ _ _ _ _ _) as [|e1]; [done|]. cbn [bindR].
  destruct (dispatchSchedule _ _ _ _ _ _ _) as [|[e2 s2]]; [done|]. cbn [bindR].
  intros [= <- <- <-].
  assert ((if 0 <? len (filter (λ item, dispatchAt item ≤ time + 1) queue)
           then filter (λ item, dispatchAt item > time + 1) queue else queue)
          = filter (λ item, dispatchAt item > time + 1) queue) as ->.
  { destruct (filter (λ item, dispatchAt item ≤ time + 1) queue) eqn:Hdue; [|done].
    simpl. symmetry. by apply filter_not_due. }
  split; [done|]. apply Forall_forall. intros item [Hitem _]%list_elem_of_filter. lia.
Qed.

Lemma batch_queue_keeps_only_future_items_witness :
  [ mkBatchItem "A" "B" 9 5 false ]
    = filter (λ item, dispatchAt item > 7 + 1)
             [ mkBatchItem "A" "B" 8 5 false; mkBatchItem "A" "B" 9 5 false ] ∧
  Forall (λ item, 7 + 1 < dispatchAt item) [ mkBatchItem "A" "B" 9 5 false ].
Proof.
  apply (batch_queue_keeps_only_future_items 100 twoCells [] 7 (λ _, ("bat-1", "hist-1"))
           [ mkBatchItem "A" "B" 8 5 false; mkBatchItem "A" "B" 9 5 false ] []
           [ AppendTrain (mkTrain "bat-1" (0, 0) (1, 0) [(0, 0); (1, 0)] 0 0 waiting 5
                                  batch 0 false 0);
             PrependHistory (mkHistoryItem "hist-1" 7 "A" "B" 5 batch false) ] []).
  vm_compute. reflexivity.
Defined.

(** *** The schedule *)

Lemma dispatchSchedule_idle fuel grid trainsRef time ids k sched :
  Forall (λ item, dispatched item = true ∨ time + 1 < sched_time item) sched →
  dispatchSchedule fuel grid trainsRef time ids k sched = Done ([], sched).
Proof.
  induction 1 as [|item rest Hitem _ IH]; simpl; [done|].
  assert (negb (dispatched item) && (sched_time item <=? currentTime time) = false) as ->.
  { unfold currentTime. destruct Hitem as [->|Hlate]; [done|].
    rewrite (proj2 (Z.leb_gt _ _)) by lia. apply andb_false_r. }
  by rewrite IH.
Qed.

Lemma dispatchSchedule_fields fuel grid trainsRef time ids k sched effects sched' :
  dispatchSchedule fuel grid trainsRef time ids k sched = Done (effects, sched') →
  Forall2 (λ old new,
             sched_id new = sched_id old ∧ sched_time new = sched_time old ∧
             sched_from new = sched_from old ∧ sched_to new = sched_to old ∧
             sched_priority new = sched_priority old ∧
             dispatched new = dispatched old || (sched_time old <=? time + 1))
          sched sched'.
Proof.
  revert k effects sched'. induction sched as [|item rest IH]; intros k effects sched'; simpl.
  { intros [= <- <-]. constructor. }
  unfold currentTime.
  destruct (dispatched item) eqn:Hd; simpl.
  - destruct (dispatchSchedule _ _ _ _ _ k rest) as [|[e r]] eqn:Hrest; simpl; [done|].
    intros [= <- <-]. constructor; [by rewrite Hd|by apply (IH k e)].
  - destruct (sched_time item <=? time + 1) eqn:Hdue.
    + destruct (dispatchTrain _ _ _ _ _ _ _ _ _ _ _) as [|e0]; simpl; [done|].
      destruct (dispatchSchedule _ _ _ _ _ (S k) rest) as [|[e r]] eqn:Hrest; simpl; [done|].
      intros [= <- <-]. constructor; [by rewrite Hd, Hdue|by apply (IH (S k) e)].
    + destruct (dispatchSchedule _ _ _ _ _ k rest) as [|[e r]] eqn:Hrest; simpl; [done|].
      intros [= <- <-]. constructor; [by rewrite Hd, Hdue|by apply (IH k e)].
Qed.

(** X19.  The schedule step of a tick changes nothing of an item but the
    flag [dispatched], which it sets on every item whose time has come.
    Run again at the same time, on whatever grid, it requests no train and
    leaves the schedule as it is: an item is requested once. *)
Theorem schedule_item_is_requested_once fuel grid trainsRef time ids k sched effects sched' :
  dispatchSchedule fuel grid trainsRef time ids k sched = Done (effects, sched') →
  Forall2 (λ old new,
             sched_id new = sched_id old ∧ sched_time new = sched_time old ∧
             sched_from new = sched_from old ∧ sched_to new = sched_to old ∧
             sched_priority new = sched_priority old ∧
             dispatched new = dispatched old || (sched_time old <=? time + 1))
          sched sched' ∧
  ∀ fuel2 grid2 trainsRef2 ids2 k2,
    dispatchSchedule fuel2 grid2 trainsRef2 time ids2 k2 sched' = Done ([], sched').
Proof.
  intros Hrun. pose proof (dispatchSchedule_fields _ _ _ _ _ _ _ _ _ Hrun) as Hf.
  split; [done|]. intros fuel2 grid2 trainsRef2 ids2 k2. apply dispatchSchedule_idle.
  clear Hrun. induction Hf as [|old new sched sched' (_ & Ht & _ & _ & _ & Hd) _ IH];
    constructor; [|done].
  rewrite Hd, Ht. destruct (dispatched old); [by left|]. simpl.
  destruct (Z.leb_spec (sched_time old) (time + 1)); [by left|right; lia].
Qed.

Lemma schedule_item_is_requested_once_witness :
  Forall2 (λ old new,
             sched_id new = sched_id old ∧ sched_time new = sched_time old ∧
             sched_from new = sched_from old ∧ sched_to new = sched_to old ∧
             sched_priority new = sched_priority old ∧
             dispatched new = dispatched old || (sched_time old <=? 7 + 1))
          [ mkScheduleItem "s1" 8 "A" "B" 5 false ] [ mkScheduleItem "s1" 8 "A" "B" 5 true ] ∧
  ∀ fuel2 grid2 trainsRef2 ids2 k2,
    dispatchSchedule fuel2 grid2 trainsRef2 7 ids2 k2 [ mkScheduleItem "s1" 8 "A" "B" 5 true ]
    = Done ([], [ mkScheduleItem "s1" 8 "A" "B" 5 true ]).
Proof.
  apply (schedule_item_is_requested_once 100 brokenLine [] 7 (λ _, ("sch-1", "hist-1")) 0
           [ mkScheduleItem "s1" 8 "A" "B" 5 false ] []).
  vm_compute. reflexivity.
Defined.

End QueueingFacts.

(** ** The bounds of the data model hold along every run *)

Module ServiceFacts.
Import PathFacts ShortestFacts RouteFacts TickFacts DispatchFacts ReservationFacts.
Import OrderFacts QueueingFacts.

(** What holds of every train of a run: the index and the progress are
    within their bounds, the path ends at the destination and meets it
    nowhere else, and a train that is [moving] has a cell ahead of it. *)
Definition inService (t : Train) : Prop :=
  0 ≤ currentPathIndex t < len (path t) ∧
  (0 <= progress t)%Q ∧ (progress t < 1)%Q ∧
  last (path t) = Some (toId t) ∧
  (∀ i, i < len (path t) - 1 → nthZ (path t) i ≠ Some (toId t)) ∧
  (state t = moving → currentPathIndex t + 1 < len (path t)).

(** A path without a repeated cell meets its last cell at its end only. *)
Lemma single_end (p : list (Z * Z)) e i :
  NoDup p → last p = Some e → i < len p - 1 → nthZ p i ≠ Some e.
Proof.
  intros Hnd Hlast Hi Hn. pose proof (nthZ_Some _ _ _ Hn) as Hb.
  unfold nthZ in Hn. destruct (Z.ltb_spec i 0); [lia|].
  rewrite last_lookup in Hlast.
  pose proof (NoDup_lookup _ _ _ _ Hnd Hn Hlast) as Heq. unfold len in *. lia.
Qed.

Lemma search_ends fuel startId endId grid trains ign R strict p :
  findPathAStar fuel startId endId grid trains ign R strict = Done (Some p) →
  ∃ rest, p = startId :: rest ∧ last p = Some endId ∧ NoDup p.
Proof.
  intros Hrun.
  destruct (findPathAStar_track _ _ _ _ _ _ _ _ _ Hrun) as (rest & -> & Hlast & _).
  destruct (findPathAStar_found _ _ _ _ _ _ _ _ _ Hrun) as (_ & _ & Hloop).
  exists rest. split; [done|]. split; [done|]. by apply searchLoop_simple in Hloop.
Qed.

(** The path after a reroute from the cell at index [i], which is not the
    last one. *)
Lemma splice_service (p : list (Z * Z)) i here r e :
  nthZ p i = Some here → i < len p - 1 →
  last p = Some e → (∀ k, k < len p - 1 → nthZ p k ≠ Some e) →
  (∃ rest, r = here :: rest ∧ last r = Some e ∧ NoDup r) →
  i + 1 < len (splice p i r) ∧
  last (splice p i r) = Some e ∧
  (∀ k, k < len (splice p i r) - 1 → nthZ (splice p i r) k ≠ Some e).
Proof.
  intros Hhere Hi Hlast Honly (rest & -> & Hlr & Hnd).
  pose proof (nthZ_Some _ _ _ Hhere) as Hb.
  destruct (splice_cons p i here rest Hhere) as [-> _].
  assert (here ≠ e) as Hne.
  { intros ->. by apply (Honly i). }
  assert (rest ≠ []) as Hrest.
  { intros ->. simpl in Hlr. congruence. }
  assert (length (take (Z.to_nat i) p) = Z.to_nat i) as Htake.
  { rewrite length_take. unfold len in Hb. lia. }
  assert (len (take (Z.to_nat i) p ++ here :: rest) = i + 1 + len rest) as Hlen.
  { unfold len. rewrite length_app, Htake. simpl. lia. }
  assert (0 < len rest) as Hpos.
  { unfold len. destruct rest; [done|]. simpl. lia. }
  split; [lia|]. split.
  - by rewrite last_app, Hlr.
  - intros k Hk Hn. pose proof (nthZ_Some _ _ _ Hn) as Hkb.
    unfold nthZ in Hn. destruct (Z.ltb_spec k 0); [lia|].
    destruct (decide (k < i)) as [Hki|Hki].
    + rewrite lookup_app_l in Hn by lia.
      apply lookup_take_Some in Hn as [Hn _].
      apply (Honly k); [lia|]. unfold nthZ. by destruct (Z.ltb_spec k 0); [lia|].
    + rewrite lookup_app_r in Hn by lia. rewrite Htake in Hn.
      apply (single_end (here :: rest) e (k - i) Hnd Hlr).
      * unfold len in *. simpl. simpl in Hlen. lia.
      * unfold nthZ. destruct (Z.ltb_spec (k - i) 0); [lia|].
        by replace (Z.to_nat (k - i)) with (Z.to_nat k - Z.to_nat i)%nat by lia.
Qed.

Section Update.
Context (fuel : nat) (grid : Grid) (trainsRef : list Train) (speed : Q).
Context (Hspeed : (0 < speed)%Q).

Lemma rerouted_service train l res path' seg :
  rerouted fuel grid trainsRef train l res path' seg →
  0 ≤ l_currentPathIndex l → l_currentPathIndex l < len (l_path l) - 1 →
  last (l_path l) = Some (toId train) →
  (∀ k, k < len (l_path l) - 1 → nthZ (l_path l) k ≠ Some (toId train)) →
  l_currentPathIndex l + 1 < len path' ∧
  last path' = Some (toId train) ∧
  (∀ k, k < len path' - 1 → nthZ path' k ≠ Some (toId train)).
Proof.
  destruct 1 as [|here p Hhere Hfind|here p Hhere Hfind _]; intros H0 Hi Hlast Honly.
  - split; [lia|done].
  - apply (splice_service _ _ here); auto. by apply search_ends in Hfind.
  - apply (splice_service _ _ here); auto. by apply search_ends in Hfind.
Qed.

Lemma waitingOutcome_service train cur l res train' res' :
  waitingOutcome fuel grid trainsRef train cur l res train' res' →
  l_path l = path train →
  0 ≤ l_currentPathIndex l < len (l_path l) →
  (0 <= l_progress l)%Q → (l_progress l < 1)%Q →
  last (path train) = Some (toId train) →
  (∀ k, k < len (path train) - 1 → nthZ (path train) k ≠ Some (toId train)) →
  inService train'.
Proof.
  intros Hout Hp Hi Hq0 Hq1 Hlast Honly. rewrite <- Hp in Hlast, Honly.
  destruct Hout as [Hend|path' seg Hnot Hre _|path' seg Hnot Hre _].
  - unfold inService. simpl. rewrite <- Hp.
    split; [lia|]. split; [lra|]. split; [lra|]. split; [done|]. split; [done|done].
  - destruct (rerouted_service _ _ _ _ _ Hre ltac:(lia) Hnot Hlast Honly) as (Hlen & Hl & Ho).
    unfold inService. simpl.
    split; [lia|]. split; [done|]. split; [done|]. split; [done|]. split; [done|]. by intros _.
  - destruct (rerouted_service _ _ _ _ _ Hre ltac:(lia) Hnot Hlast Honly) as (Hlen & Hl & Ho).
    unfold inService. simpl.
    split; [lia|]. split; [done|]. split; [done|]. split; [done|]. split; [done|done].
Qed.

(** The update keeps the invariant. *)
Lemma updateTrain_service train res train' res' :
  inService train →
  updateTrain fuel grid trainsRef speed train res = Done (train', res') →
  inService train'.
Proof.
  intros (Hi & Hq0 & Hq1 & Hlast & Honly & Hmov) Hrun.
  destruct (decide (state train = moving ∨ state train = waiting)) as [Hs|Hs].
  - destruct (updateTrain_running _ _ _ _ _ _ _ _ Hrun Hs)
      as [Hoff|cur Hcur Hst Hcross|cur t' r' Hcur Hst Hcross Hout|cur t' r' Hcur Hst Hout].
    + unfold inService. simpl. repeat split; auto; try lia. intros [=].
    + unfold inService. simpl. split; [done|].
      assert (¬ (1 <= progress train + MOVEMENT_SPEED * speed)%Q) as Hlt.
      { intros H. apply Qle_bool_iff in H. congruence. }
      unfold MOVEMENT_SPEED in *. split; [lra|]. split; [lra|]. repeat split; auto.
    + apply (waitingOutcome_service _ _ _ _ _ _ Hout); simpl; auto; try lra.
      specialize (Hmov Hst). lia.
    + by apply (waitingOutcome_service _ _ _ _ _ _ Hout).
  - revert Hrun. unfold updateTrain. destruct (state train) eqn:Hst; [tauto|tauto| |].
    + destruct (isCyclic train); intros [= <- <-]; unfold inService; simpl;
        repeat split; auto; try lia; congruence.
    + destruct (0 <? dwellRemaining train).
      { intros [= <- <-]. unfold inService. simpl. repeat split; auto; try lia; congruence. }
      destruct (findPathAStar _ _ _ _ _ _ _ _) as [|r] eqn:Hfind; [done|]. cbn [bindR].
      destruct (usable r) as [p|] eqn:Hu; intros [= <- <-].
      * apply usable_Some in Hu as ->.
        apply search_ends in Hfind as (rest & -> & Hl & Hnd).
        unfold inService. simpl. split; [unfold len; simpl; lia|].
        split; [lra|]. split; [lra|]. split; [done|]. split; [|done].
        intros k Hk. by apply single_end.
      * unfold inService. simpl. repeat split; auto; try lia; congruence.
Qed.

End Update.

(** A train that [dispatchTrain] queues is in service. *)
Lemma dispatchTrain_service fuel grid trainsRef time trainId histId
    fromName toName prio dispatchType cyclic effects t :
  dispatchTrain fuel grid trainsRef time trainId histId
                fromName toName prio dispatchType cyclic = Done effects →
  AppendTrain t ∈ effects → inService t.
Proof.
  intros [->|(from & to & p & Hne & Hfrom & Hto & Hfind & ->)]%dispatchTrain_cases Hin.
  { by apply elem_of_nil in Hin. }
  apply elem_of_cons in Hin as [[= ->]|Hin].
  2:{ apply elem_of_cons in Hin as [?|Hin]; [done|by apply elem_of_nil in Hin]. }
  apply search_ends in Hfind as (rest & -> & Hl & Hnd).
  unfold inService. simpl. split; [unfold len; simpl; lia|].
  split; [lra|]. split; [lra|]. split; [done|]. split; [|done].
  intros k Hk. by apply single_end.
Qed.

(** The train part of a tick keeps every train in service. *)
Lemma updateAll_service fuel grid trainsRef speed ts : ∀ res ts',
  (0 < speed)%Q → Forall inService ts →
  updateAll fuel grid trainsRef speed ts res = Done ts' → Forall inService ts'.
Proof.
  induction ts as [|train rest IH]; intros res ts' Hspeed Hall; simpl.
  { intros [= <-]. constructor. }
  apply Forall_cons in Hall as [Ht Hrest].
  destruct (updateTrain _ _ _ _ _ _) as [|[train' res']] eqn:Hone; [done|]. cbn [bindR].
  destruct (updateAll _ _ _ _ _ _) as [|rest'] eqn:Hr; [done|]. cbn [bindR].
  intros [= <-]. constructor.
  - by apply (updateTrain_service fuel grid trainsRef speed Hspeed train res train' res').
  - by apply (IH res' rest').
Qed.

(** C9.  The bounds of the data model hold along every run.  A train that
    [dispatchTrain] queues is in service; the update of a tick takes a
    train in service to a train in service, for every positive speed
    multiplier, and so does the train part of a tick for all its trains; and
    a train in service has [0 ≤ currentPathIndex < path.length] and
    [0 ≤ progress < 1].  The bounds alone do not pass through the update (a
    train that is [moving] on the last cell of its path would leave them),
    but no run produces such a train: a train becomes [moving] only with a
    cell ahead, and a reroute from a cell that is not the destination has
    at least two cells. *)
Theorem update_keeps_bounds :
  (∀ fuel grid trainsRef time trainId histId fromName toName prio dispatchType cyclic
     effects t,
     dispatchTrain fuel grid trainsRef time trainId histId
                   fromName toName prio dispatchType cyclic = Done effects →
     AppendTrain t ∈ effects → inService t) ∧
  (∀ grid trainsRef speed train res,
     inService train → (0 < speed)%Q →
     ∃ fuel0, ∀ fuel, (fuel0 ≤ fuel)%nat →
       ∃ train' res',
         updateTrain fuel grid trainsRef speed train res = Done (train', res') ∧
         inService train' ∧
         0 ≤ currentPathIndex train' < len (path train') ∧
         (0 <= progress train')%Q ∧ (progress train' < 1)%Q) ∧
  (∀ fuel grid trainsRef speed running flag,
     Forall inService trainsRef → (0 < speed)%Q →
     tickTrains fuel grid trainsRef speed = Done (running, flag) →
     Forall inService running ∧
     Forall (λ t, 0 ≤ currentPathIndex t < len (path t) ∧
                  (0 <= progress t)%Q ∧ (progress t < 1)%Q) running).
Proof.
  split; [|split].
  - intros *. apply dispatchTrain_service.
  - intros grid trainsRef speed train res Hin Hspeed.
    destruct (updateTrain_returns grid trainsRef speed train res)
      as (fuel0 & [train' res'] & Hr).
    exists fuel0. intros fuel Hle. exists train', res'. split; [by apply Hr|].
    pose proof (updateTrain_service fuel grid trainsRef speed Hspeed train res train' res'
                  Hin (Hr fuel Hle)) as Hin'.
    split; [done|]. destruct Hin' as (? & ? & ? & _). done.
  - intros fuel grid trainsRef speed running flag Hall Hspeed. unfold tickTrains.
    destruct (updateAll _ _ _ _ _ _) as [|next] eqn:Hnext; [done|]. cbn [bindR].
    intros [= <- _].
    assert (Forall inService next) as Hnext'.
    { apply (updateAll_service fuel grid trainsRef speed (sortByPriority trainsRef) ∅ next
               Hspeed); [|done].
      rewrite (sortByPriority_perm trainsRef). done. }
    assert (Forall inService (List.filter keepsRunning next)) as Hrun.
    { apply Forall_forall. intros t Ht. apply list_elem_of_In, filter_In in Ht as [Ht _].
      apply list_elem_of_In in Ht. by apply (proj1 (Forall_forall _ _) Hnext'). }
    split; [done|]. eapply Forall_impl; [exact Hrun|].
    intros t (? & ? & ? & _). done.
Qed.

Lemma update_keeps_bounds_witness :
  inService (trainAt "man-1" (0, 0) (1, 0) [(0, 0); (1, 0)] 0 0 waiting 5 0) ∧
  ∃ fuel0, ∀ fuel, (fuel0 ≤ fuel)%nat →
    ∃ train' res',
      updateTrain fuel twoCells [] 1
        (trainAt "man-1" (0, 0) (1, 0) [(0, 0); (1, 0)] 0 0 waiting 5 0) ∅
      = Done (train', res') ∧
      inService train' ∧
      0 ≤ currentPathIndex train' < len (path train') ∧
      (0 <= progress train')%Q ∧ (progress train' < 1)%Q.
Proof.
  destruct update_keeps_bounds as (Hdispatch & Hupdate & _).
  assert (inService (trainAt "man-1" (0, 0) (1, 0) [(0, 0); (1, 0)] 0 0 waiting 5 0)) as Hin.
  { apply (Hdispatch 100%nat twoCells [] 7 "man-1" "hist-1" "A" "B" 5 manual false
             [ AppendTrain (trainAt "man-1" (0, 0) (1, 0) [(0, 0); (1, 0)] 0 0 waiting 5 0);
               PrependHistory (mkHistoryItem "hist-1" 7 "A" "B" 5 manual false) ]).
    - vm_compute. reflexivity.
    - left. }
  split; [exact Hin|]. apply Hupdate; [exact Hin|reflexivity].
Defined.

End ServiceFacts.

(** ** A soft reroute never lets the train go on the same tick *)

Module SoftRerouteFacts.
Import PathFacts ShortestFacts RouteFacts TickFacts ReservationFacts.

(** The path that a reroute from the cell at index [i] leaves: the cells
    up to that cell as they were, and the new route from that cell on. *)
Lemma splice_parts (p : list (Z * Z)) i here rest :
  nthZ p i = Some here →
  take (Z.to_nat i) (splice p i (here :: rest)) = take (Z.to_nat i) p ∧
  drop (Z.to_nat i) (splice p i (here :: rest)) = here :: rest.
Proof.
  intros Hhere. pose proof (nthZ_Some _ _ _ Hhere) as Hb.
  destruct (splice_cons p i here rest Hhere) as [-> _].
  assert (length (take (Z.to_nat i) p) = Z.to_nat i) as Htake.
  { rewrite length_take. unfold len in Hb. lia. }
  split.
  - by rewrite take_app_length'.
  - by rewrite drop_app_length'.
Qed.

(** C10.  A [waiting] train, not on its last cell, whose lookahead window
    is blocked, whose strict reroute returns [null], whose [waitingTime] is
    a multiple of 10 and whose soft reroute returns a path: the clearance
    test after the reroute runs on the window of the path the train came in
    with, against the same reservations and trains, so it fails again.  The
    train stays [waiting] where it is, [waitingTime] grows by one, and the
    only cell added to the reservation set is the one it stands on.  Its
    path is replaced by the soft route: the cells before the one it stands
    on are the ones of before, and from that cell on the path is the path
    the soft search returned, which begins with that cell and ends at the
    destination. *)
Theorem soft_reroute_keeps_waiting fuel grid trainsRef speed train res here softPath :
  state train = waiting →
  nthZ (path train) (currentPathIndex train) = Some here →
  currentPathIndex train < len (path train) - 1 →
  isPathClear (lookahead (path train) (currentPathIndex train))
              (train_id train) trainsRef res = false →
  findPathAStar fuel here (toId train) grid trainsRef (Some (train_id train))
                (Some res) true = Done None →
  Z.rem (waitingTime train) 10 = 0 →
  findPathAStar fuel here (toId train) grid trainsRef (Some (train_id train))
                (Some res) false = Done (Some softPath) →
  ∃ train',
    updateTrain fuel grid trainsRef speed train res = Done (train', {[here]} ∪ res) ∧
    state train' = waiting ∧
    waitingTime train' = waitingTime train + 1 ∧
    currentPathIndex train' = currentPathIndex train ∧
    progress train' = progress train ∧
    take (Z.to_nat (currentPathIndex train)) (path train')
      = take (Z.to_nat (currentPathIndex train)) (path train) ∧
    drop (Z.to_nat (currentPathIndex train)) (path train') = softPath ∧
    head softPath = Some here ∧
    last (path train') = Some (toId train).
Proof.
  intros Hs Hhere Hlast Hblocked Hstrict Hten Hsoft.
  exists (commit train
            {| l_currentPathIndex := currentPathIndex train; l_progress := progress train;
               l_state := waiting;
               l_path := splice (path train) (currentPathIndex train) softPath;
               l_waitingTime := waitingTime train + 1 |}).
  split.
  { unfold updateTrain. rewrite Hs, Hhere. unfold advance.
    cbn [l_state l_path l_currentPathIndex l_progress l_waitingTime].
    unfold waitingBranch. cbv zeta.
    cbn [l_state l_path l_currentPathIndex l_progress l_waitingTime].
    rewrite (proj2 (Z.leb_gt _ _) Hlast), Hblocked. cbn [negb].
    unfold reroute. cbv zeta.
    cbn [l_state l_path l_currentPathIndex l_progress l_waitingTime].
    rewrite Hhere, Hstrict. cbn [bindR usable].
    rewrite Hten. cbn [Z.eqb]. rewrite Hsoft. cbn [bindR].
    rewrite (findPathAStar_usable _ _ _ _ _ _ _ _ _ Hsoft). cbn [bindR].
    by rewrite Hblocked. }
  destruct (findPathAStar_track _ _ _ _ _ _ _ _ _ Hsoft) as (rest & -> & Hend & _).
  destruct (splice_parts _ _ here rest Hhere) as [Htake Hdrop].
  simpl. split; [done|]. split; [done|]. split; [done|]. split; [done|].
  split; [exact Htake|]. split; [exact Hdrop|]. split; [done|].
  destruct (splice_cons _ _ here rest Hhere) as [-> _]. by rewrite last_app, Hend.
Qed.

Lemma soft_reroute_keeps_waiting_witness :
  ∃ train',
    updateTrain 100 doubleTrack [late] 1 late held = Done (train', {[ (1, 0) ]} ∪ held) ∧
    state train' = waiting ∧
    waitingTime train' = 21 ∧
    currentPathIndex train' = 1 ∧
    path train' = [(0, 0); (1, 0); (1, 1); (2, 1); (3, 1); (4, 1); (4, 0)].
Proof.
  destruct (soft_reroute_keeps_waiting 100 doubleTrack [late] 1 late held (1, 0)
              [(1, 0); (1, 1); (2, 1); (3, 1); (4, 1); (4, 0)])
    as (train' & Hrun & Hstate & Hwait & Hidx & _ & Htake & Hdrop & _).
  - reflexivity.
  - reflexivity.
  - vm_compute. reflexivity.
  - vm_compute. reflexivity.
  - vm_compute. reflexivity.
  - reflexivity.
  - vm_compute. reflexivity.
  - exists train'. split; [exact Hrun|]. split; [exact Hstate|]. split; [exact Hwait|].
    split; [exact Hidx|].
    rewrite <- (take_drop (Z.to_nat (currentPathIndex late)) (path train')).
    rewrite Htake, Hdrop. reflexivity.
Defined.

End SoftRerouteFacts.

(** ** Edits of the grid *)

Module GridFacts.
Import PathFacts ShortestFacts RouteFacts.

(** A grid as the program builds it: no key twice, and every cell stored
    under its own [id]. *)
Definition wfGrid (grid : Grid) : Prop :=
  NoDup (map fst grid) ∧ Forall (λ kc, cell_id kc.2 = kc.1) grid.

Lemma cellAt_gridSet grid id cell k :
  cellAt (gridSet grid id cell) k = if decide (k = id) then Some cell else cellAt grid k.
Proof.
  induction grid as [|[k0 c0] grid IH]; simpl.
  { destruct (decide (id = k)), (decide (k = id)); congruence. }
  destruct (decide (k0 = id)) as [->|Hne]; simpl.
  - destruct (decide (id = k)), (decide (k = id)); congruence.
  - rewrite IH. destruct (decide (k0 = k)), (decide (k = id)); congruence.
Qed.

Lemma cellAt_keys grid k : is_Some (cellAt grid k) ↔ k ∈ map fst grid.
Proof.
  induction grid as [|[k0 c0] grid IH]; simpl.
  { split; [by intros [? ?]|by intros ?%elem_of_nil]. }
  rewrite elem_of_cons, <- IH. destruct (decide (k0 = k)) as [->|Hne].
  - split; [by left|by eexists].
  - split; [by right|]. intros [?|?]; [congruence|done].
Qed.

Lemma gridSet_keys grid id cell :
  id ∈ map fst grid → map fst (gridSet grid id cell) = map fst grid.
Proof.
  induction grid as [|[k0 c0] grid IH]; simpl; [by intros ?%elem_of_nil|].
  destruct (decide (k0 = id)) as [->|Hne]; simpl; [done|].
  intros [?|Hin]%elem_of_cons; [congruence|]. by rewrite IH.
Qed.

Lemma gridSet_wf grid id cell :
  wfGrid grid → id ∈ map fst grid → cell_id cell = id → wfGrid (gridSet grid id cell).
Proof.
  intros [Hnd Hall] Hin Hid. split; [by rewrite gridSet_keys|].
  clear Hnd Hin. induction Hall as [|[k0 c0] grid Hk Hall IH]; simpl; [by repeat constructor|].
  destruct (decide (k0 = id)) as [->|Hne]; constructor; auto.
Qed.

(** *** [modifyCell] *)

(** The name an edit gives to the cell it changes. *)
Definition newName (x y : Z) (action : EditAction) : option string :=
  match action with
  | act_station => Some (stationLabel x y)
  | _ => None
  end.

Lemma modifyCell_cases x y action prev :
  modifyCell x y action prev = prev ∨
  ∃ cell, cellAt prev (x, y) = Some cell ∧ cell_type cell ≠ targetType action ∧
          modifyCell x y action prev
          = gridSet prev (x, y) (retype cell (targetType action) (newName x y action)).
Proof.
  unfold modifyCell, getCellId. cbv zeta.
  destruct (cellAt prev (x, y)) as [cell|]; [|by left].
  destruct action; simpl; case_decide; auto; right; by eexists.
Qed.

(** X21.  [modifyCell] edits one cell.  The keys of the grid and every
    other cell stay, and a key the grid does not have leaves the grid as it
    is.  The cell at (x, y) gets the type the action asks for and keeps its
    coordinates and id: it is untouched when it has that type already, else
    it is named [站x-y] as a station and loses its name as a track or an
    empty cell.  Doing the edit twice is doing it once. *)
Theorem modifyCell_edits_one_cell x y action prev :
  map fst (modifyCell x y action prev) = map fst prev ∧
  (∀ k, k ≠ (x, y) → cellAt (modifyCell x y action prev) k = cellAt prev k) ∧
  (cellAt prev (x, y) = None → modifyCell x y action prev = prev) ∧
  (∀ cell, cellAt prev (x, y) = Some cell →
     ∃ cell', cellAt (modifyCell x y action prev) (x, y) = Some cell' ∧
              cell_type cell' = targetType action ∧
              cell_x cell' = cell_x cell ∧ cell_y cell' = cell_y cell ∧
              cell_id cell' = cell_id cell ∧
              (cell_type cell = targetType action → cell' = cell) ∧
              (cell_type cell ≠ targetType action →
               stationName cell' = match action with
                                   | act_station => Some (stationLabel x y)
                                   | _ => None
                                   end)) ∧
  modifyCell x y action (modifyCell x y action prev)
    = modifyCell x y action prev.
Proof.
  destruct (modifyCell_cases x y action prev) as [Heq|(cell & Hc & Hne & Heq)].
  - rewrite Heq. split; [done|]. split; [done|]. split; [done|]. split; [|done].
    intros cell Hc. exists cell. split; [done|].
    enough (cell_type cell = targetType action) as Hty by done.
    revert Heq. unfold modifyCell, getCellId. cbv zeta. rewrite Hc.
    destruct action; simpl; case_decide; try done; intros Heq;
      match type of Heq with
      | gridSet _ _ ?c = _ =>
          assert (cellAt (gridSet prev (x, y) c) (x, y) = cellAt prev (x, y)) as Hsame
            by (by rewrite Heq)
      end;
      rewrite cellAt_gridSet in Hsame; rewrite decide_True in Hsame by done;
      rewrite Hc in Hsame; injection Hsame as Hsame; by rewrite <- Hsame.
  - rewrite Heq. split; [|split; [|split; [|split]]].
    + apply gridSet_keys, cellAt_keys. by eexists.
    + intros k Hk. by rewrite cellAt_gridSet, decide_False.
    + congruence.
    + intros cell0 Hc0. assert (cell0 = cell) as -> by congruence.
      eexists. rewrite cellAt_gridSet, decide_True by done.
      split; [done|]. simpl. by destruct action.
    + unfold modifyCell at 1. unfold getCellId. cbv zeta.
      rewrite cellAt_gridSet, decide_True by done.
      by destruct action.
Qed.

(** *** Dragging never makes a station *)

Lemma modifyCell_stations x y action prev k c :
  action ≠ act_station →
  cellAt (modifyCell x y action prev) k = Some c → cell_type c = station →
  cellAt prev k = Some c.
Proof.
  intros Hact.
  destruct (modifyCell_cases x y action prev) as [->|(cell & Hc & Hne & ->)];
    [done|].
  rewrite cellAt_gridSet. case_decide as Hk; [|done].
  intros [= <-]. simpl. by destruct action.
Qed.

(** X28.  Dragging changes at most the cell under the pointer and never
    makes a station: a station of the grid after [handleCellMouseEnter] was
    the same cell before.  Nothing changes while the simulation runs, while
    no button is down or no drag action is set, after [handleGlobalMouseUp],
    or on a mouse-down while the simulation runs. *)
Theorem dragging_never_makes_a_station isRunning x y ed :
  (∀ k c, cellAt (ed_grid (handleCellMouseEnter isRunning x y ed)) k = Some c →
          cell_type c = station → cellAt (ed_grid ed) k = Some c) ∧
  (∀ k, k ≠ (x, y) →
        cellAt (ed_grid (handleCellMouseEnter isRunning x y ed)) k = cellAt (ed_grid ed) k) ∧
  (isRunning = true ∨ isMouseDown ed = false ∨ dragAction ed = None →
   handleCellMouseEnter isRunning x y ed = ed) ∧
  handleCellMouseEnter isRunning x y (handleGlobalMouseUp ed) = handleGlobalMouseUp ed ∧
  (∀ editMode button, handleCellMouseDown true editMode x y button ed = ed).
Proof.
  split; [|split; [|split; [|split]]].
  - intros k c. unfold handleCellMouseEnter.
    destruct (isRunning || negb (isMouseDown ed)); [done|].
    destruct (dragAction ed) as [a|]; [|done]. simpl.
    apply modifyCell_stations. by destruct a.
  - intros k Hk. unfold handleCellMouseEnter.
    destruct (isRunning || negb (isMouseDown ed)); [done|].
    destruct (dragAction ed) as [a|]; [|done]. simpl.
    destruct (modifyCell_cases x y (dragEdit a) (ed_grid ed))
      as [->|(cell & Hc & Hne & ->)]; [done|].
    by rewrite cellAt_gridSet, decide_False.
  - unfold handleCellMouseEnter. intros [->|[->| ->]]; [done|by rewrite orb_true_r|].
    by destruct (isRunning || negb (isMouseDown ed)).
  - unfold handleCellMouseEnter, handleGlobalMouseUp. simpl. by rewrite orb_true_r.
  - done.
Qed.

Definition plainLine : Grid :=
  [ ((0, 0), mkCell 0 0 station (Some "A") (0, 0));
    ((1, 0), mkCell 1 0 track None (1, 0));
    ((2, 0), mkCell 2 0 station (Some "B") (2, 0)) ].

Lemma modifyCell_edits_one_cell_witness :
  ∃ cell', cellAt (modifyCell 1 0 act_station plainLine) (1, 0) = Some cell' ∧
           cell_type cell' = station ∧ stationName cell' = Some "站1-0" ∧
           cellAt (modifyCell 1 0 act_station plainLine) (0, 0) = cellAt plainLine (0, 0).
Proof.
  destruct (modifyCell_edits_one_cell 1 0 act_station plainLine) as (_ & Hother & _ & H & _).
  destruct (H _ eq_refl) as (cell' & Hc & Hty & _ & _ & _ & _ & Hname).
  exists cell'. split; [exact Hc|]. split; [exact Hty|]. split.
  - rewrite Hname; [reflexivity|]. simpl. discriminate.
  - apply Hother. discriminate.
Defined.

(** *** [clearTracks] *)

(** The cell [clearTracks] leaves in the place of a cell. *)
Definition cleared (c : Cell) : Cell :=
  if decide (cell_type c = track) then retype c empty_cell (stationName c) else c.

Local Abbreviation clearStep :=
  (λ (next : Grid) (cell : Cell),
     if decide (cell_type cell = track)
     then gridSet next (cell_id cell) (retype cell empty_cell (stationName cell))
     else next).

Lemma clear_other (L : list Cell) : ∀ next k,
  (∀ c, c ∈ L → cell_type c = track → cell_id c ≠ k) →
  cellAt (fold_left clearStep L next) k = cellAt next k.
Proof.
  induction L as [|c L IH]; intros next k Hk; simpl; [done|].
  rewrite IH by (intros c' Hc'; apply Hk; by right).
  case_decide as Ht; [|done].
  rewrite cellAt_gridSet, decide_False; [done|]. intros Heq.
  apply (Hk c); [by left|done|done].
Qed.

Lemma clear_hit (L : list Cell) : ∀ next c,
  NoDup (map cell_id L) → c ∈ L → cell_type c = track →
  cellAt (fold_left clearStep L next) (cell_id c)
  = Some (retype c empty_cell (stationName c)).
Proof.
  induction L as [|c0 L IH]; intros next c Hnd Hc Ht; [by apply elem_of_nil in Hc|].
  simpl in Hnd. apply NoDup_cons in Hnd as [Hnotin Hnd].
  apply elem_of_cons in Hc as [->|Hc]; simpl.
  - rewrite decide_True by done. rewrite clear_other.
    + by rewrite cellAt_gridSet, decide_True.
    + intros c' Hc' _ Heq. apply Hnotin. rewrite <- Heq. by apply list_elem_of_fmap_2.
  - by apply IH.
Qed.

Lemma clear_keys (L : list Cell) : ∀ next,
  (∀ c, c ∈ L → cell_id c ∈ map fst next) →
  map fst (fold_left clearStep L next) = map fst next.
Proof.
  induction L as [|c L IH]; intros next Hin; simpl; [done|].
  assert (map fst (clearStep next c) = map fst next) as Hstep.
  { simpl. case_decide; [|done]. apply gridSet_keys, Hin. by left. }
  rewrite IH, Hstep; [done|]. intros c' Hc'. rewrite Hstep. apply Hin. by right.
Qed.

Lemma wfGrid_ids grid : wfGrid grid → map cell_id (map snd grid) = map fst grid.
Proof.
  intros [_ Hall]. induction Hall as [|[k c] grid Hk _ IH]; simpl; [done|].
  simpl in Hk. by rewrite Hk, IH.
Qed.

Lemma cellAt_elem grid k c : cellAt grid k = Some c → (k, c) ∈ grid.
Proof.
  induction grid as [|[k0 c0] grid IH]; simpl; [done|].
  case_decide as Hk; [intros [= ->]; subst; by left|]. intros H. right. by apply IH.
Qed.

Lemma clearTracks_cellAt prev k :
  wfGrid prev → cellAt (clearTracks prev) k = cleared <$> cellAt prev k.
Proof.
  intros Hwf. pose proof (wfGrid_ids prev Hwf) as Hids. destruct Hwf as [Hnd Hall].
  unfold clearTracks.
  destruct (cellAt prev k) as [c|] eqn:Hc; simpl.
  - pose proof (cellAt_elem _ _ _ Hc) as Hin.
    pose proof (proj1 (Forall_forall _ _) Hall _ Hin) as Hid. simpl in Hid.
    unfold cleared. case_decide as Ht.
    + rewrite <- Hid. apply clear_hit; [by rewrite Hids| |done].
      apply list_elem_of_fmap. by exists (k, c).
    + rewrite clear_other; [done|].
      intros c' [[k' c''] [-> Hin']]%list_elem_of_fmap Ht' Heq. simpl in *.
      pose proof (proj1 (Forall_forall _ _) Hall _ Hin') as Hid'. simpl in Hid'.
      assert (k' = k) as -> by congruence.
      assert (cellAt prev k = Some c'') as Hc''.
      { clear -Hnd Hin'. induction prev as [|[k0 c0] prev IH]; [by apply elem_of_nil in Hin'|].
        simpl in *. apply NoDup_cons in Hnd as [Hnotin Hnd].
        apply elem_of_cons in Hin' as [[= -> ->]|Hin']; [by rewrite decide_True|].
        rewrite decide_False; [by apply IH|]. intros ->. apply Hnotin.
        apply list_elem_of_fmap. by exists (k, c''). }
      congruence.
  - rewrite clear_other; [done|].
    intros c' [[k' c''] [-> Hin']]%list_elem_of_fmap _ Heq. simpl in *.
    pose proof (proj1 (Forall_forall _ _) Hall _ Hin') as Hid'. simpl in Hid'.
    assert (is_Some (cellAt prev k)) as [? ?]; [|congruence].
    apply cellAt_keys, list_elem_of_fmap. exists (k', c''). split; [simpl; congruence|done].
Qed.

Lemma clearTracks_keys prev : wfGrid prev → map fst (clearTracks prev) = map fst prev.
Proof.
  intros Hwf. apply clear_keys. intros c Hc.
  rewrite <- (wfGrid_ids prev Hwf). by apply list_elem_of_fmap_2.
Qed.

(** X22.  On a grid whose keys are distinct and whose cells carry their
    key as id, [clearTracks] keeps the keys, turns every track into an
    empty cell that keeps its other fields, and leaves every other cell
    alone.  Afterwards no cell is a track, and clearing again changes
    nothing. *)
Theorem clearTracks_empties_every_track prev :
  wfGrid prev →
  map fst (clearTracks prev) = map fst prev ∧
  (∀ k c, cellAt prev k = Some c →
     cellAt (clearTracks prev) k
     = Some (if decide (cell_type c = track) then retype c empty_cell (stationName c)
             else c)) ∧
  (∀ k c, cellAt (clearTracks prev) k = Some c → cell_type c ≠ track) ∧
  clearTracks (clearTracks prev) = clearTracks prev.
Proof.
  intros Hwf. split; [by apply clearTracks_keys|]. split; [|split].
  - intros k c Hc. by rewrite clearTracks_cellAt, Hc.
  - intros k c. rewrite clearTracks_cellAt by done.
    destruct (cellAt prev k) as [c0|]; [|done]. simpl. intros [= <-].
    unfold cleared. by case_decide.
  - unfold clearTracks at 1.
    assert (∀ (L : list Cell) next, Forall (λ c, cell_type c ≠ track) L →
              fold_left clearStep L next = next) as Hnone.
    { induction L as [|c L IH]; intros next HL; [done|].
      apply Forall_cons in HL as [Hc HL]. simpl. rewrite decide_False by done. by apply IH. }
    apply Hnone, Forall_forall. intros c [[k c'] [-> Hin]]%list_elem_of_fmap. simpl.
    assert (cellAt (clearTracks prev) k = Some c') as Hc'; [|clear Hin].
    2:{ revert Hc'. rewrite clearTracks_cellAt by done.
        destruct (cellAt prev k) as [c0|]; [|done]. simpl. intros [= <-].
        unfold cleared. by case_decide. }
    assert (NoDup (map fst (clearTracks prev))) as Hnd
      by (rewrite clearTracks_keys by done; apply Hwf).
    clear -Hnd Hin. induction (clearTracks prev) as [|[k0 c0] g IH];
      [by apply elem_of_nil in Hin|].
    simpl in *. apply NoDup_cons in Hnd as [Hnotin Hnd].
    apply elem_of_cons in Hin as [[= -> ->]|Hin]; [by rewrite decide_True|].
    rewrite decide_False; [by apply IH|]. intros ->. apply Hnotin.
    apply list_elem_of_fmap. by exists (k, c').
Qed.

Lemma plainLine_wf : wfGrid plainLine.
Proof.
  split; [|by repeat constructor].
  apply (bool_decide_unpack _). vm_compute. exact I.
Defined.

Lemma clearTracks_empties_every_track_witness :
  map fst (clearTracks plainLine) = map fst plainLine ∧
  (∀ k c, cellAt plainLine k = Some c →
     cellAt (clearTracks plainLine) k
     = Some (if decide (cell_type c = track) then retype c empty_cell (stationName c)
             else c)) ∧
  (∀ k c, cellAt (clearTracks plainLine) k = Some c → cell_type c ≠ track) ∧
  clearTracks (clearTracks plainLine) = clearTracks plainLine.
Proof. exact (clearTracks_empties_every_track plainLine plainLine_wf). Defined.

End GridFacts.

(** ** The preview and the dispatch button *)

Module PreviewFacts.
Import PathFacts ShortestFacts RouteFacts DispatchFacts QueueingFacts.

Lemma previewPath_cases fuel grid trains dispatchFrom dispatchTo preview :
  previewPath fuel grid trains dispatchFrom dispatchTo = Done preview →
  preview = [] ∨
  ∃ s1 s2, dispatchFrom ≠ dispatchTo ∧
           find (stationNamed dispatchFrom) (stationsOf grid) = Some s1 ∧
           find (stationNamed dispatchTo) (stationsOf grid) = Some s2 ∧
           findPathAStar fuel (cell_id s1) (cell_id s2) grid trains None None false
           = Done (Some preview).
Proof.
  unfold previewPath. fold (stationsOf grid).
  case_bool_decide as Hf; [intros [= <-]; by left|].
  case_bool_decide as Ht; [intros [= <-]; by left|].
  case_bool_decide as Hne; [intros [= <-]; by left|]. cbn [orb].
  destruct (find (stationNamed dispatchFrom) _) as [s1|] eqn:H1; [|intros [= <-]; by left].
  destruct (find (stationNamed dispatchTo) _) as [s2|] eqn:H2; [|intros [= <-]; by left].
  destruct (findPathAStar _ _ _ _ _ _ _ _) as [|[p|]] eqn:Hfind; [done| |intros [= <-]; by left].
  cbn [bindR default]. intros [= <-]. right. by exists s1, s2.
Qed.

(** X24.  When the dispatch button is enabled, that is the preview is not
    empty and the two names differ, pressing it queues a waiting train, and
    the path of the train is the path that was previewed. *)
Theorem enabled_button_dispatches_the_preview fuel grid trains time trainId histId
    dispatchFrom dispatchTo prio cyclic preview :
  previewPath fuel grid trains dispatchFrom dispatchTo = Done preview →
  dispatchDisabled preview dispatchFrom dispatchTo = false →
  ∃ t, handleManualDispatch fuel grid trains time trainId histId
                            dispatchFrom dispatchTo prio cyclic
       = Done [ AppendTrain t;
                PrependHistory (mkHistoryItem histId time dispatchFrom dispatchTo prio
                                              manual cyclic) ] ∧
       path t = preview ∧ state t = waiting ∧ currentPathIndex t = 0 ∧
       train_type t = manual.
Proof.
  intros Hprev Hen. unfold dispatchDisabled in Hen.
  apply orb_false_iff in Hen as [Hlen _]. apply Z.eqb_neq in Hlen.
  apply previewPath_cases in Hprev as [->|(s1 & s2 & Hne & H1 & H2 & Hfind)]; [done|].
  unfold handleManualDispatch, dispatchTrain. fold (stationsOf grid).
  rewrite (bool_decide_eq_false_2 _ Hne), H1, H2, Hfind. cbn [bindR].
  eexists. split; [reflexivity|]. done.
Qed.

Lemma enabled_button_dispatches_the_preview_witness :
  ∃ t, handleManualDispatch 100 twoCells [] 7 "man-1" "hist-1" "A" "B" 5 false
       = Done [ AppendTrain t;
                PrependHistory (mkHistoryItem "hist-1" 7 "A" "B" 5 manual false) ] ∧
       path t = [(0, 0); (1, 0)] ∧ state t = waiting ∧ currentPathIndex t = 0 ∧
       train_type t = manual.
Proof.
  apply (enabled_button_dispatches_the_preview 100 twoCells [] 7 "man-1" "hist-1" "A" "B" 5
           false [(0, 0); (1, 0)]).
  - vm_compute. reflexivity.
  - reflexivity.
Defined.

End PreviewFacts.

(** ** The history panel shows each route once *)

Module HistoryFacts.

(** An item that the two filters of the panel let through. *)
Definition passes (historyFilterFrom historyFilterTo : string) (item : HistoryItem) : Prop :=
  (historyFilterFrom = "" ∨ hist_from item = historyFilterFrom) ∧
  (historyFilterTo = "" ∨ hist_to item = historyFilterTo).

Section History.
Context (ff ft : string).

Local Abbreviation loop := (uniqueHistory_from ff ft).

Lemma loop_cons seen item rest :
  loop seen (item :: rest) =
    if decide (passes ff ft item ∧ routeKey item ∉ seen)
    then item :: loop ({[routeKey item]} ∪ seen) rest
    else loop seen rest.
Proof.
  simpl. unfold passes.
  destruct (decide (ff = "")) as [Hf|Hf], (decide (hist_from item = ff)) as [Hi|Hi],
    (decide (ft = "")) as [Ht|Ht], (decide (hist_to item = ft)) as [Hj|Hj],
    (decide (routeKey item ∈ seen)) as [Hs|Hs];
    rewrite ?(bool_decide_eq_true_2 _ Hf), ?(bool_decide_eq_false_2 _ Hf),
      ?(bool_decide_eq_true_2 _ Hi), ?(bool_decide_eq_false_2 _ Hi),
      ?(bool_decide_eq_true_2 _ Ht), ?(bool_decide_eq_false_2 _ Ht),
      ?(bool_decide_eq_true_2 _ Hj), ?(bool_decide_eq_false_2 _ Hj),
      ?(bool_decide_eq_true_2 _ Hs), ?(bool_decide_eq_false_2 _ Hs); simpl;
    case_decide as Hd; try done; exfalso; tauto.
Qed.

Lemma loop_spec history : ∀ seen,
  sublist (loop seen history) history ∧
  NoDup (routeKey <$> loop seen history) ∧
  Forall (λ item, passes ff ft item ∧ routeKey item ∉ seen) (loop seen history) ∧
  (∀ item, item ∈ history → passes ff ft item →
           routeKey item ∈ seen ∨
           ∃ first, first ∈ loop seen history ∧ routeKey first = routeKey item) ∧
  (∀ l1 item l2, history = l1 ++ item :: l2 → passes ff ft item → routeKey item ∉ seen →
                 (∀ o, o ∈ l1 → passes ff ft o → routeKey o ≠ routeKey item) →
                 item ∈ loop seen history).
Proof.
  induction history as [|x history IH]; intros seen.
  { simpl. split; [constructor|]. split; [constructor|]. split; [constructor|].
    split; [by intros ? ?%elem_of_nil|]. intros [|? ?] ? ? ?; done. }
  rewrite loop_cons. case_decide as Hx.
  - destruct (IH ({[routeKey x]} ∪ seen)) as (Hsub & Hnd & Hall & Hrep & Hfirst).
    split; [by constructor|]. split; [|split; [|split]].
    + simpl. apply NoDup_cons. split; [|done].
      intros (y & Hy & Hin)%list_elem_of_fmap.
      destruct (proj1 (Forall_forall _ _) Hall y Hin) as [_ Hny]. apply Hny.
      rewrite <- Hy. apply elem_of_union. left. by apply elem_of_singleton.
    + constructor; [done|]. eapply Forall_impl; [exact Hall|]. simpl.
      intros y [Hp Hny]. split; [done|]. intros Hs. apply Hny, elem_of_union. by right.
    + intros item [->|Hin]%elem_of_cons Hp.
      * right. exists x. split; [by left|done].
      * destruct (Hrep item Hin Hp) as [[Hk|Hk]%elem_of_union|(first & Hf & Hk)].
        -- right. exists x. split; [by left|]. apply elem_of_singleton in Hk. done.
        -- by left.
        -- right. exists first. split; [by right|done].
    + intros l1 item l2 Heq Hp Hns Hl1. destruct l1 as [|o l1]; simpl in Heq.
      * injection Heq as <- <-. by left.
      * injection Heq as <- ->. right. apply (Hfirst l1 item l2); [done|done| |].
        -- intros [Hk|Hk]%elem_of_union; [|done]. apply elem_of_singleton in Hk.
           apply (Hl1 x); [by left|tauto|done].
        -- intros o' Ho'. apply Hl1. by right.
  - destruct (IH seen) as (Hsub & Hnd & Hall & Hrep & Hfirst).
    split; [by constructor|]. split; [done|]. split; [done|]. split.
    + intros item [->|Hin]%elem_of_cons Hp; [|by apply Hrep].
      left. destruct (decide (routeKey x ∈ seen)); [done|]. exfalso. by apply Hx.
    + intros l1 item l2 Heq Hp Hns Hl1. destruct l1 as [|o l1]; simpl in Heq.
      * injection Heq as <- <-. exfalso. by apply Hx.
      * injection Heq as <- ->. apply (Hfirst l1 item l2); [done|done|done|].
        intros o' Ho'. apply Hl1. by right.
Qed.

(** X25.  The history panel shows a sub-list of the history, in its
    order: only items that pass the two filters, no two of them with the
    same key [from->to], and for every item that passes the filters the
    first such item with its key. *)
Theorem history_shows_first_of_each_route (history : list HistoryItem) :
  let shown := uniqueHistory history ff ft in
  sublist shown history ∧
  NoDup (routeKey <$> shown) ∧
  Forall (passes ff ft) shown ∧
  (∀ item, item ∈ history → passes ff ft item →
           ∃ first, first ∈ shown ∧ routeKey first = routeKey item) ∧
  (∀ l1 item l2, history = l1 ++ item :: l2 → passes ff ft item →
                 (∀ o, o ∈ l1 → passes ff ft o → routeKey o ≠ routeKey item) →
                 item ∈ shown).
Proof.
  intros shown. unfold shown, uniqueHistory.
  destruct (loop_spec history ∅) as (Hsub & Hnd & Hall & Hrep & Hfirst).
  split; [done|]. split; [done|]. split; [|split].
  - eapply Forall_impl; [exact Hall|]. by intros y [? _].
  - intros item Hin Hp. destruct (Hrep item Hin Hp) as [Hk|?]; [|done].
    by apply elem_of_empty in Hk.
  - intros l1 item l2 Heq Hp Hl1. apply (Hfirst l1 item l2); [done|done| |done].
    apply not_elem_of_empty.
Qed.

End History.
End HistoryFacts.

(** ** Shortest paths through a free rectangle, and the initial map *)

Module BoardFacts.
Import SearchFacts PathFacts ShortestFacts RouteFacts DispatchFacts QueueingFacts GridFacts.

Lemma free_rectangle_search startId endId grid ign R strict :
  parseCellId startId = startId → parseCellId endId = endId →
  startId ≠ endId → (∀ n, reservedHas R n = false) →
  (∀ c, manh startId c + manh c endId = manh startId endId →
        ∃ cell, cellAt grid c = Some cell ∧ isTraversable cell = true) →
  ∃ fuel0, ∀ fuel, (fuel0 ≤ fuel)%nat →
    ∃ p, findPathAStar fuel startId endId grid [] ign R strict = Done (Some p) ∧
         len p = manh startId endId + 1 ∧ stepwise p.
Proof.
  intros Hps Hpe Hne Hfree Hrect.
  destruct (free_box_path startId endId grid R strict Hfree Hps Hpe Hne) as (fuel0 & Hrun).
  { intros c Hc. unfold enterable, excluded. rewrite Hfree, andb_false_r. simpl.
    destruct (Hrect c Hc) as (cell & -> & ->). done. }
  exists fuel0. intros fuel Hle. destruct (Hrun fuel Hle) as (p & Hp & Hlen & Hstep).
  exists p. split; [|done]. rewrite findPathAStar_eq.
  destruct (Hrect startId) as (cs & -> & _).
  { unfold manh, getHeuristic. lia. }
  destruct (Hrect endId) as (ce & -> & _).
  { unfold manh, getHeuristic. lia. }
  exact Hp.
Qed.

(** X26.  On any grid, when every cell of the rectangle spanned by start
    and goal (the cells on a shortest lattice path between them) is a track
    or a station, there is no train and nothing is reserved, the search
    returns a path of the Manhattan distance plus one cells that goes by
    4-adjacent steps, whatever lies outside the rectangle.  Start and goal
    are keys of two coordinates that are not negative, as the keys of the
    board are: [parseCellId] reads the positions of both from their
    keys. *)
Theorem free_rectangle_path_is_shortest startId endId grid ign R strict :
  0 ≤ startId.1 → 0 ≤ startId.2 → 0 ≤ endId.1 → 0 ≤ endId.2 →
  startId ≠ endId → (∀ n, reservedHas R n = false) →
  (∀ c, getHeuristic startId.1 startId.2 c.1 c.2 + getHeuristic c.1 c.2 endId.1 endId.2
        = getHeuristic startId.1 startId.2 endId.1 endId.2 →
        ∃ cell, cellAt grid c = Some cell ∧ isTraversable cell = true) →
  ∃ fuel0, ∀ fuel, (fuel0 ≤ fuel)%nat →
    ∃ p, findPathAStar fuel startId endId grid [] ign R strict = Done (Some p) ∧
         len p = getHeuristic startId.1 startId.2 endId.1 endId.2 + 1 ∧
         ∀ i a b, p !! i = Some a → p !! S i = Some b → getHeuristic a.1 a.2 b.1 b.2 = 1.
Proof.
  intros Hsx Hsy Hex Hey. apply free_rectangle_search; by apply parseCellId_plain.
Qed.

(** A free corridor beside cells that are not traversable. *)
Definition walledLine : Grid :=
  [ ((0, 0), mkCell 0 0 station (Some "A") (0, 0));
    ((1, 0), mkCell 1 0 track None (1, 0));
    ((2, 0), mkCell 2 0 station (Some "B") (2, 0));
    ((1, 1), mkCell 1 1 empty_cell None (1, 1)) ].

Lemma walledLine_rectangle c :
  getHeuristic 0 0 c.1 c.2 + getHeuristic c.1 c.2 2 0 = getHeuristic 0 0 2 0 →
  ∃ cell, cellAt walledLine c = Some cell ∧ isTraversable cell = true.
Proof.
  destruct c as [x y]. unfold getHeuristic. simpl. intros H.
  assert (y = 0 ∧ (x = 0 ∨ x = 1 ∨ x = 2)) as [-> [->|[->| ->]]] by lia;
    eexists; split; reflexivity.
Defined.

Lemma free_rectangle_path_is_shortest_witness :
  ∃ fuel0, ∀ fuel, (fuel0 ≤ fuel)%nat →
    ∃ p, findPathAStar fuel (0, 0) (2, 0) walledLine [] None None false = Done (Some p) ∧
         len p = getHeuristic 0 0 2 0 + 1 ∧
         ∀ i a b, p !! i = Some a → p !! S i = Some b → getHeuristic a.1 a.2 b.1 b.2 = 1.
Proof.
  apply (free_rectangle_path_is_shortest (0, 0) (2, 0) walledLine None None false).
  - simpl. lia.
  - simpl. lia.
  - simpl. lia.
  - simpl. lia.
  - discriminate.
  - reflexivity.
  - exact walledLine_rectangle.
Defined.

(** *** The initial map *)

(** The stations that the initial effect adds, by name. *)
Definition defaultStations : list (string * (Z * Z)) :=
  [ ("西站", (5, 15)); ("东站", (55, 15)); ("北站", (30, 5)); ("南站", (30, 25));
    ("西北站", (15, 10)); ("东北站", (45, 10)); ("西南站", (15, 20)); ("东南站", (45, 20)) ].

Lemma initialGrid_free : freeBoard GRID_W GRID_H initialGrid.
Proof.
  assert (forallb (λ y, forallb (λ x, match cellAt initialGrid (x, y) with
                                      | Some c => isTraversable c
                                      | None => false
                                      end) (seqZ 0 GRID_W)) (seqZ 0 GRID_H) = true) as Hall
    by (vm_compute; reflexivity).
  intros x y Hx Hy. rewrite forallb_forall in Hall.
  assert (In y (seqZ 0 GRID_H)) as Hiy by (apply list_elem_of_In, elem_of_seqZ; lia).
  specialize (Hall y Hiy). rewrite forallb_forall in Hall.
  assert (In x (seqZ 0 GRID_W)) as Hix by (apply list_elem_of_In, elem_of_seqZ; lia).
  specialize (Hall x Hix). destruct (cellAt initialGrid (x, y)) as [c|]; [|done].
  by exists c.
Qed.

Lemma find_default name c :
  (name, c) ∈ defaultStations →
  ∃ cell, find (stationNamed name) (stationsOf initialGrid) = Some cell ∧
          cell_id cell = c ∧ onBoard GRID_W GRID_H c.
Proof.
  unfold defaultStations. intros Hin.
  repeat (apply elem_of_cons in Hin as [[= -> ->]|Hin];
          [eexists; split; [vm_compute; reflexivity|];
           split; [reflexivity|unfold onBoard, GRID_W, GRID_H; simpl; lia]|]).
  by apply elem_of_nil in Hin.
Qed.

Lemma default_distinct name1 c1 name2 c2 :
  (name1, c1) ∈ defaultStations → (name2, c2) ∈ defaultStations →
  name1 ≠ name2 → c1 ≠ c2.
Proof.
  unfold defaultStations. intros H1 H2 Hne.
  repeat (apply elem_of_cons in H1 as [[= -> ->]|H1]);
    [..|by apply elem_of_nil in H1];
    repeat (apply elem_of_cons in H2 as [[= -> ->]|H2]);
    try done; by apply elem_of_nil in H2.
Qed.

Lemma dispatchTrain_found fuel grid trainsRef time trainId histId
    fromName toName prio dispatchType cyclic from to p :
  fromName ≠ toName →
  find (stationNamed fromName) (stationsOf grid) = Some from →
  find (stationNamed toName) (stationsOf grid) = Some to →
  findPathAStar fuel (cell_id from) (cell_id to) grid trainsRef None None false
    = Done (Some p) →
  dispatchTrain fuel grid trainsRef time trainId histId
                fromName toName prio dispatchType cyclic
  = Done [ AppendTrain (mkTrain trainId (cell_id from) (cell_id to) p 0 0 waiting prio
                                dispatchType 0 cyclic 0);
           PrependHistory (mkHistoryItem histId time fromName toName prio
                                         dispatchType cyclic) ].
Proof.
  intros Hne Hfrom Hto Hfind. unfold dispatchTrain. fold (stationsOf grid).
  by rewrite (bool_decide_eq_false_2 _ Hne), Hfrom, Hto, Hfind.
Qed.

(** X23.  On the map the application starts with (60 by 30 tracks, eight
    stations) and with no train on it, a dispatch between two different
    stations of the eight succeeds, and the path of the train is a shortest
    one: its length is the Manhattan distance of the stations plus one. *)
Theorem initial_map_dispatch_takes_a_shortest_path fromName from toName to
    time trainId histId prio dispatchType cyclic :
  (fromName, from) ∈ defaultStations → (toName, to) ∈ defaultStations →
  fromName ≠ toName →
  ∃ fuel0, ∀ fuel, (fuel0 ≤ fuel)%nat →
    ∃ t, dispatchTrain fuel initialGrid [] time trainId histId
                       fromName toName prio dispatchType cyclic
         = Done [ AppendTrain t;
                  PrependHistory (mkHistoryItem histId time fromName toName prio
                                                dispatchType cyclic) ] ∧
         fromId t = from ∧ toId t = to ∧ state t = waiting ∧
         len (path t) = getHeuristic from.1 from.2 to.1 to.2 + 1.
Proof.
  intros Hfrom Hto Hne.
  destruct (find_default _ _ Hfrom) as (cf & Hcf & Hidf & [Hfx Hfy]).
  destruct (find_default _ _ Hto) as (ct & Hct & Hidt & [Htx Hty]).
  pose proof (default_distinct _ _ _ _ Hfrom Hto Hne) as Hcells.
  destruct (free_rectangle_search from to initialGrid None None false
              (parseCellId_plain from (proj1 Hfx) (proj1 Hfy))
              (parseCellId_plain to (proj1 Htx) (proj1 Hty)) Hcells) as (fuel0 & Hrun).
  { done. }
  { intros [cx cy] Hc. unfold manh, getHeuristic in Hc. simpl in Hc.
    apply (initialGrid_free cx cy); lia. }
  exists fuel0. intros fuel Hle. destruct (Hrun fuel Hle) as (p & Hp & Hlen & _).
  rewrite <- Hidf, <- Hidt in Hp.
  rewrite (dispatchTrain_found _ _ _ _ _ _ _ _ _ _ _ cf ct p Hne Hcf Hct Hp).
  eexists. split; [reflexivity|]. simpl. clear -Hidf Hidt Hlen.
  split; [exact Hidf|]. split; [exact Hidt|]. split; [reflexivity|exact Hlen].
Qed.

Lemma initial_map_dispatch_takes_a_shortest_path_witness :
  ∃ fuel0, ∀ fuel, (fuel0 ≤ fuel)%nat →
    ∃ t, dispatchTrain fuel initialGrid [] 0 "man-1" "hist-1" "西站" "东站" 5 manual false
         = Done [ AppendTrain t;
                  PrependHistory (mkHistoryItem "hist-1" 0 "西站" "东站" 5 manual false) ] ∧
         fromId t = (5, 15) ∧ toId t = (55, 15) ∧ state t = waiting ∧
         len (path t) = getHeuristic 5 15 55 15 + 1.
Proof.
  apply (initial_map_dispatch_takes_a_shortest_path "西站" (5, 15) "东站" (55, 15)
           0 "man-1" "hist-1" 5 manual false).
  - unfold defaultStations. by left.
  - unfold defaultStations. right. by left.
  - discriminate.
Defined.

End BoardFacts.

(** ** Cell keys round trip *)

Module CellKeyFacts.
Import CellKey.

(** A string without the separator. *)
Fixpoint dashfree (s : string) : Prop :=
  match s with
  | EmptyString => True
  | String c rest => Ascii.eqb c "-"%char = false ∧ dashfree rest
  end.

Lemma string_of_uint_dashfree d : dashfree (NilEmpty.string_of_uint d).
Proof. induction d; simpl; auto. Qed.

Lemma split_dash_dashfree s : dashfree s → split_dash s = [s].
Proof.
  induction s as [|c s IH]; simpl; [done|]. intros [-> Hs]. by rewrite IH.
Qed.

Lemma split_dash_app s1 s2 :
  dashfree s1 → split_dash (s1 +:+ "-" +:+ s2) = s1 :: split_dash s2.
Proof.
  induction s1 as [|c s1 IH]; simpl; [done|]. intros [-> Hs]. by rewrite IH.
Qed.

(** The digits of a number that is not negative. *)
Definition unsigned (z : Z) : string :=
  match z with
  | Z0 => "0"
  | Zpos p => NilEmpty.string_of_uint (Pos.to_uint p)
  | Zneg p => NilEmpty.string_of_uint (Pos.to_uint p)
  end.

Lemma unsigned_dashfree z : dashfree (unsigned z).
Proof. destruct z; simpl; auto using string_of_uint_dashfree. Qed.

Lemma string_of_pos p :
  NilZero.string_of_uint (Pos.to_uint p) = NilEmpty.string_of_uint (Pos.to_uint p).
Proof.
  unfold NilZero.string_of_uint. pose proof (Unsigned.to_uint_nonnil p).
  by destruct (Pos.to_uint p).
Qed.

Lemma numeral_nonneg z : 0 ≤ z → numeral z = unsigned z.
Proof. destruct z; [done| |lia]. intros _. apply string_of_pos. Qed.

Lemma numeral_neg z : z < 0 → numeral z = String "-" (unsigned z).
Proof. destruct z; [lia|lia|]. intros _. unfold numeral. simpl. f_equal. apply string_of_pos. Qed.

Lemma Number_unsigned z : Number (unsigned z) = digits (Z.abs z).
Proof.
  destruct z as [|p|p]; [done| |]; unfold Number; simpl;
    rewrite NilEmpty.usu; unfold Z.of_uint; by rewrite Unsigned.of_to.
Qed.

Lemma unsigned_nonempty z : unsigned z ≠ EmptyString.
Proof.
  destruct z as [|p|p]; [done| |]; simpl; pose proof (Unsigned.to_uint_nonnil p);
    by destruct (Pos.to_uint p).
Qed.

Lemma parse_unsigned x y :
  parseCellId (Some (unsigned x +:+ "-" +:+ unsigned y))
  = (digits (Z.abs x), digits (Z.abs y)).
Proof.
  unfold parseCellId.
  destruct (unsigned x +:+ "-" +:+ unsigned y) eqn:E.
  { pose proof (unsigned_nonempty x). by destruct (unsigned x). }
  rewrite <- E. cbv zeta.
  rewrite split_dash_app by apply unsigned_dashfree.
  rewrite split_dash_dashfree by apply unsigned_dashfree. simpl.
  by rewrite !Number_unsigned.
Qed.

(** X27.  Keys round trip: for coordinates that are not negative,
    [parseCellId (getCellId x y)] gives x and y back, and two different
    cells have different keys.  For a negative [x] the key begins with the
    separator and is read as [(0, -x)]; a missing or empty key is read as
    [(0, 0)].  (Coordinates are integers that print in plain decimal, that
    is below [10^21] in absolute value.) *)
Theorem cell_key_round_trip x y :
  (0 ≤ x → 0 ≤ y → parseCellId (Some (getCellId x y)) = (digits x, digits y)) ∧
  (∀ x' y', 0 ≤ x → 0 ≤ y → 0 ≤ x' → 0 ≤ y' →
            getCellId x y = getCellId x' y' → x = x' ∧ y = y') ∧
  (x < 0 → 0 ≤ y → parseCellId (Some (getCellId x y)) = (digits 0, digits (- x))) ∧
  parseCellId None = (digits 0, digits 0) ∧ parseCellId (Some "") = (digits 0, digits 0).
Proof.
  assert (∀ a b, 0 ≤ a → 0 ≤ b → parseCellId (Some (getCellId a b)) = (digits a, digits b))
    as Hround.
  { intros a b Ha Hb. unfold getCellId. rewrite !numeral_nonneg by done.
    rewrite parse_unsigned. by rewrite !Z.abs_eq. }
  split; [apply Hround|]. split; [|split; [|done]].
  - intros x' y' Hx Hy Hx' Hy' Heq.
    pose proof (Hround x y Hx Hy) as H1. rewrite Heq, (Hround x' y' Hx' Hy') in H1.
    by injection H1 as <- <-.
  - intros Hx Hy. unfold getCellId. rewrite (numeral_neg x Hx), (numeral_nonneg y Hy).
    unfold parseCellId. simpl. cbv zeta.
    rewrite split_dash_app by apply unsigned_dashfree.
    rewrite split_dash_dashfree by apply unsigned_dashfree. simpl.
    rewrite Number_unsigned. f_equal. f_equal. lia.
Qed.

Lemma cell_key_round_trip_witness :
  getCellId 12 7 = "12-7" ∧ parseCellId (Some "12-7") = (digits 12, digits 7) ∧
  getCellId (-3) 5 = "-3-5" ∧ parseCellId (Some "-3-5") = (digits 0, digits 3).
Proof.
  split; [reflexivity|]. split.
  - apply (cell_key_round_trip 12 7); lia.
  - split; [reflexivity|]. apply (cell_key_round_trip (-3) 5); lia.
Defined.

End CellKeyFacts.

(** ** The pair a key is built from

    A key is built from one pair of integers only, and reading it back is
    the function [parseCellId] of the embedding on that pair; so the pair
    can stand for the key. *)

Module PairKeyFacts.
Import CellKeyFacts.

Lemma key_cut (s1 s1' t t' : string) :
  dashfree s1 → dashfree s1' → s1 +:+ "-" +:+ t = s1' +:+ "-" +:+ t' → s1 = s1' ∧ t = t'.
Proof.
  assert (∀ s : string, "" +:+ s = s) as Hnil by done.
  assert (∀ c (s u : string), String c s +:+ u = String c (s +:+ u)) as Hcons by done.
  revert s1'. induction s1 as [|c s1 IH]; intros [|c' s1']; simpl;
    rewrite ?Hnil, ?Hcons, ?Hnil.
  - by intros _ _ [= ->].
  - intros _ [Hc' _] [= <- _]. done.
  - intros [Hc _] _ [= -> _]. done.
  - intros [_ H1] [_ H1'] [= -> Heq]. destruct (IH s1' H1 H1' Heq) as [-> ->]. done.
Qed.

Lemma unsigned_inj z z' :
  CellKeyFacts.unsigned z = CellKeyFacts.unsigned z' → Z.abs z = Z.abs z'.
Proof.
  intros Heq. pose proof (Number_unsigned z) as H. rewrite Heq, Number_unsigned in H.
  by injection H.
Qed.

Lemma unsigned_head z rest : CellKeyFacts.unsigned z ≠ String "-" rest.
Proof.
  intros Heq. pose proof (unsigned_dashfree z) as Hd. rewrite Heq in Hd. by destruct Hd.
Qed.

(** The keys of two pairs are the same only when the pairs are. *)
Lemma getCellId_inj x y x' y' :
  CellKey.getCellId x y = CellKey.getCellId x' y' → x = x' ∧ y = y'.
Proof.
  assert (∀ z z', CellKey.numeral z = CellKey.numeral z' → z = z') as Hnum.
  { intros z z'. destruct (Z.lt_ge_cases z 0) as [Hz|Hz];
      destruct (Z.lt_ge_cases z' 0) as [Hz'|Hz'];
      rewrite ?(numeral_neg z), ?(numeral_neg z'), ?(numeral_nonneg z), ?(numeral_nonneg z')
        by done.
    - intros [= Heq%unsigned_inj]. lia.
    - intros Heq. symmetry in Heq. by apply unsigned_head in Heq.
    - intros Heq. by apply unsigned_head in Heq.
    - intros Heq%unsigned_inj. lia. }
  unfold CellKey.getCellId.
  destruct (Z.lt_ge_cases x 0) as [Hx|Hx]; destruct (Z.lt_ge_cases x' 0) as [Hx'|Hx'];
    rewrite ?(numeral_neg x), ?(numeral_neg x'), ?(numeral_nonneg x), ?(numeral_nonneg x')
      by done; simpl.
  - intros [= Heq]. apply key_cut in Heq as [Hu Hy]; [|apply unsigned_dashfree..].
    apply unsigned_inj in Hu. apply Hnum in Hy. lia.
  - intros Heq. destruct (CellKeyFacts.unsigned x') as [|c r] eqn:E.
    + by apply unsigned_nonempty in E.
    + simpl in Heq. injection Heq as <- _. by apply unsigned_head in E.
  - intros Heq. destruct (CellKeyFacts.unsigned x) as [|c r] eqn:E.
    + by apply unsigned_nonempty in E.
    + simpl in Heq. injection Heq as -> _. by apply unsigned_head in E.
  - intros Heq. apply key_cut in Heq as [Hu Hy]; [|apply unsigned_dashfree..].
    apply unsigned_inj in Hu. apply Hnum in Hy. lia.
Qed.

(** Reading the key of a pair back gives what [parseCellId] gives on the
    pair, for two integers of either sign. *)
Lemma parseCellId_key x y :
  CellKey.parseCellId (Some (CellKey.getCellId x y))
  = (CellKey.digits (parseCellId (getCellId x y)).1,
     CellKey.digits (parseCellId (getCellId x y)).2).
Proof.
  unfold parseCellId, getCellId. cbn [fst snd].
  assert (∀ s t, dashfree s → s ≠ EmptyString →
            CellKey.parseCellId (Some (s +:+ "-" +:+ t))
            = (CellKey.Number s,
               default CellKey.missing (CellKey.Number <$> head (CellKey.split_dash t))))
    as Hsplit.
  { intros s t Hs Hne. unfold CellKey.parseCellId.
    destruct (s +:+ "-" +:+ t) eqn:E; [by destruct s|]. rewrite <- E. cbv zeta.
    rewrite split_dash_app by done. simpl. by destruct (CellKey.split_dash t). }
  unfold CellKey.getCellId.
  destruct (Z.ltb_spec x 0) as [Hx|Hx].
  - rewrite (numeral_neg x Hx). unfold CellKey.parseCellId. simpl. cbv zeta.
    rewrite split_dash_app by apply unsigned_dashfree. simpl.
    rewrite Number_unsigned. do 2 f_equal. lia.
  - rewrite (numeral_nonneg x Hx).
    rewrite Hsplit by (apply unsigned_dashfree || apply unsigned_nonempty).
    rewrite Number_unsigned, (Z.abs_eq x Hx).
    destruct (Z.ltb_spec y 0) as [Hy|Hy]; cbn [fst snd].
    + rewrite (numeral_neg y Hy). done.
    + rewrite (numeral_nonneg y Hy), split_dash_dashfree by apply unsigned_dashfree.
      simpl. by rewrite Number_unsigned, (Z.abs_eq y Hy).
Qed.

End PairKeyFacts.

(** ** The search of the benchmark agrees with the search of the simulation *)

Module LegacyFacts.
Import MinHeapFacts SearchFacts PathFacts ShortestFacts QueueFacts RouteFacts.

Section Legacy.
Context (startId endId : Z * Z) (grid : Grid).

Local Abbreviation relaxL := (relaxLegacy endId grid).
Local Abbreviation stepL := (legacyStep endId grid).
Local Abbreviation loopL := (legacyLoop endId grid).

(** A cell the legacy loop may step into. *)
Definition walkable (n : Z * Z) : bool :=
  match cellAt grid n with
  | Some c => isTraversable c
  | None => false
  end.

Definition childL (current : AStarNode) (n : Z * Z) : AStarNode :=
  {| node_id := n; node_x := n.1; node_y := n.2;
     node_g := node_g current + 1;
     node_h := getHeuristic n.1 n.2 (parseCellId endId).1 (parseCellId endId).2;
     node_f := node_g current + 1
               + getHeuristic n.1 n.2 (parseCellId endId).1 (parseCellId endId).2;
     node_parent := Some current |}.

Definition improvesL (st : SearchState) (current : AStarNode) (n : Z * Z) : bool :=
  match visited st !! n with
  | None => true
  | Some best => node_g current + 1 <? best
  end.

Definition pushedL (st : SearchState) (current : AStarNode) (n : Z * Z) : SearchState :=
  {| openSet := PriorityQueueLegacy.push node_f (childL current n) (openSet st);
     visited := <[n := node_g current + 1]> (visited st) |}.

Lemma relaxL_eq current st n :
  relaxL current st n =
    if walkable n && improvesL st current n then pushedL st current n else st.
Proof.
  destruct n as [nx ny].
  unfold relaxLegacy, walkable, improvesL, pushedL, childL, getCellId. simpl.
  destruct (cellAt grid (nx, ny)) as [c|]; [|done].
  destruct (isTraversable c); [|done]. simpl.
  by destruct (visited st !! (nx, ny)) as [best|]; [destruct (_ <? best)|].
Qed.

Lemma legacy_push_perm (item : AStarNode) items :
  PriorityQueueLegacy.push node_f item items ≡ₚ item :: items.
Proof.
  unfold PriorityQueueLegacy.push. rewrite (sortByF_perm node_f (items ++ [item])).
  symmetry. apply Permutation_cons_append.
Qed.

Lemma legacy_push_Forall (P : AStarNode → Prop) item items :
  P item → Forall P items → Forall P (PriorityQueueLegacy.push node_f item items).
Proof. intros Hi Hh. rewrite legacy_push_perm. by constructor. Qed.

Lemma legacy_push_elem (m n : AStarNode) items :
  n ∈ PriorityQueueLegacy.push node_f m items ↔ n = m ∨ n ∈ items.
Proof. rewrite legacy_push_perm. apply elem_of_cons. Qed.

Lemma stepL_inl st r :
  stepL st = inl r →
  (r = None ∧ openSet st = []) ∨
  (∃ current rest, openSet st = current :: rest ∧
                   node_id current = endId ∧ r = Some (reconstruct current [])).
Proof.
  unfold legacyStep. destruct (openSet st) as [|current rest]; simpl.
  { intros [= <-]. by left. }
  case_bool_decide as Hid; [|done]. intros [= <-]. right. by exists current, rest.
Qed.

Lemma stepL_inr st st' :
  stepL st = inr st' →
  ∃ current rest,
    openSet st = current :: rest ∧ node_id current ≠ endId ∧
    st' = fold_left (relaxL current) (neighbors current)
                    {| openSet := rest; visited := visited st |}.
Proof.
  unfold legacyStep. destruct (openSet st) as [|current rest]; simpl; [done|].
  case_bool_decide as Hid; [done|]. intros [= <-]. by exists current, rest.
Qed.

Lemma loopL_mono fuel fuel' st r :
  loopL fuel st = Done r → (fuel ≤ fuel')%nat → loopL fuel' st = Done r.
Proof.
  revert fuel' st. induction fuel as [|fuel IH]; intros fuel' st; simpl; [done|].
  intros H Hle. destruct fuel' as [|fuel']; [lia|]. simpl.
  destruct (stepL st) as [r'|st']; [done|]. apply IH; [done|lia].
Qed.

Lemma loopL_exit (I : SearchState → Prop) fuel st r :
  (∀ st st', I st → stepL st = inr st' → I st') →
  I st → loopL fuel st = Done r → ∃ st0, I st0 ∧ stepL st0 = inl r.
Proof.
  intros Hstep. revert st. induction fuel as [|fuel IH]; intros st Hst; simpl; [done|].
  destruct (stepL st) as [r'|st'] eqn:Hs.
  - intros [= ->]. by exists st.
  - apply IH. by apply (Hstep st).
Qed.

(** *** The legacy loop stops *)

Lemma walkable_cells n : walkable n = true → n ∈ cells grid.
Proof.
  unfold walkable. destruct (cellAt grid n) as [c|] eqn:E; [|done].
  intros _. by apply (cellAt_cells grid n c).
Qed.

Lemma pushedL_measure st current n :
  nonneg st → 0 ≤ node_g current →
  walkable n = true → improvesL st current n = true →
  lt2 (measure2 grid (pushedL st current n)) (measure2 grid st) ∧
  nonneg (pushedL st current n).
Proof.
  intros [Hopen Hvis] Hg He Hi.
  pose proof (walkable_cells n He) as Hn.
  split.
  - unfold lt2, measure2, pushedL, improvesL in *. simpl.
    destruct (visited st !! n) as [best|] eqn:Hv.
    + right. apply Z.ltb_lt in Hi. split.
      * apply filter_length_ext. intros c.
        destruct (decide (c = n)) as [->|Hc].
        -- rewrite lookup_insert_eq, Hv. done.
        -- by rewrite lookup_insert_ne.
      * apply (sum_weight_lt _ _ _ n); [|done|].
        -- intros c. unfold weight. destruct (decide (c = n)) as [->|Hc].
           ++ rewrite lookup_insert_eq, Hv. lia.
           ++ by rewrite lookup_insert_ne.
        -- unfold weight. rewrite lookup_insert_eq, Hv. lia.
    + left. apply (filter_length_lt _ _ _ n); [|done| |].
      * intros c. destruct (decide (c = n)) as [->|Hc].
        -- by rewrite lookup_insert_eq.
        -- by rewrite lookup_insert_ne.
      * by rewrite Hv.
      * by rewrite lookup_insert_eq.
  - split; simpl.
    + apply legacy_push_Forall; [simpl; lia|done].
    + intros c g. destruct (decide (c = n)) as [->|Hc].
      * rewrite lookup_insert_eq. intros [= <-]. lia.
      * rewrite lookup_insert_ne by done. apply Hvis.
Qed.

Lemma foldL_measure current ns st :
  nonneg st → 0 ≤ node_g current →
  nonneg (fold_left (relaxL current) ns st) ∧
  (fold_left (relaxL current) ns st = st ∨
   lt2 (measure2 grid (fold_left (relaxL current) ns st)) (measure2 grid st)).
Proof.
  revert st. induction ns as [|n ns IH]; intros st Hst Hg; simpl; [auto|].
  rewrite relaxL_eq.
  destruct (walkable n && improvesL st current n) eqn:E; [|by apply IH].
  apply andb_true_iff in E as [He Hi].
  destruct (pushedL_measure st current n Hst Hg He Hi) as [Hlt Hnn].
  destruct (IH _ Hnn Hg) as [Hnn' [Heq|Hlt']]; split; auto.
  - right. by rewrite Heq.
  - right. unfold lt2 in *. lia.
Qed.

Lemma stepL_measure st st' :
  nonneg st → stepL st = inr st' →
  nonneg st' ∧
  (lt2 (measure2 grid st') (measure2 grid st) ∨
   (measure2 grid st' = measure2 grid st ∧ (length (openSet st') < length (openSet st))%nat)).
Proof.
  intros [Hopen Hvis] (current & rest & Hpop & Hid & ->)%stepL_inr.
  rewrite Hpop in Hopen. apply Forall_cons in Hopen as [Hg Hrest].
  assert (nonneg {| openSet := rest; visited := visited st |}) as Hnn by done.
  destruct (foldL_measure current (neighbors current) _ Hnn Hg) as [Hnn' [Heq|Hlt]].
  - split; [done|]. right. rewrite Heq, Hpop. simpl. split; [done|lia].
  - split; [done|]. by left.
Qed.

Lemma loopL_terminates st : nonneg st → ∃ fuel r, loopL fuel st = Done r.
Proof.
  remember (unvisited grid (visited st)) as a eqn:Ea.
  remember (total grid (visited st)) as b eqn:Eb.
  remember (length (openSet st)) as c eqn:Ec.
  revert st Ea Eb Ec. induction a, b, c as [a b c IH] using lex3_ind.
  intros st -> -> -> Hst.
  destruct (stepL st) as [r|st'] eqn:Hs.
  - exists 1%nat, r. simpl. by rewrite Hs.
  - destruct (stepL_measure st st' Hst Hs) as [Hst' Hm].
    destruct (IH _ _ _ ltac:(unfold lt2, measure2 in Hm; simpl in Hm;
                              destruct Hm as [[?|[? ?]]|[[= ? ?] ?]];
                              [left|right;left|right;right]; eauto)
                st' eq_refl eq_refl eq_refl Hst') as (fuel & r & Hr).
    exists (S fuel), r. simpl. by rewrite Hs.
Qed.

(** *** The start cell is never entered again *)

Lemma improvesL_fresh st current n :
  visited st !! startId = Some 0 → 0 ≤ node_g current →
  improvesL st current n = true → n ≠ startId.
Proof.
  intros Hs Hg Hi ->. unfold improvesL in Hi. rewrite Hs in Hi. apply Z.ltb_lt in Hi. lia.
Qed.

Lemma seated_childL current n : n ≠ startId → seated startId (childL current n).
Proof. intros Hne. unfold seated. simpl. rewrite seat_other by done. by destruct n. Qed.

(** *** What it returns is a walk *)

Definition routeL (n : AStarNode) : Prop :=
  seated startId n ∧
  ∃ rest, reconstruct n [] = startId :: rest ∧
          last (startId :: rest) = Some (node_id n) ∧
          stepwiseFrom startId (startId :: rest) ∧
          Forall (λ c, walkable c = true) rest.

Lemma routeL_child current n :
  routeL current → n ∈ neighbors current → walkable n = true → n ≠ startId →
  routeL (childL current n).
Proof.
  intros (Hxy & rest & Hrec & Hlast & Hstep & Hall) Hn He Hne.
  split; [by apply seated_childL|]. exists (rest ++ [n]).
  unfold childL. rewrite reconstruct_child, Hrec. simpl.
  split; [done|]. split; [|split].
  - by rewrite app_comm_cons, last_snoc.
  - rewrite app_comm_cons. apply (stepwiseFrom_snoc _ _ (node_id current)); [done|done|].
    unfold seated in Hxy. rewrite Hxy. by apply neighbors_adjacent.
  - apply Forall_app. split; [done|]. by constructor.
Qed.

Definition routed (st : SearchState) : Prop :=
  visited st !! startId = Some 0 ∧
  Forall (λ n, 0 ≤ node_g n ∧ routeL n ∧ reached walkable startId (node_id n)) (openSet st).

Lemma routed_fold current ns st :
  0 ≤ node_g current → routeL current → reached walkable startId (node_id current) →
  (∀ n, n ∈ ns → n ∈ neighbors current) → routed st →
  routed (fold_left (relaxL current) ns st).
Proof.
  intros Hg Hc Hr. revert st. induction ns as [|n ns IH]; intros st Hns Hst; simpl; [done|].
  apply IH; [intros m Hm; apply Hns; by right|].
  rewrite relaxL_eq. destruct (walkable n) eqn:He; simpl; [|done].
  destruct (improvesL st current n) eqn:Hi; [|done].
  destruct Hst as [Hs Hall].
  pose proof (improvesL_fresh st current n Hs Hg Hi) as Hne.
  assert (n ∈ neighbors current) as Hn by (apply Hns; by left).
  split; simpl; [by rewrite lookup_insert_ne|].
  apply legacy_push_Forall; [|done]. split; [simpl; lia|]. split.
  - by apply routeL_child.
  - simpl. apply (reached_step _ _ (node_id current) n); [done| |done].
    destruct Hc as [Hxy _]. unfold seated in Hxy. by rewrite Hxy.
Qed.

Lemma routed_step st st' : routed st → stepL st = inr st' → routed st'.
Proof.
  intros [Hs Hst] (current & rest & Hpop & Hid & ->)%stepL_inr.
  rewrite Hpop in Hst. apply Forall_cons in Hst as [(Hg & Hc & Hr) Hrest].
  by apply routed_fold.
Qed.

(** *** A goal that can be reached is reached *)

Definition closedL (v : gmap (Z * Z) Z) (c : Z * Z) : Prop :=
  c ≠ endId ∧ ∀ n, n ∈ around (seat startId c) → walkable n = true → is_Some (v !! n).

Definition coveringL (except : option (Z * Z)) (st : SearchState) : Prop :=
  visited st !! startId = Some 0 ∧
  Forall (λ n, 0 ≤ node_g n ∧ seated startId n) (openSet st) ∧
  ∀ c g, visited st !! c = Some g → Some c ≠ except →
         (∃ n, n ∈ openSet st ∧ node_id n = c) ∨ closedL (visited st) c.

Lemma closedL_insert v c n g : closedL v c → closedL (<[n:=g]> v) c.
Proof.
  intros [Hc Hall]. split; [done|]. intros m Hm He.
  destruct (decide (m = n)) as [->|Hne]; [by rewrite lookup_insert_eq|].
  rewrite lookup_insert_ne by done. by apply Hall.
Qed.

Lemma coveringL_fold except current ns st :
  0 ≤ node_g current → coveringL except st →
  coveringL except (fold_left (relaxL current) ns st) ∧
  (∀ c, is_Some (visited st !! c) →
        is_Some (visited (fold_left (relaxL current) ns st) !! c)) ∧
  (∀ n, n ∈ ns → walkable n = true →
        is_Some (visited (fold_left (relaxL current) ns st) !! n)).
Proof.
  intros Hcur. revert st. induction ns as [|n ns IH]; intros st Hst; simpl.
  { split; [done|]. split; [done|]. by intros n ?%elem_of_nil. }
  rewrite relaxL_eq.
  destruct (walkable n) eqn:He; simpl.
  2:{ destruct (IH st Hst) as (H1 & H2 & H3). split; [done|]. split; [done|].
      intros m [->|Hm]%elem_of_cons Hem; [congruence|by apply H3]. }
  destruct (improvesL st current n) eqn:Hi.
  2:{ destruct (IH st Hst) as (H1 & H2 & H3). split; [done|]. split; [done|].
      intros m [->|Hm]%elem_of_cons Hem; [|by apply H3].
      apply H2. unfold improvesL in Hi. by destruct (visited st !! n). }
  assert (n ≠ startId) as Hfresh.
  { destruct Hst as (Hs & _ & _). by apply (improvesL_fresh st current n). }
  assert (coveringL except (pushedL st current n)) as Hst'.
  { destruct Hst as (Hs & Hxy & Hcell). unfold pushedL. split; [|split]; simpl.
    - by rewrite lookup_insert_ne.
    - apply legacy_push_Forall; [|done]. split; [simpl; lia|by apply seated_childL].
    - intros c g Hc Hc0. destruct (decide (c = n)) as [->|Hne].
      + left. eexists. split; [apply legacy_push_elem; by left|done].
      + rewrite lookup_insert_ne in Hc by done.
        destruct (Hcell c g Hc Hc0) as [(m & Hm & Hid)|Hcl].
        * left. exists m. split; [apply legacy_push_elem; by right|done].
        * right. by apply closedL_insert. }
  destruct (IH _ Hst') as (H1 & H2 & H3). split; [done|].
  assert (∀ c, is_Some (visited st !! c) → is_Some (visited (pushedL st current n) !! c))
    as Hkeep.
  { intros c Hc. unfold pushedL. simpl.
    destruct (decide (c = n)) as [->|Hne]; [by rewrite lookup_insert_eq|].
    by rewrite lookup_insert_ne. }
  split; [intros c Hc; by apply H2, Hkeep|].
  intros m [->|Hm]%elem_of_cons Hem; [|by apply H3].
  apply H2. unfold pushedL. simpl. by rewrite lookup_insert_eq.
Qed.

Lemma coveringL_step st st' : coveringL None st → stepL st = inr st' → coveringL None st'.
Proof.
  intros (Hs & Hxy & Hcell) (current & rest & Hpop & Hid & ->)%stepL_inr.
  rewrite Hpop in Hxy. apply Forall_cons in Hxy as [[Hcur Hcxy] Hrest].
  assert (coveringL (Some (node_id current)) {| openSet := rest; visited := visited st |})
    as Hbut.
  { split; [done|]. split; [done|]. simpl. intros c g Hc Hne.
    destruct (Hcell c g Hc) as [(m & Hm & Hmid)|Hcl]; [done| |by right].
    left. exists m. split; [|done].
    rewrite Hpop in Hm. apply elem_of_cons in Hm as [->|Hm]; [congruence|done]. }
  destruct (coveringL_fold _ current (neighbors current) _ Hcur Hbut)
    as ((Hs' & Hxy' & Hcell') & Hkeep & Hnew).
  split; [done|]. split; [done|]. intros c g Hc _.
  destruct (decide (c = node_id current)) as [->|Hne]; [|apply (Hcell' c g Hc); congruence].
  right. split; [done|]. intros n Hn He. apply Hnew; [|done].
  unfold seated in Hcxy. rewrite Hcxy in Hn. exact Hn.
Qed.

Lemma coveringL_empty st c :
  coveringL None st → openSet st = [] → reached walkable startId c →
  closedL (visited st) c.
Proof.
  intros (Hs & Hxy & Hcell) Hopen.
  assert (∀ c, is_Some (visited st !! c) → closedL (visited st) c) as Hall.
  { intros d [g Hg]. destruct (Hcell d g Hg) as [(m & Hm & _)|Hcl]; [done| |done].
    rewrite Hopen in Hm. by apply elem_of_nil in Hm. }
  induction 1 as [|c n Hc IH Hn He]; [by apply Hall|].
  apply Hall. destruct IH as [_ IH]. by apply IH.
Qed.

(** The state the loop starts in. *)
Definition legacyRoot : AStarNode :=
  let startPos := parseCellId startId in
  let endPos := parseCellId endId in
  mkNode startId startPos.1 startPos.2 0
         (getHeuristic startPos.1 startPos.2 endPos.1 endPos.2)
         (getHeuristic startPos.1 startPos.2 endPos.1 endPos.2) None.

Definition legacyStart : SearchState :=
  {| openSet := [legacyRoot]; visited := <[startId := 0]> (∅ : gmap (Z * Z) Z) |}.

Lemma seated_legacyRoot : seated startId legacyRoot.
Proof. unfold seated, seat. simpl. rewrite decide_True by done. by destruct (parseCellId _). Qed.

Lemma legacyStart_nonneg : nonneg legacyStart.
Proof.
  split; simpl.
  - by repeat constructor.
  - intros c g. destruct (decide (c = startId)) as [->|Hc].
    + rewrite lookup_insert_eq. by intros [= <-].
    + by rewrite lookup_insert_ne, lookup_empty.
Qed.

Lemma legacyStart_routed : routed legacyStart.
Proof.
  split; simpl; [by rewrite lookup_insert_eq|].
  constructor; [|constructor]. split; [done|]. split; [|constructor].
  split; [apply seated_legacyRoot|]. exists []. simpl.
  repeat split; [|constructor]. intros i a b Ha Hb. by destruct i.
Qed.

Lemma legacyStart_covering : coveringL None legacyStart.
Proof.
  split; [|split]; simpl.
  - by rewrite lookup_insert_eq.
  - constructor; [|constructor]. split; [done|apply seated_legacyRoot].
  - intros c g Hc _. left. eexists. split; [by left|]. simpl.
    destruct (decide (c = startId)) as [->|Hne]; [done|].
    by rewrite lookup_insert_ne, lookup_empty in Hc.
Qed.

End Legacy.

Lemma findPathAStarLegacy_eq fuel startId endId grid trains :
  findPathAStarLegacy fuel startId endId grid trains =
    match cellAt grid startId, cellAt grid endId with
    | Some _, Some _ => legacyLoop endId grid fuel (legacyStart startId endId)
    | _, _ => Done None
    end.
Proof. done. Qed.

Lemma legacy_returns startId endId grid trains :
  ∃ fuel0 r, ∀ fuel, (fuel0 ≤ fuel)%nat →
    findPathAStarLegacy fuel startId endId grid trains = Done r.
Proof.
  destruct (cellAt grid startId) as [cs|] eqn:Hs.
  2:{ exists 0%nat, None. intros fuel _. by rewrite findPathAStarLegacy_eq, Hs. }
  destruct (cellAt grid endId) as [ce|] eqn:He.
  2:{ exists 0%nat, None. intros fuel _. by rewrite findPathAStarLegacy_eq, Hs, He. }
  destruct (loopL_terminates endId grid (legacyStart startId endId)
              (legacyStart_nonneg startId endId)) as (fuel0 & r & Hr).
  exists fuel0, r. intros fuel Hle. rewrite findPathAStarLegacy_eq, Hs, He.
  by apply (loopL_mono _ _ fuel0).
Qed.

(** What a returned path is, whatever the start key, and that its end can
    be got to. *)
Lemma legacy_track fuel startId endId grid trains p :
  findPathAStarLegacy fuel startId endId grid trains = Done (Some p) →
  is_Some (cellAt grid startId) ∧ reached (walkable grid) startId endId ∧
  ∃ rest, p = startId :: rest ∧ last p = Some endId ∧ stepwiseFrom startId p ∧
          Forall (λ c, walkable grid c = true) rest.
Proof.
  rewrite findPathAStarLegacy_eq.
  destruct (cellAt grid startId); [|done]. destruct (cellAt grid endId); [|done].
  intros Hrun. split; [done|].
  destruct (loopL_exit endId grid (routed startId grid) fuel _ _
              (routed_step startId endId grid) (legacyStart_routed startId endId grid) Hrun)
    as (st0 & [_ Hst0] & [[? _]|(current & rest0 & Hopen & Hid & [= ->])]%stepL_inl); [done|].
  rewrite Hopen in Hst0.
  apply Forall_cons in Hst0 as [(_ & (_ & rest & Hrec & Hlast & Hstep & Hall) & Hr) _].
  rewrite Hid in Hr, Hlast. split; [done|]. exists rest. by rewrite Hrec.
Qed.

Lemma legacy_reaches startId endId grid trains :
  is_Some (cellAt grid startId) → reached (walkable grid) startId endId →
  ∃ fuel0 p, ∀ fuel, (fuel0 ≤ fuel)%nat →
    findPathAStarLegacy fuel startId endId grid trains = Done (Some p).
Proof.
  intros Hs Hreach.
  destruct (legacy_returns startId endId grid trains) as (fuel0 & r & Hr).
  assert (is_Some (cellAt grid endId)) as He.
  { destruct Hreach as [|c n _ _ He]; [done|]. unfold walkable in He.
    by destruct (cellAt grid n). }
  pose proof (Hr fuel0 (Nat.le_refl _)) as Hrun. rewrite findPathAStarLegacy_eq in Hrun.
  destruct Hs as [cs Hcs], He as [ce Hce]. rewrite Hcs, Hce in Hrun.
  destruct (loopL_exit endId grid (coveringL startId endId grid None) fuel0 _ _
              (coveringL_step startId endId grid) (legacyStart_covering startId endId grid)
              Hrun)
    as (st0 & Hst0 & [[-> Hopen]|(current & rest & Hpop & Hid & ->)]%stepL_inl).
  - by destruct (coveringL_empty startId endId grid st0 endId Hst0 Hopen Hreach) as [Hne _].
  - eexists fuel0, _. exact Hr.
Qed.

Lemma walkable_enterable endId grid n :
  enterable endId grid None false n = walkable grid n.
Proof.
  unfold enterable, excluded, walkable. destruct (cellAt grid n); [|done]. simpl.
  apply andb_true_r.
Qed.

(** X29.  The search of the benchmark and the search of the simulation,
    run without trains, reservations or strict mode, agree on whether there
    is a path: one returns a path exactly when the other does. *)
Theorem legacy_search_agrees startId endId grid trains :
  (∃ fuel p, findPathAStarLegacy fuel startId endId grid trains = Done (Some p)) ↔
  (∃ fuel p, findPathAStar fuel startId endId grid [] None None false = Done (Some p)).
Proof.
  split.
  - intros (fuel & p & Hrun).
    apply legacy_track in Hrun as (Hs & Hreach & _).
    destruct (findPathAStar_reaches startId endId grid [] None None false Hs)
      as (fuel0 & p' & Hp').
    { apply (reached_mono (walkable grid)); [|done].
      intros n. by rewrite walkable_enterable. }
    exists fuel0, p'. by apply Hp'.
  - intros (fuel & p & Hrun).
    pose proof (findPathAStar_reached _ _ _ _ _ _ _ _ _ Hrun) as Hreach.
    destruct (findPathAStar_found _ _ _ _ _ _ _ _ _ Hrun) as (Hs & _ & _).
    destruct (legacy_reaches startId endId grid trains Hs) as (fuel0 & p' & Hp').
    { apply (reached_mono (enterable endId grid None false));
        [intros n; by rewrite walkable_enterable|done]. }
    exists fuel0, p'. by apply Hp'.
Qed.

(** X30.  The search of the benchmark returns on every input, and a path
    it returns is a walk: it begins with the start cell and ends with the
    goal, consecutive cells are 4-adjacent, and every cell after the first
    is a track or a station of the grid.  The start key is one of two
    coordinates that are not negative, as the keys of the board are; the
    first step of the search leaves the position that [parseCellId] reads
    from the start key. *)
Theorem legacy_search_returns_a_walk startId endId grid trains :
  0 ≤ startId.1 → 0 ≤ startId.2 →
  ∃ fuel0 r, ∀ fuel, (fuel0 ≤ fuel)%nat →
    findPathAStarLegacy fuel startId endId grid trains = Done r ∧
    ∀ p, r = Some p →
         head p = Some startId ∧ last p = Some endId ∧
         (∀ i a b, p !! i = Some a → p !! S i = Some b →
                   getHeuristic a.1 a.2 b.1 b.2 = 1) ∧
         (∀ i c, p !! S i = Some c →
                 ∃ cell, cellAt grid c = Some cell ∧ isTraversable cell = true).
Proof.
  intros Hx Hy.
  destruct (legacy_returns startId endId grid trains) as (fuel0 & r & Hr).
  exists fuel0, r. intros fuel Hle. split; [by apply Hr|]. intros p ->.
  destruct (legacy_track _ _ _ _ _ _ (Hr fuel Hle))
    as (_ & _ & rest & -> & Hlast & Hstep & Hall).
  split; [done|]. split; [done|]. split.
  - apply (stepwiseFrom_plain startId); [by apply parseCellId_plain|exact Hstep].
  - intros i c Hc. simpl in Hc.
    pose proof (proj1 (Forall_forall _ _) Hall c (list_elem_of_lookup_2 _ _ _ Hc)) as He.
    unfold walkable in He. destruct (cellAt grid c) as [cell|]; [|done]. by exists cell.
Qed.

Lemma legacy_search_returns_a_walk_witness :
  ∃ fuel0 r, ∀ fuel, (fuel0 ≤ fuel)%nat →
    findPathAStarLegacy fuel (0, 0) (1, 0) twoCells [] = Done r ∧
    ∀ p, r = Some p →
         head p = Some (0, 0) ∧ last p = Some (1, 0) ∧
         (∀ i a b, p !! i = Some a → p !! S i = Some b →
                   getHeuristic a.1 a.2 b.1 b.2 = 1) ∧
         (∀ i c, p !! S i = Some c →
                 ∃ cell, cellAt twoCells c = Some cell ∧ isTraversable cell = true).
Proof.
  apply (legacy_search_returns_a_walk (0, 0) (1, 0) twoCells []); simpl; lia.
Defined.

End LegacyFacts.
